(** * The multigrid V-cycle of deal.II (multigrid/multigrid.templates.h)

    A shallow embedding of [Multigrid<VECTOR>::set_edge_matrices],
    [Multigrid<VECTOR>::level_mgstep] and [Multigrid<VECTOR>::vcycle],
    and the properties of one V-cycle proved about it.

    The class is a template over [VECTOR] and reaches its collaborators
    through abstract base classes, so the development is generic in the
    vector type (a type class) and in the operators (records of
    functions).  The per-level vectors live in level-indexed stores; the
    statements of the C++ code become commands on an explicit state,
    which also logs every call through an operator handle.  The output
    under [MG_DEBUG] is left out.

    The file has three parts: the embedding of the code, the
    vocabulary of the statements, and the lemmas and theorems. *)

From stdpp Require Import gmap list.
From Stdlib Require Import NArith ZArith Lia.

Local Open Scope N_scope.

(** ** Outcomes of a command *)

(** A command either returns, stops on a violated contract (an index
    outside the range of a level object), or exhausts the recursion
    budget of the model. *)
Inductive result (A : Type) : Type :=
| Ok (a : A)
| Fatal
| OutOfFuel.
Arguments Ok {A} a.
Arguments Fatal {A}.
Arguments OutOfFuel {A}.

Definition rbind {A B : Type} (r : result A) (f : A -> result B) : result B :=
  match r with
  | Ok a => f a
  | Fatal => Fatal
  | OutOfFuel => OutOfFuel
  end.

Definition rmap {A B : Type} (f : A -> B) (r : result A) : result B :=
  rbind r (fun a => Ok (f a)).

(** ** Unsigned level indices *)

(** Levels are [unsigned int]: [--l] at zero and [++level] at the largest
    value wrap around. *)
Definition UINT_MAX : N := 4294967295.

Definition u_pred (l : N) : N := if l =? 0 then UINT_MAX else l - 1.
Definition u_succ (l : N) : N := if l =? UINT_MAX then 0 else l + 1.

(** ** The vector type *)

(** The operations [level_mgstep] and [vcycle] use of [VECTOR]:
    default construction, [reinit (const VECTOR&)], [operator= (0.)],
    [operator+=] and [operator-=].  [vsize] is the shape of a vector. *)
Class VectorOps (V : Type) : Type := {
  vnew : V;
  vsize : V -> nat;
  reinit : V -> V -> V;
  assign_zero : V -> V;
  vadd : V -> V -> V;
  vsub : V -> V -> V
}.

(** Modelled from the spec: the [VECTOR] class itself is not part of the
    sources.  [reinit] gives the zero vector of the shape of its
    argument, whatever the vector held before; a vector set to zero
    stays the same when set to zero again; and subtracting a vector that
    was set to zero changes nothing.  (For vectors of different shapes
    C++ leaves [-=] undefined; the last law fixes the model there.) *)
Class VectorLaws (V : Type) `{VectorOps V} : Prop := {
  vsize_reinit : forall d m : V, vsize (reinit d m) = vsize m;
  assign_zero_reinit : forall d m : V, assign_zero (reinit d m) = reinit d m;
  reinit_shape : forall d d' m m' : V, vsize m = vsize m' -> reinit d m = reinit d' m';
  assign_zero_idemp : forall v : V, assign_zero (assign_zero v) = assign_zero v;
  vsub_assign_zero : forall a b : V, vsub a (assign_zero b) = a
}.

(** Exact arithmetic: multiplication of a vector by a scalar of type [K]
    distributes over the vector operations. *)
Class ScalarOps (K V : Type) : Type := {
  scal : K -> V -> V
}.

Class ScalarLaws (K V : Type) `{VectorOps V} `{ScalarOps K V} : Prop := {
  scal_reinit : forall (c : K) (d m : V), reinit d (scal c m) = scal c (reinit d m);
  scal_assign_zero : forall (c : K) (v : V), assign_zero (scal c v) = scal c (assign_zero v);
  scal_vadd : forall (c : K) (a b : V), vadd (scal c a) (scal c b) = scal c (vadd a b);
  scal_vsub : forall (c : K) (a b : V), vsub (scal c a) (scal c b) = scal c (vsub a b)
}.

(** ** Vectors of integers, for running the model *)

Module ZVec.

(** [a += b] and [a -= b] keep the size of [a] and touch the elements
    that [b] has. *)

Fixpoint zip_with_left (f : Z -> Z -> Z) (a b : list Z) : list Z :=
  match a, b with
  | [], _ => []
  | x :: a', [] => x :: a'
  | x :: a', y :: b' => f x y :: zip_with_left f a' b'
  end.

#[global] Instance ops : VectorOps (list Z) := {|
  vnew := [];
  vsize := @length Z;
  reinit := fun _ m => List.map (fun _ => 0%Z) m;
  assign_zero := fun v => List.map (fun _ => 0%Z) v;
  vadd := zip_with_left Z.add;
  vsub := zip_with_left Z.sub
|}.

#[global] Instance scalar_ops : ScalarOps Z (list Z) := {|
  scal := fun c v => List.map (Z.mul c) v
|}.

End ZVec.

(** ** The operator interfaces *)

Section Multigrid.

Context {V : Type} `{VectorOps V}.

(** Every virtual method has the shape [(level, dst, src)] with [dst]
    passed by reference: the model maps the level, the old [dst] and
    [src] to the new [dst]. *)
Definition level_op : Type := N -> V -> V -> V.

(** [MGMatrixBase<VECTOR>] *)
Record MGMatrixBase : Type := {
  vmult : level_op;
  Tvmult : level_op
}.

(** [MGCoarseGridBase<VECTOR>], method [operator()] *)
Record MGCoarseGridBase : Type := {
  coarse_apply : level_op
}.

(** [MGTransferBase<VECTOR>] *)
Record MGTransferBase : Type := {
  prolongate : level_op;
  restrict_and_add : level_op
}.

(** [MGSmootherBase<VECTOR>] *)
Record MGSmootherBase : Type := {
  smooth : level_op
}.

(** The configuration members of [Multigrid<VECTOR>]; a null edge
    matrix pointer is [None]. *)
Record Multigrid : Type := {
  minlevel : N;
  maxlevel : N;
  matrix : MGMatrixBase;
  coarse : MGCoarseGridBase;
  transfer : MGTransferBase;
  pre_smooth : MGSmootherBase;
  post_smooth : MGSmootherBase;
  edge_down : option MGMatrixBase;
  edge_up : option MGMatrixBase
}.

Definition with_edges (mg : Multigrid) (down up : option MGMatrixBase) : Multigrid :=
  {| minlevel := minlevel mg; maxlevel := maxlevel mg;
     matrix := matrix mg; coarse := coarse mg; transfer := transfer mg;
     pre_smooth := pre_smooth mg; post_smooth := post_smooth mg;
     edge_down := down; edge_up := up |}.

Definition set_edge_matrices (mg : Multigrid) (down up : MGMatrixBase) : Multigrid :=
  with_edges mg (Some down) (Some up).

(** ** The level vectors and the call log *)

(** One entry per call through an operator handle. *)
Inductive event : Type :=
| EvCoarse (level : N)
| EvPreSmooth (level : N)
| EvPostSmooth (level : N)
| EvMatrixVmult (level : N)
| EvEdgeDownVmult (level : N)
| EvEdgeUpTvmult (level : N)
| EvRestrictAndAdd (level : N)
| EvProlongate (level : N).

(** The members [defect], [solution] and [t] (each an
    [MGLevelObject<VECTOR>]), and the log of operator calls. *)
Record mg_state : Type := {
  defect : gmap N V;
  solution : gmap N V;
  t : gmap N V;
  trace : list event
}.

Inductive role : Type := Defect | Solution | Scratch.

Definition store (r : role) (s : mg_state) : gmap N V :=
  match r with
  | Defect => defect s
  | Solution => solution s
  | Scratch => t s
  end.

Definition set_store (r : role) (m : gmap N V) (s : mg_state) : mg_state :=
  match r with
  | Defect => {| defect := m; solution := solution s; t := t s; trace := trace s |}
  | Solution => {| defect := defect s; solution := m; t := t s; trace := trace s |}
  | Scratch => {| defect := defect s; solution := solution s; t := m; trace := trace s |}
  end.

Definition log (e : event) (s : mg_state) : mg_state :=
  {| defect := defect s; solution := solution s; t := t s; trace := trace s ++ [e] |}.

(** Modelled from the spec: [MGLevelObject<VECTOR>] is not part of the
    sources.  It gives indexed access for the levels of its range, an
    index outside the range is a fatal contract violation, and
    [resize] sets the range and allocates a fresh object per level. *)
Definition level_at (m : gmap N V) (l : N) : result V :=
  match m !! l with
  | Some v => Ok v
  | None => Fatal
  end.

Definition level_range (lo hi : N) : list N :=
  (fun i => lo + N.of_nat i) <$> seq 0 (N.to_nat (hi + 1 - lo)).

Definition resize (new_minlevel new_maxlevel : N) : result (gmap N V) :=
  if new_maxlevel <? new_minlevel then Fatal
  else Ok (list_to_map ((fun l => (l, vnew)) <$> level_range new_minlevel new_maxlevel)).

(** ** Commands *)

Definition cmd : Type := mg_state -> result mg_state.

Definition skip : cmd := fun s => Ok s.

Definition seq_cmd (c1 c2 : cmd) : cmd := fun s => rbind (c1 s) c2.

Definition loc : Type := role * N.

(** [dst = f (dst)] for an element of a level object *)
Definition update (f : V -> V) (dst : loc) : cmd := fun s =>
  rbind (level_at (store (fst dst) s) (snd dst)) (fun d =>
  Ok (set_store (fst dst) (<[snd dst := f d]> (store (fst dst) s)) s)).

(** [dst = f (dst, src)] for two elements of level objects *)
Definition update2 (f : V -> V -> V) (dst src : loc) : cmd := fun s =>
  rbind (level_at (store (fst dst) s) (snd dst)) (fun d =>
  rbind (level_at (store (fst src) s) (snd src)) (fun x =>
  Ok (set_store (fst dst) (<[snd dst := f d x]> (store (fst dst) s)) s))).

(** a call [op (level, dst, src)] through an operator handle *)
Definition call (e : event) (op : V -> V -> V) (dst src : loc) : cmd := fun s =>
  rbind (update2 op dst src s) (fun s' => Ok (log e s')).

End Multigrid.

Arguments MGMatrixBase V : clear implicits.
Arguments MGCoarseGridBase V : clear implicits.
Arguments MGTransferBase V : clear implicits.
Arguments MGSmootherBase V : clear implicits.
Arguments Multigrid V : clear implicits.
Arguments mg_state V : clear implicits.
Arguments cmd V : clear implicits.

Declare Scope cmd_scope.
Delimit Scope cmd_scope with cmd.

(** ** The recursive V-cycle and its driver *)

Section Engine.

Context {V : Type} `{VectorOps V}.
Variable mg : Multigrid V.

Local Notation "c1 ;; c2" := (seq_cmd c1 c2)
  (at level 100, c2 at level 200, right associativity) : cmd_scope.
Local Open Scope cmd_scope.

(** Body of the loop [for (l = level; l > minlevel; --l)]:
<<
    t[l-1] = 0.;
    if (l==level && edge_down != 0)
      edge_down->vmult(level, t[level-1], solution[level]);
    transfer->restrict_and_add (l, t[l-1], t[l]);
    defect[l-1] -= t[l-1];
>> *)
Definition restrict_body (level l : N) : cmd V :=
  update assign_zero (Scratch, u_pred l) ;;
  (if l =? level then
     match edge_down mg with
     | Some e => call (EvEdgeDownVmult level) (vmult e level)
                   (Scratch, u_pred level) (Solution, level)
     | None => skip
     end
   else skip) ;;
  call (EvRestrictAndAdd l) (restrict_and_add (transfer mg) l)
    (Scratch, u_pred l) (Scratch, l) ;;
  update2 vsub (Defect, u_pred l) (Scratch, u_pred l).

(** The loop itself; [n] bounds the number of iterations ([l] is its
    own variant, so [N.to_nat l] iterations always suffice). *)
Fixpoint restrict_loop (n : nat) (level l : N) : cmd V :=
  if minlevel mg <? l then
    match n with
    | O => fun _ => OutOfFuel
    | S n' => restrict_body level l ;; restrict_loop n' level (u_pred l)
    end
  else skip.

(** The statements of [level_mgstep] between the base case and the
    recursive call: pre-smoothing, [t = A*solution[level]], and the
    restriction loop. *)
Definition descend (level : N) : cmd V :=
  call (EvPreSmooth level) (smooth (pre_smooth mg) level)
    (Solution, level) (Defect, level) ;;
  call (EvMatrixVmult level) (vmult (matrix mg) level)
    (Scratch, level) (Solution, level) ;;
  restrict_loop (N.to_nat level) level level.

(** The statements of [level_mgstep] after the recursive call. *)
Definition ascend (level : N) : cmd V :=
  update assign_zero (Scratch, level) ;;
  call (EvProlongate level) (prolongate (transfer mg) level)
    (Scratch, level) (Solution, u_pred level) ;;
  update2 vadd (Solution, level) (Scratch, level) ;;
  match edge_up mg with
  | Some e => call (EvEdgeUpTvmult level) (Tvmult e level)
                (Scratch, level) (Solution, u_pred level) ;;
              update2 vsub (Defect, level) (Scratch, level)
  | None => skip
  end ;;
  call (EvPostSmooth level) (smooth (post_smooth mg) level)
    (Solution, level) (Defect, level).

(** [Multigrid<VECTOR>::level_mgstep]; [fuel] bounds the depth of the
    recursion. *)
Fixpoint level_mgstep (fuel : nat) (level : N) : cmd V :=
  match fuel with
  | O => fun _ => OutOfFuel
  | S fuel' =>
      update assign_zero (Solution, level) ;;
      if level =? minlevel mg then
        call (EvCoarse level) (coarse_apply (coarse mg) level)
          (Solution, level) (Defect, level)
      else
        descend level ;;
        level_mgstep fuel' (u_pred level) ;;
        ascend level
  end.

(** [solution.resize(minlevel, maxlevel)] and [t.resize(minlevel, maxlevel)] *)
Definition resize_store (r : role) : cmd V := fun s =>
  rbind (resize (minlevel mg) (maxlevel mg)) (fun m => Ok (set_store r m s)).

(** Body of the loop [for (level=minlevel; level<=maxlevel; ++level)] *)
Definition reinit_body (level : N) : cmd V :=
  update2 reinit (Solution, level) (Defect, level) ;;
  update2 reinit (Scratch, level) (Defect, level).

Fixpoint reinit_loop (n : nat) (level : N) : cmd V :=
  if level <=? maxlevel mg then
    match n with
    | O => fun _ => OutOfFuel
    | S n' => reinit_body level ;; reinit_loop n' (u_succ level)
    end
  else skip.

(** The first part of [vcycle]: adjust [solution] and [t] to the
    defect vectors.  The loop ends after [maxlevel - minlevel + 1]
    passes unless [++level] wraps around; the bound leaves room for one
    pass more, which then stops on a level out of range or goes on
    forever. *)
Definition vcycle_resize : cmd V :=
  resize_store Solution ;;
  resize_store Scratch ;;
  reinit_loop (N.to_nat (maxlevel mg - minlevel mg) + 2) (minlevel mg).

(** [Multigrid<VECTOR>::vcycle] *)
Definition vcycle (fuel : nat) : cmd V :=
  vcycle_resize ;;
  level_mgstep fuel (maxlevel mg).

End Engine.

#[global] Instance role_eq_dec : EqDecision role.
Proof. solve_decision. Defined.

(** * The vocabulary of the statements *)

(** an edge matrix whose [vmult] and [Tvmult] return the zero vector *)
Definition zero_matrix {V : Type} `{VectorOps V} : MGMatrixBase V :=
  {| vmult := fun _ dst _ => assign_zero dst;
     Tvmult := fun _ dst _ => assign_zero dst |}.

(** the levels of the calls [edge_up->Tvmult] in a log, in order *)
Definition edge_up_levels (tr : list event) : list N :=
  omap (fun e => match e with EvEdgeUpTvmult l => Some l | _ => None end) tr.

Section Vocabulary.

Context {V : Type} `{VectorOps V}.
Variable mg : Multigrid V.
Implicit Types (s : mg_state V) (c : cmd V) (r : role) (l level j : N).
Implicit Types (dv : gmap N V) (z u dl tl : V) (P : N -> Prop).

(** the state after writing [v] to the element [dst] *)
Definition write (dst : loc) (v : V) s : mg_state V :=
  set_store (fst dst) (<[snd dst := v]> (store (fst dst) s)) s.

(** [effect W es s s']: from [s] to [s'] only the elements in [W] were
    written, no level was added to or removed from a level object, and
    the calls [es] were made. *)
Record effect (W : loc -> Prop) (es : list event) s s' : Prop := {
  eff_frame : forall r l, ~ W (r, l) -> store r s' !! l = store r s !! l;
  eff_dom : forall r l, is_Some (store r s' !! l) <-> is_Some (store r s !! l);
  eff_trace : trace s' = trace s ++ es
}.

Definition has_effect c (W : loc -> Prop) (es : list event) : Prop :=
  forall s s', c s = Ok s' -> effect W es s s'.

Definition present (lo hi : N) s : Prop :=
  forall r l, lo <= l <= hi -> is_Some (store r s !! l).

(** [runs lo hi c]: on a state that has the levels [lo .. hi], [c]
    returns, in a state that has them too. *)
Definition runs (lo hi : N) c : Prop :=
  forall s, present lo hi s -> exists s', c s = Ok s' /\ present lo hi s'.

(** [l; l-1; ...], [k] levels in all *)
Fixpoint down_from (k : nat) (l : N) : list N :=
  match k with
  | O => []
  | S k' => l :: down_from k' (l - 1)
  end.

(** The operator calls of one pass of the restriction loop, of the
    whole loop started at [l0], and of [level_mgstep] at a level that
    is [k] above [minlevel]. *)
Definition edge_down_events (level l : N) : list event :=
  if l =? level then
    match edge_down mg with
    | Some _ => [EvEdgeDownVmult level]
    | None => []
    end
  else [].

Definition body_events (level l : N) : list event :=
  edge_down_events level l ++ [EvRestrictAndAdd l].

Definition loop_events (level l0 : N) : list event :=
  flat_map (body_events level) (down_from (N.to_nat (l0 - minlevel mg)) l0).

Definition edge_up_events (level : N) : list event :=
  match edge_up mg with
  | Some _ => [EvEdgeUpTvmult level]
  | None => []
  end.

Fixpoint mgstep_events (k : nat) (level : N) : list event :=
  match k with
  | O => [EvCoarse level]
  | S k' =>
      [EvPreSmooth level; EvMatrixVmult level] ++ loop_events level level ++
      mgstep_events k' (level - 1) ++
      [EvProlongate level] ++ edge_up_events level ++ [EvPostSmooth level]
  end.

(** scratch and defect vectors of the levels [minlevel .. l0 - 1] *)
Definition below (l0 : N) (x : loc) : Prop :=
  fst x <> Solution /\ minlevel mg <= snd x < l0.

(** everything [level_mgstep] at [level] may write: solution and
    scratch vectors of the levels [minlevel .. level], defect vectors
    below [level], and with an edge-up matrix also the defect vectors
    of the levels [minlevel + 1 .. level] *)
Definition touched (level : N) (x : loc) : Prop :=
  minlevel mg <= snd x <= level /\
  (fst x = Defect ->
   snd x < level \/ (is_Some (edge_up mg) /\ minlevel mg < snd x)).

(** scratch and defect vector of the level [l - 1] *)
Definition just_below (l : N) (x : loc) : Prop :=
  fst x <> Solution /\ snd x = l - 1.

(** The content of [solution] and of [t] when the loop of [vcycle]
    has treated the levels below [l], given the defect vectors [dv]. *)
Definition adjusted_upto dv l j : option V :=
  if decide (minlevel mg <= j <= maxlevel mg) then
    if decide (j < l) then reinit vnew <$> dv !! j else Some vnew
  else None.

(** ... and when it has treated them all *)
Definition adjusted dv j : option V :=
  if decide (minlevel mg <= j <= maxlevel mg) then reinit vnew <$> dv !! j else None.

(** [maxlevel - minlevel + 1] *)
Definition depth : nat := S (N.to_nat (maxlevel mg - minlevel mg)).

Definition defect_present (s : mg_state V) : Prop :=
  forall l, minlevel mg <= l <= maxlevel mg -> is_Some (defect s !! l).

(** What [t[l-1]] holds when [restrict_and_add] is called in the pass
    for [l]: zero, or for [l = level] and with an edge-down matrix what
    [edge_down->vmult] made of the zeroed vector and [solution[level]]. *)
Definition cascade_start (level l : N) z u : V :=
  if l =? level then
    match edge_down mg with
    | Some e => vmult e level (assign_zero z) u
    | None => assign_zero z
    end
  else assign_zero z.

(** What the pass for [l] leaves in [t[l-1]], and subtracts from
    [defect[l-1]] *)
Definition cascade_value (level l : N) z u tl : V :=
  restrict_and_add (transfer mg) l (cascade_start level l z u) tl.

(** two states with the same defect and solution vectors, and the same
    scratch vectors on the levels in [P] *)
Definition agree P s1 s2 : Prop :=
  defect s1 = defect s2 /\ solution s1 = solution s2 /\
  forall l, P l -> t s1 !! l = t s2 !! l.

Definition agreed P (x : loc) : Prop := fst x = Scratch -> P (snd x).

Definition rel_cmd (R R' : mg_state V -> mg_state V -> Prop) (c1 c2 : cmd V) : Prop :=
  forall s1 s2 s1' s2', R s1 s2 -> c1 s1 = Ok s1' -> c2 s2 = Ok s2' -> R' s1' s2'.

End Vocabulary.

Section LinearVocabulary.

Context {K V : Type} `{VectorOps V} `{ScalarOps K V}.
Implicit Types (s : mg_state V) (c : K).

(** [op (level, c dst, c src) = c op (level, dst, src)]; every operator
    that is linear in the pair of its vector arguments satisfies it. *)
Definition homogeneous (op : N -> V -> V -> V) : Prop :=
  forall c l d x, op l (scal c d) (scal c x) = scal c (op l d x).

Record linear_operators (mg : Multigrid V) : Prop := {
  lin_matrix : homogeneous (vmult (matrix mg));
  lin_coarse : homogeneous (coarse_apply (coarse mg));
  lin_prolongate : homogeneous (prolongate (transfer mg));
  lin_restrict : homogeneous (restrict_and_add (transfer mg));
  lin_pre_smooth : homogeneous (smooth (pre_smooth mg));
  lin_post_smooth : homogeneous (smooth (post_smooth mg));
  lin_edge_down : forall e, edge_down mg = Some e -> homogeneous (vmult e);
  lin_edge_up : forall e, edge_up mg = Some e -> homogeneous (Tvmult e)
}.

(** all level vectors multiplied by [c] *)
Definition scale c s : mg_state V :=
  {| defect := scal c <$> defect s;
     solution := scal c <$> solution s;
     t := scal c <$> t s;
     trace := trace s |}.

(** the defect vectors multiplied by [c] *)
Definition scale_defects c s : mg_state V :=
  {| defect := scal c <$> defect s;
     solution := solution s;
     t := t s;
     trace := trace s |}.

Definition commutes c (cm : cmd V) : Prop :=
  forall s, cm (scale c s) = rmap (scale c) (cm s).

End LinearVocabulary.

(** ** A concrete hierarchy on integer vectors *)

Module Example.
Import ZVec.

Fixpoint pair_sums (v : list Z) : list Z :=
  match v with
  | x :: y :: v' => (x + y)%Z :: pair_sums v'
  | _ => []
  end.

Fixpoint duplicate (v : list Z) : list Z :=
  match v with
  | [] => []
  | x :: v' => x :: x :: duplicate v'
  end.

(** [A = 2 I] on every level *)
Definition two_I : MGMatrixBase (list Z) :=
  {| vmult := fun _ _ src => List.map (Z.mul 2) src;
     Tvmult := fun _ _ src => List.map (Z.mul 2) src |}.

(** one Richardson step [u += rhs - A u] *)
Definition richardson : MGSmootherBase (list Z) :=
  {| smooth := fun _ u rhs => vadd u (vsub rhs (List.map (Z.mul 2) u)) |}.

Definition copy_solver : MGCoarseGridBase (list Z) :=
  {| coarse_apply := fun _ _ src => src |}.

Definition pairwise : MGTransferBase (list Z) :=
  {| prolongate := fun _ _ src => duplicate src;
     restrict_and_add := fun _ dst src => vadd dst (pair_sums src) |}.

(** an interface coupling between a level and the next coarser one *)
Definition coupling : MGMatrixBase (list Z) :=
  {| vmult := fun _ _ src => pair_sums src;
     Tvmult := fun _ _ src => duplicate src |}.

Definition hierarchy (lo hi : N) (down up : option (MGMatrixBase (list Z)))
  : Multigrid (list Z) :=
  {| minlevel := lo; maxlevel := hi;
     matrix := two_I; coarse := copy_solver; transfer := pairwise;
     pre_smooth := richardson; post_smooth := richardson;
     edge_down := down; edge_up := up |}.

Definition defects : gmap N (list Z) :=
  <[0 := [1]%Z]> (<[1 := [1; 2]%Z]> (<[2 := [1; 2; 3; 4]%Z]> ∅)).

Definition start : mg_state (list Z) :=
  {| defect := defects; solution := ∅; t := ∅; trace := [] |}.

Definition zeros : gmap N (list Z) :=
  <[0 := [0]%Z]> (<[1 := [0; 0]%Z]> (<[2 := [0; 0; 0; 0]%Z]> ∅)).

(** sized as [vcycle] sizes them *)
Definition sized : mg_state (list Z) :=
  {| defect := defects; solution := zeros; t := zeros; trace := [] |}.

Definition plain : Multigrid (list Z) := hierarchy 0 2 None None.
Definition edged : Multigrid (list Z) := set_edge_matrices plain coupling coupling.

(** a step at level 2, after [t = A*solution[level]] *)
Definition before_cascade : mg_state (list Z) :=
  {| defect := defects;
     solution := <[2 := [1; 2; 3; 4]%Z]> zeros;
     t := <[2 := [2; 4; 6; 8]%Z]> zeros;
     trace := [EvPreSmooth 2; EvMatrixVmult 2] |}.

End Example.

(** ** The vocabulary of the further properties *)

(** the calls a step makes once: smoothers, level matrix, coarse solver
    and prolongation, as opposed to the restrictions and the edge
    matrices *)
Definition per_level_call (e : event) : bool :=
  match e with
  | EvRestrictAndAdd _ | EvEdgeDownVmult _ | EvEdgeUpTvmult _ => false
  | _ => true
  end.

(** the calls that do not go through an edge matrix *)
Definition interior_call (e : event) : bool :=
  match e with
  | EvEdgeDownVmult _ | EvEdgeUpTvmult _ => false
  | _ => true
  end.

(** the levels of the calls [transfer->restrict_and_add] and
    [edge_down->vmult] in a log, in order *)
Definition restrict_levels (tr : list event) : list N :=
  omap (fun e => match e with EvRestrictAndAdd l => Some l | _ => None end) tr.

Definition edge_down_levels (tr : list event) : list N :=
  omap (fun e => match e with EvEdgeDownVmult l => Some l | _ => None end) tr.

(** the calls on the way down and on the way up, for a list of levels *)
Definition descent_calls (ls : list N) : list event :=
  flat_map (fun l => [EvPreSmooth l; EvMatrixVmult l]) ls.

Definition ascent_calls (ls : list N) : list event :=
  flat_map (fun l => [EvProlongate l; EvPostSmooth l]) ls.

(** the calls of a step [k] levels above [lo] that do not go through an
    edge matrix *)
Fixpoint interior_events (lo : N) (k : nat) (level : N) : list event :=
  match k with
  | O => [EvCoarse level]
  | S k' =>
      [EvPreSmooth level; EvMatrixVmult level] ++
      (EvRestrictAndAdd <$> down_from (N.to_nat (level - lo)) level) ++
      interior_events lo k' (level - 1) ++
      [EvProlongate level; EvPostSmooth level]
  end.

Section StepVocabulary.

Context {V : Type} `{VectorOps V}.
Variable mg : Multigrid V.

(** the levels restricted from in the loop of a step at [level] *)
Definition cascade_levels (level : N) : list N :=
  down_from (N.to_nat (level - minlevel mg)) level.

(** the coarse-grid correction of a step at [level]: [solution[level-1]]
    prolongated into the zeroed [t[level]] *)
Definition correction (level : N) (a uc : V) : V :=
  prolongate (transfer mg) level (assign_zero a) uc.

(** [defect[level]] when [post_smooth] is called: decreased by the
    product of the edge-up matrix, if there is one *)
Definition edge_up_defect (level : N) (d p uc : V) : V :=
  match edge_up mg with
  | Some e => vsub d (Tvmult e level p uc)
  | None => d
  end.

(** two states with the same vectors in the three level objects *)
Definition same_vectors (s1 s2 : mg_state V) : Prop :=
  agree (fun _ => True) s1 s2.

End StepVocabulary.

(** Modelled from the spec: the [VECTOR] class is not part of the
    sources.  [operator= (0.)], [operator+=] and [operator-=] keep the
    shape of the vector they assign to, and [reinit] gives the shape of
    its argument. *)
Class ShapeLaws (V : Type) `{VectorOps V} : Prop := {
  vsize_assign_zero : forall v : V, vsize (assign_zero v) = vsize v;
  vsize_vadd : forall a b : V, vsize (vadd a b) = vsize a;
  vsize_vsub : forall a b : V, vsize (vsub a b) = vsize a;
  vsize_of_reinit : forall d m : V, vsize (reinit d m) = vsize m
}.

Section ShapeVocabulary.

Context {V : Type} `{VectorOps V}.
Implicit Types (s : mg_state V).

(** an operator that writes into [dst] without resizing it *)
Definition shape_preserving (op : N -> V -> V -> V) : Prop :=
  forall l d x, vsize (op l d x) = vsize d.

Record shape_respecting (mg : Multigrid V) : Prop := {
  shp_matrix : shape_preserving (vmult (matrix mg));
  shp_coarse : shape_preserving (coarse_apply (coarse mg));
  shp_prolongate : shape_preserving (prolongate (transfer mg));
  shp_restrict : shape_preserving (restrict_and_add (transfer mg));
  shp_pre_smooth : shape_preserving (smooth (pre_smooth mg));
  shp_post_smooth : shape_preserving (smooth (post_smooth mg));
  shp_edge_down : forall e, edge_down mg = Some e -> shape_preserving (vmult e);
  shp_edge_up : forall e, edge_up mg = Some e -> shape_preserving (Tvmult e)
}.

(** every vector of [s'] has the shape it has in [s] *)
Definition same_shapes s s' : Prop :=
  forall r l, vsize <$> store r s' !! l = vsize <$> store r s !! l.

Definition keeps_shapes (c : cmd V) : Prop :=
  forall s s', c s = Ok s' -> same_shapes s s'.

End ShapeVocabulary.

(** ** The example with operators that write into their destination *)

Module ExampleShapes.
Import ZVec Example.

(** [dst = v] element by element, for the elements that [dst] has *)
Definition into (d v : list Z) : list Z := zip_with_left (fun _ y => y) d v.

Definition fit (op : N -> list Z -> list Z -> list Z) : N -> list Z -> list Z -> list Z :=
  fun l d x => into d (op l d x).

Definition fit_matrix (m : MGMatrixBase (list Z)) : MGMatrixBase (list Z) :=
  {| vmult := fit (vmult m); Tvmult := fit (Tvmult m) |}.

(** the operators of a hierarchy, writing into their destination *)
Definition fitted (mg : Multigrid (list Z)) : Multigrid (list Z) :=
  {| minlevel := minlevel mg; maxlevel := maxlevel mg;
     matrix := fit_matrix (matrix mg);
     coarse := {| coarse_apply := fit (coarse_apply (coarse mg)) |};
     transfer := {| prolongate := fit (prolongate (transfer mg));
                    restrict_and_add := fit (restrict_and_add (transfer mg)) |};
     pre_smooth := {| smooth := fit (smooth (pre_smooth mg)) |};
     post_smooth := {| smooth := fit (smooth (post_smooth mg)) |};
     edge_down := fit_matrix <$> edge_down mg;
     edge_up := fit_matrix <$> edge_up mg |}.

End ExampleShapes.

(** ** Sums of states *)

Section AdditiveVocabulary.

Context {V : Type} `{VectorOps V}.
Implicit Types (s : mg_state V).

(** [f] maps the sum of two vectors of the same shape to the sum of
    their images, and vectors of the same shape to vectors of the same
    shape *)
Definition additive1 (f : V -> V) : Prop :=
  forall d1 d2, vsize d1 = vsize d2 ->
    f (vadd d1 d2) = vadd (f d1) (f d2) /\ vsize (f d1) = vsize (f d2).

Definition additive2 (f : V -> V -> V) : Prop :=
  forall d1 d2 x1 x2, vsize d1 = vsize d2 -> vsize x1 = vsize x2 ->
    f (vadd d1 d2) (vadd x1 x2) = vadd (f d1 x1) (f d2 x2) /\
    vsize (f d1 x1) = vsize (f d2 x2).

Definition additive (op : N -> V -> V -> V) : Prop := forall l, additive2 (op l).

Record additive_operators (mg : Multigrid V) : Prop := {
  add_matrix : additive (vmult (matrix mg));
  add_coarse : additive (coarse_apply (coarse mg));
  add_prolongate : additive (prolongate (transfer mg));
  add_restrict : additive (restrict_and_add (transfer mg));
  add_pre_smooth : additive (smooth (pre_smooth mg));
  add_post_smooth : additive (smooth (post_smooth mg));
  add_edge_down : forall e, edge_down mg = Some e -> additive (vmult e);
  add_edge_up : forall e, edge_up mg = Some e -> additive (Tvmult e)
}.

(** the sum of two level vectors, where both levels exist *)
Definition vadd_opt (a b : option V) : option V :=
  match a, b with
  | Some x, Some y => Some (vadd x y)
  | _, _ => None
  end.

(** [s12] holds the sums of the vectors of [s1] and [s2] *)
Definition is_sum s1 s2 s12 : Prop :=
  forall r l, store r s12 !! l = vadd_opt (store r s1 !! l) (store r s2 !! l).

(** the vectors of [s1] and [s2] have the same shapes *)
Definition same_shape s1 s2 : Prop :=
  forall r l a b, store r s1 !! l = Some a -> store r s2 !! l = Some b -> vsize a = vsize b.

Definition sum_rel s1 s2 s12 : Prop := is_sum s1 s2 s12 /\ same_shape s1 s2.

(** [c] run on a sum returns the sum of what it returns on the parts *)
Definition additive_cmd (c : cmd V) : Prop :=
  forall s1 s2 s12 s1' s2',
    sum_rel s1 s2 s12 -> c s1 = Ok s1' -> c s2 = Ok s2' ->
    exists s12', c s12 = Ok s12' /\ sum_rel s1' s2' s12'.

End AdditiveVocabulary.

(** Exact arithmetic on vectors of the same shape: setting to zero,
    [reinit], [+=] and [-=] are additive. *)
Class AdditiveLaws (V : Type) `{VectorOps V} : Prop := {
  assign_zero_additive : additive1 assign_zero;
  reinit_additive : forall d : V, additive1 (reinit d);
  vadd_additive : additive2 vadd;
  vsub_additive : additive2 vsub
}.

(** ** A second set of defect vectors, and the sums *)

Module ExampleSum.
Import ZVec Example.

Definition defects2 : gmap N (list Z) :=
  <[0 := [5]%Z]> (<[1 := [3; 4]%Z]> (<[2 := [1; 1; 1; 1]%Z]> ∅)).

Definition defects12 : gmap N (list Z) :=
  <[0 := [6]%Z]> (<[1 := [4; 6]%Z]> (<[2 := [2; 3; 4; 5]%Z]> ∅)).

Definition start2 : mg_state (list Z) :=
  {| defect := defects2; solution := ∅; t := ∅; trace := [] |}.

Definition start12 : mg_state (list Z) :=
  {| defect := defects12; solution := ∅; t := ∅; trace := [] |}.

End ExampleSum.

(** ** A hierarchy at the largest level index *)

Module ExampleTop.
Import ZVec Example.

(** the single level [UINT_MAX], with the operators of the example *)
Definition top : Multigrid (list Z) := hierarchy UINT_MAX UINT_MAX None None.

(** its defect vector in place, [solution] and [t] empty *)
Definition start : mg_state (list Z) :=
  {| defect := <[UINT_MAX := [1; 2]%Z]> ∅; solution := ∅; t := ∅; trace := [] |}.

(** ... and the level objects as [vcycle] would size them *)
Definition sized : mg_state (list Z) :=
  {| defect := <[UINT_MAX := [1; 2]%Z]> ∅;
     solution := <[UINT_MAX := [0; 0]%Z]> ∅;
     t := <[UINT_MAX := [0; 0]%Z]> ∅;
     trace := [] |}.

End ExampleTop.

(** * Lemmas and theorems *)

(** a side condition on the levels of an example, by computation *)
Ltac example_side :=
  vm_compute; first [reflexivity | lia | discriminate | intros ?; discriminate].

(** a lookup at a level [l <= 2] of an example state, level by level *)
Ltac by_levels l :=
  let Hc := fresh "Hc" in
  assert (Hc : l = 0 \/ l = 1 \/ l = 2) by lia;
  destruct Hc as [-> | [-> | ->]]; vm_compute; eauto.

(** ** The laws hold for vectors of integers *)

Module ZVecLaws.
Import ZVec.

Lemma zeros_shape (m m' : list Z) :
  length m = length m' -> List.map (fun _ => 0%Z) m = List.map (fun _ => 0%Z) m'.
Proof.
  revert m'. induction m as [|x m IH]; intros [|y m'] Hm; simpl in *; try done.
  f_equal. apply IH. lia.
Qed.

Lemma sub_zeros (a b : list Z) : zip_with_left Z.sub a (List.map (fun _ => 0%Z) b) = a.
Proof.
  revert b. induction a as [|x a IH]; intros [|y b]; simpl; try done.
  rewrite IH, Z.sub_0_r. done.
Qed.

#[global] Instance laws : VectorLaws (list Z).
Proof.
  split; simpl.
  - intros _ m. apply length_map.
  - intros _ m. rewrite List.map_map. done.
  - intros _ _ m m'. apply zeros_shape.
  - intros v. rewrite List.map_map. done.
  - apply sub_zeros.
Qed.

Lemma zip_with_left_scal (f : Z -> Z -> Z) (c : Z) (a b : list Z) :
  (forall x y, f (c * x) (c * y) = c * f x y)%Z ->
  zip_with_left f (List.map (Z.mul c) a) (List.map (Z.mul c) b) =
  List.map (Z.mul c) (zip_with_left f a b).
Proof.
  intros Hf. revert b. induction a as [|x a IH]; intros [|y b]; simpl; try done.
  rewrite IH, Hf. done.
Qed.

#[global] Instance scalar_laws : ScalarLaws Z (list Z).
Proof.
  split; simpl.
  - intros c _ m. rewrite !List.map_map. apply List.map_ext. intros; lia.
  - intros c v. rewrite !List.map_map. apply List.map_ext. intros; lia.
  - intros c a b. apply zip_with_left_scal. intros; lia.
  - intros c a b. apply zip_with_left_scal. intros; lia.
Qed.

End ZVecLaws.

(** ** Facts about commands *)

Section CommandFacts.

Context {V : Type} `{VectorOps V}.
Implicit Types (s : mg_state V) (c : cmd V) (r : role) (l : N) (m : gmap N V).

Lemma mg_state_eq s s' :
  defect s = defect s' -> solution s = solution s' -> t s = t s' ->
  trace s = trace s' -> s = s'.
Proof. destruct s, s'; simpl; congruence. Qed.

Lemma store_set_store r r' m s :
  store r' (set_store r m s) = if decide (r = r') then m else store r' s.
Proof. destruct r, r'; reflexivity. Qed.

Lemma trace_set_store r m s : trace (set_store r m s) = trace s.
Proof. destruct r; reflexivity. Qed.

Lemma store_log r e s : store r (log e s) = store r s.
Proof. destruct r; reflexivity. Qed.

Lemma trace_log e s : trace (log e s) = trace s ++ [e].
Proof. reflexivity. Qed.

Lemma store_write r l dst v s :
  store r (write dst v s) !! l =
  if decide (dst = (r, l)) then Some v else store r s !! l.
Proof.
  destruct dst as [r0 l0]. unfold write. simpl. rewrite store_set_store.
  destruct (decide (r0 = r)) as [->|Hr].
  - rewrite lookup_insert. destruct (decide (l0 = l)) as [->|Hl].
    + rewrite decide_True; done.
    + rewrite decide_False; [done | congruence].
  - rewrite decide_False; [done | congruence].
Qed.

Lemma trace_write dst v s : trace (write dst v s) = trace s.
Proof. apply trace_set_store. Qed.

Lemma seq_cmd_ok c1 c2 s s1 : c1 s = Ok s1 -> seq_cmd c1 c2 s = c2 s1.
Proof. unfold seq_cmd. intros ->. reflexivity. Qed.

Lemma seq_cmd_ok_inv c1 c2 s s' :
  seq_cmd c1 c2 s = Ok s' -> exists s1, c1 s = Ok s1 /\ c2 s1 = Ok s'.
Proof.
  unfold seq_cmd. destruct (c1 s) as [s1| |]; simpl; [eauto | done | done].
Qed.

Lemma update_ok f dst s d :
  store (fst dst) s !! snd dst = Some d ->
  update f dst s = Ok (write dst (f d) s).
Proof. unfold update, level_at. intros ->. reflexivity. Qed.

Lemma update_ok_inv f dst s s' :
  update f dst s = Ok s' ->
  exists d, store (fst dst) s !! snd dst = Some d /\ s' = write dst (f d) s.
Proof.
  unfold update, level_at.
  destruct (store (fst dst) s !! snd dst) as [d|]; simpl; [|done].
  intros [= <-]. eauto.
Qed.

Lemma update2_ok f dst src s d x :
  store (fst dst) s !! snd dst = Some d ->
  store (fst src) s !! snd src = Some x ->
  update2 f dst src s = Ok (write dst (f d x) s).
Proof. unfold update2, level_at. intros -> ->. reflexivity. Qed.

Lemma update2_ok_inv f dst src s s' :
  update2 f dst src s = Ok s' ->
  exists d x, store (fst dst) s !! snd dst = Some d /\
              store (fst src) s !! snd src = Some x /\
              s' = write dst (f d x) s.
Proof.
  unfold update2, level_at.
  destruct (store (fst dst) s !! snd dst) as [d|]; simpl; [|done].
  destruct (store (fst src) s !! snd src) as [x|]; simpl; [|done].
  intros [= <-]. eauto.
Qed.

Lemma call_ok e op dst src s d x :
  store (fst dst) s !! snd dst = Some d ->
  store (fst src) s !! snd src = Some x ->
  call e op dst src s = Ok (log e (write dst (op d x) s)).
Proof. intros Hd Hx. unfold call. rewrite (update2_ok _ _ _ _ _ _ Hd Hx). reflexivity. Qed.

Lemma call_ok_inv e op dst src s s' :
  call e op dst src s = Ok s' ->
  exists d x, store (fst dst) s !! snd dst = Some d /\
              store (fst src) s !! snd src = Some x /\
              s' = log e (write dst (op d x) s).
Proof.
  unfold call. destruct (update2 op dst src s) as [s1| |] eqn:E; simpl; [|done|done].
  intros [= <-]. apply update2_ok_inv in E as (d & x & Hd & Hx & ->). eauto.
Qed.

Lemma update_lookup f dst s s' d :
  update f dst s = Ok s' -> store (fst dst) s !! snd dst = Some d ->
  store (fst dst) s' !! snd dst = Some (f d).
Proof.
  intros (d' & Hd' & ->)%update_ok_inv Hd. rewrite store_write.
  rewrite decide_True by (by destruct dst). congruence.
Qed.

Lemma update2_lookup f dst src s s' d x :
  update2 f dst src s = Ok s' ->
  store (fst dst) s !! snd dst = Some d -> store (fst src) s !! snd src = Some x ->
  store (fst dst) s' !! snd dst = Some (f d x).
Proof.
  intros (d' & x' & Hd' & Hx' & ->)%update2_ok_inv Hd Hx. rewrite store_write.
  rewrite decide_True by (by destruct dst). congruence.
Qed.

Lemma call_lookup e op dst src s s' d x :
  call e op dst src s = Ok s' ->
  store (fst dst) s !! snd dst = Some d -> store (fst src) s !! snd src = Some x ->
  store (fst dst) s' !! snd dst = Some (op d x).
Proof.
  intros (d' & x' & Hd' & Hx' & ->)%call_ok_inv Hd Hx. rewrite store_log, store_write.
  rewrite decide_True by (by destruct dst). congruence.
Qed.

(** *** What a command may change *)

Lemma effect_write W dst d v s :
  W dst -> store (fst dst) s !! snd dst = Some d -> effect W [] s (write dst v s).
Proof.
  intros HW Hd. split.
  - intros r l Hn. rewrite store_write, decide_False; [done|]. intros ->. done.
  - intros r l. rewrite store_write. case_decide as E; [subst dst | tauto].
    simpl in Hd. rewrite Hd. split; eauto.
  - rewrite trace_write, app_nil_r. done.
Qed.

Lemma effect_log W e es s s' : effect W es s s' -> effect W (es ++ [e]) s (log e s').
Proof.
  intros [Hf Hd Ht]. split.
  - intros r l Hn. rewrite store_log. auto.
  - intros r l. rewrite store_log. auto.
  - rewrite trace_log, Ht, app_assoc. done.
Qed.

Lemma effect_trans W e1 e2 s s1 s2 :
  effect W e1 s s1 -> effect W e2 s1 s2 -> effect W (e1 ++ e2) s s2.
Proof.
  intros [Hf1 Hd1 Ht1] [Hf2 Hd2 Ht2]. split.
  - intros r l Hn. rewrite Hf2, Hf1; auto.
  - intros r l. rewrite Hd2, Hd1. done.
  - rewrite Ht2, Ht1, app_assoc. done.
Qed.

Lemma effect_weaken (W W' : loc -> Prop) es s s' :
  (forall x, W x -> W' x) -> effect W es s s' -> effect W' es s s'.
Proof.
  intros HW [Hf Hd Ht].
  split; [intros r l Hn; apply Hf; auto | exact Hd | exact Ht].
Qed.

Lemma has_effect_skip W : has_effect (V := V) skip W [].
Proof.
  intros s s' [= <-]. split; [done | done | symmetry; apply app_nil_r].
Qed.

Lemma has_effect_update W (f : V -> V) dst : W dst -> has_effect (update f dst) W [].
Proof.
  intros HW s s' (d & Hd & ->)%update_ok_inv. eapply effect_write; eauto.
Qed.

Lemma has_effect_update2 W (f : V -> V -> V) dst src :
  W dst -> has_effect (update2 f dst src) W [].
Proof.
  intros HW s s' (d & x & Hd & _ & ->)%update2_ok_inv. eapply effect_write; eauto.
Qed.

Lemma has_effect_call W e (op : V -> V -> V) dst src :
  W dst -> has_effect (call e op dst src) W [e].
Proof.
  intros HW s s' (d & x & Hd & _ & ->)%call_ok_inv.
  apply (effect_log W e []). eapply effect_write; eauto.
Qed.

Lemma has_effect_seq W c1 c2 e1 e2 :
  has_effect c1 W e1 -> has_effect c2 W e2 -> has_effect (seq_cmd c1 c2) W (e1 ++ e2).
Proof.
  intros H1 H2 s s' (s1 & E1 & E2)%seq_cmd_ok_inv.
  eapply effect_trans; eauto.
Qed.

Lemma has_effect_weaken (W W' : loc -> Prop) c es :
  (forall x, W x -> W' x) -> has_effect c W es -> has_effect c W' es.
Proof. intros HW Hc s s' E. eapply effect_weaken; eauto. Qed.

(** *** Levels that must exist for a command to return *)

Lemma present_effect W es lo hi s s' :
  effect W es s s' -> present lo hi s -> present lo hi s'.
Proof. intros [_ Hd _] Hp r l Hl. apply Hd. auto. Qed.

Lemma update_present f r l lo hi s :
  present lo hi s -> lo <= l <= hi -> exists s', update f (r, l) s = Ok s'.
Proof.
  intros Hp Hl. destruct (Hp r l Hl) as [d Hd].
  eexists. apply (update_ok f (r, l) s d Hd).
Qed.

Lemma update2_present f r l r' l' lo hi s :
  present lo hi s -> lo <= l <= hi -> lo <= l' <= hi ->
  exists s', update2 f (r, l) (r', l') s = Ok s'.
Proof.
  intros Hp Hl Hl'. destruct (Hp r l Hl) as [d Hd]. destruct (Hp r' l' Hl') as [x Hx].
  eexists. apply (update2_ok f (r, l) (r', l') s d x Hd Hx).
Qed.

Lemma call_present e op r l r' l' lo hi s :
  present lo hi s -> lo <= l <= hi -> lo <= l' <= hi ->
  exists s', call e op (r, l) (r', l') s = Ok s'.
Proof.
  intros Hp Hl Hl'. destruct (Hp r l Hl) as [d Hd]. destruct (Hp r' l' Hl') as [x Hx].
  eexists. apply (call_ok e op (r, l) (r', l') s d x Hd Hx).
Qed.

End CommandFacts.

(** ** What one step of the V-cycle calls, writes and needs *)

Section EngineFacts.

Context {V : Type} `{VectorOps V}.
Variable mg : Multigrid V.
Implicit Types (s : mg_state V) (c : cmd V) (r : role) (l level : N).

Lemma u_pred_pos l : 0 < l -> u_pred l = l - 1.
Proof. unfold u_pred. intros Hl. destruct (N.eqb_spec l 0); [lia | done]. Qed.

Lemma loop_events_done level l0 : l0 <= minlevel mg -> loop_events mg level l0 = [].
Proof.
  intros Hl. unfold loop_events.
  replace (N.to_nat (l0 - minlevel mg)) with O by lia. reflexivity.
Qed.

Lemma loop_events_step level l0 :
  minlevel mg < l0 ->
  loop_events mg level l0 = body_events mg level l0 ++ loop_events mg level (l0 - 1).
Proof.
  intros Hl. unfold loop_events.
  replace (N.to_nat (l0 - minlevel mg)) with (S (N.to_nat (l0 - 1 - minlevel mg))) by lia.
  reflexivity.
Qed.

(** *** Footprints *)

Lemma restrict_body_effect level l :
  minlevel mg < l ->
  has_effect (restrict_body mg level l) (just_below l) (body_events mg level l).
Proof.
  intros Hl. unfold restrict_body, body_events.
  assert (Hp : u_pred l = l - 1) by (apply u_pred_pos; lia).
  replace (edge_down_events mg level l ++ [EvRestrictAndAdd l])
    with ([] ++ edge_down_events mg level l ++ [EvRestrictAndAdd l] ++ []) by reflexivity.
  apply has_effect_seq; [|apply has_effect_seq; [|apply has_effect_seq]].
  - apply has_effect_update. rewrite Hp. split; simpl; done.
  - unfold edge_down_events. destruct (N.eqb_spec l level) as [->|]; [|apply has_effect_skip].
    destruct (edge_down mg); [|apply has_effect_skip].
    apply has_effect_call. rewrite Hp. split; simpl; done.
  - apply has_effect_call. rewrite Hp. split; simpl; done.
  - apply has_effect_update2. rewrite Hp. split; simpl; done.
Qed.

Lemma just_below_below l l0 x : minlevel mg < l <= l0 -> just_below l x -> below mg l0 x.
Proof. unfold just_below, below. intros Hl [Hr Hx]. split; [done | lia]. Qed.

Lemma below_mono l1 l2 x : l1 <= l2 -> below mg l1 x -> below mg l2 x.
Proof. unfold below. intros Hl [Hr Hx]. split; [done | lia]. Qed.

Lemma restrict_loop_effect n level l0 :
  has_effect (restrict_loop mg n level l0) (below mg l0) (loop_events mg level l0).
Proof.
  revert l0. induction n as [|n IH]; intros l0; simpl;
    destruct (N.ltb_spec (minlevel mg) l0) as [Hl|Hl].
  - intros s s' [=].
  - rewrite loop_events_done by done. apply has_effect_skip.
  - rewrite loop_events_step by done. apply has_effect_seq.
    + eapply has_effect_weaken; [|apply restrict_body_effect; done].
      intros x. apply just_below_below. lia.
    + rewrite u_pred_pos by lia.
      eapply has_effect_weaken; [|apply IH]. intros x. apply below_mono. lia.
  - rewrite loop_events_done by done. apply has_effect_skip.
Qed.

Lemma below_touched level x : below mg level x -> touched mg level x.
Proof.
  unfold below, touched. destruct x as [r l]; simpl. intros [Hr Hl].
  split; [lia|]. intros _. left. lia.
Qed.

Lemma touched_mono l1 l2 x : l1 <= l2 -> touched mg l1 x -> touched mg l2 x.
Proof.
  unfold touched. intros Hl [Hx Hd]. split; [lia|].
  intros Hr. destruct (Hd Hr) as [?|?]; [left; lia | right; done].
Qed.

Lemma descend_effect level :
  minlevel mg <= level ->
  has_effect (descend mg level) (touched mg level)
    ([EvPreSmooth level; EvMatrixVmult level] ++ loop_events mg level level).
Proof.
  intros Hl. unfold descend.
  change ([EvPreSmooth level; EvMatrixVmult level] ++ loop_events mg level level)
    with ([EvPreSmooth level] ++ [EvMatrixVmult level] ++ loop_events mg level level).
  apply has_effect_seq; [|apply has_effect_seq].
  - apply has_effect_call. split; simpl; [lia | done].
  - apply has_effect_call. split; simpl; [lia | done].
  - eapply has_effect_weaken; [|apply restrict_loop_effect]. apply below_touched.
Qed.

Lemma ascend_effect level :
  minlevel mg < level ->
  has_effect (ascend mg level) (touched mg level)
    ([EvProlongate level] ++ edge_up_events mg level ++ [EvPostSmooth level]).
Proof.
  intros Hl. unfold ascend, edge_up_events.
  replace ([EvProlongate level] ++
           match edge_up mg with Some _ => [EvEdgeUpTvmult level] | None => [] end ++
           [EvPostSmooth level])
    with ([] ++ [EvProlongate level] ++ [] ++
          match edge_up mg with Some _ => [EvEdgeUpTvmult level] ++ [] | None => [] end ++
          [EvPostSmooth level]) by (destruct (edge_up mg); reflexivity).
  apply has_effect_seq; [|apply has_effect_seq; [|apply has_effect_seq; [|apply has_effect_seq]]].
  - apply has_effect_update. split; simpl; [lia | done].
  - apply has_effect_call. split; simpl; [lia | done].
  - apply has_effect_update2. split; simpl; [lia | done].
  - destruct (edge_up mg) as [e|] eqn:E; [|apply has_effect_skip].
    apply has_effect_seq.
    + apply has_effect_call. split; simpl; [lia | done].
    + apply has_effect_update2. split; simpl; [lia|]. intros _. right. split; [eauto | lia].
  - apply has_effect_call. split; simpl; [lia | done].
Qed.

Lemma level_mgstep_effect fuel level :
  minlevel mg <= level ->
  has_effect (level_mgstep mg fuel level) (touched mg level)
    (mgstep_events mg (N.to_nat (level - minlevel mg)) level).
Proof.
  revert level. induction fuel as [|fuel IH]; intros level Hl; simpl.
  - intros s s' [=].
  - destruct (N.eqb_spec level (minlevel mg)) as [->|Hne].
    + replace (N.to_nat (minlevel mg - minlevel mg)) with O by lia. simpl.
      change [EvCoarse (minlevel mg)] with ([] ++ [EvCoarse (minlevel mg)]).
      apply has_effect_seq.
      * apply has_effect_update. split; simpl; [lia | done].
      * apply has_effect_call. split; simpl; [lia | done].
    + replace (N.to_nat (level - minlevel mg))
        with (S (N.to_nat (level - 1 - minlevel mg))) by lia.
      rewrite u_pred_pos by lia.
      change (mgstep_events mg (S (N.to_nat (level - 1 - minlevel mg))) level)
        with ([] ++ ([EvPreSmooth level; EvMatrixVmult level] ++ loop_events mg level level) ++
              mgstep_events mg (N.to_nat (level - 1 - minlevel mg)) (level - 1) ++
              [EvProlongate level] ++ edge_up_events mg level ++ [EvPostSmooth level]).
      apply has_effect_seq; [|apply has_effect_seq; [|apply has_effect_seq]].
      * apply has_effect_update. split; simpl; [lia | done].
      * apply descend_effect. lia.
      * eapply has_effect_weaken; [|apply IH; lia]. intros x. apply touched_mono. lia.
      * apply ascend_effect. lia.
Qed.

End EngineFacts.

(** ** Commands that return *)

Section Progress.

Context {V : Type} `{VectorOps V}.
Implicit Types (s : mg_state V) (c : cmd V) (r : role) (l level : N).

Lemma runs_skip lo hi : runs (V := V) lo hi skip.
Proof. intros s Hp. exists s. done. Qed.

Lemma runs_seq lo hi c1 c2 : runs lo hi c1 -> runs lo hi c2 -> runs lo hi (seq_cmd c1 c2).
Proof.
  intros H1 H2 s Hp. destruct (H1 s Hp) as (s1 & E1 & Hp1).
  destruct (H2 s1 Hp1) as (s2 & E2 & Hp2).
  exists s2. split; [|done]. rewrite (seq_cmd_ok _ _ _ _ E1). done.
Qed.

Lemma runs_of_effect lo hi c :
  (forall s, present lo hi s -> exists s', c s = Ok s') ->
  has_effect c (fun _ => True) [] \/ (exists e, has_effect c (fun _ => True) [e]) ->
  runs lo hi c.
Proof.
  intros Hc He s Hp. destruct (Hc s Hp) as [s' E]. exists s'. split; [done|].
  destruct He as [He|[e He]]; eapply present_effect; eauto.
Qed.

Lemma runs_update lo hi (f : V -> V) r l : lo <= l <= hi -> runs lo hi (update f (r, l)).
Proof.
  intros Hl. apply runs_of_effect.
  - intros s Hp. eapply update_present; eauto.
  - left. apply has_effect_update. done.
Qed.

Lemma runs_update2 lo hi (f : V -> V -> V) r l r' l' :
  lo <= l <= hi -> lo <= l' <= hi -> runs lo hi (update2 f (r, l) (r', l')).
Proof.
  intros Hl Hl'. apply runs_of_effect.
  - intros s Hp. eapply update2_present; eauto.
  - left. apply has_effect_update2. done.
Qed.

Lemma runs_call lo hi e (op : V -> V -> V) r l r' l' :
  lo <= l <= hi -> lo <= l' <= hi -> runs lo hi (call e op (r, l) (r', l')).
Proof.
  intros Hl Hl'. apply runs_of_effect.
  - intros s Hp. eapply call_present; eauto.
  - right. exists e. apply has_effect_call. done.
Qed.

Variable mg : Multigrid V.

Lemma restrict_body_runs lo hi level l :
  lo <= minlevel mg -> minlevel mg < l -> l <= level <= hi ->
  runs lo hi (restrict_body mg level l).
Proof.
  intros Hlo Hl Hhi. unfold restrict_body.
  assert (Hp : u_pred l = l - 1) by (apply u_pred_pos; lia).
  apply runs_seq; [|apply runs_seq; [|apply runs_seq]].
  - apply runs_update. lia.
  - destruct (N.eqb_spec l level) as [->|]; [|apply runs_skip].
    destruct (edge_down mg); [|apply runs_skip]. apply runs_call; lia.
  - apply runs_call; lia.
  - apply runs_update2; lia.
Qed.

Lemma restrict_loop_runs lo hi n level l0 :
  lo <= minlevel mg -> l0 <= level <= hi ->
  (N.to_nat (l0 - minlevel mg) <= n)%nat ->
  runs lo hi (restrict_loop mg n level l0).
Proof.
  intros Hlo. revert l0. induction n as [|n IH]; intros l0 Hhi Hn; simpl;
    destruct (N.ltb_spec (minlevel mg) l0) as [Hl|Hl]; try apply runs_skip.
  - lia.
  - apply runs_seq.
    + apply restrict_body_runs; lia.
    + rewrite u_pred_pos by lia. apply IH; lia.
Qed.

Lemma descend_runs lo hi level :
  lo <= minlevel mg <= level -> level <= hi -> runs lo hi (descend mg level).
Proof.
  intros Hlo Hhi. unfold descend. apply runs_seq; [|apply runs_seq].
  - apply runs_call; lia.
  - apply runs_call; lia.
  - apply restrict_loop_runs; lia.
Qed.

Lemma ascend_runs lo hi level :
  lo <= minlevel mg < level -> level <= hi -> runs lo hi (ascend mg level).
Proof.
  intros Hlo Hhi. unfold ascend.
  assert (Hp : u_pred level = level - 1) by (apply u_pred_pos; lia).
  apply runs_seq; [|apply runs_seq; [|apply runs_seq; [|apply runs_seq]]].
  - apply runs_update. lia.
  - apply runs_call; lia.
  - apply runs_update2; lia.
  - destruct (edge_up mg); [|apply runs_skip].
    apply runs_seq; [apply runs_call | apply runs_update2]; lia.
  - apply runs_call; lia.
Qed.

(** With the levels in place, [level_mgstep] returns as soon as the
    recursion budget exceeds the distance to [minlevel] ... *)
Lemma level_mgstep_runs lo hi fuel level :
  lo <= minlevel mg <= level -> level <= hi ->
  (N.to_nat (level - minlevel mg) < fuel)%nat ->
  runs lo hi (level_mgstep mg fuel level).
Proof.
  revert level. induction fuel as [|fuel IH]; intros level Hlo Hhi Hf; [lia|]. simpl.
  apply runs_seq; [apply runs_update; lia|].
  destruct (N.eqb_spec level (minlevel mg)) as [->|Hne].
  - apply runs_call; lia.
  - apply runs_seq; [|apply runs_seq].
    + apply descend_runs; lia.
    + rewrite u_pred_pos by lia. apply IH; lia.
    + apply ascend_runs; lia.
Qed.

(** ... and not before. *)
Lemma level_mgstep_out_of_fuel lo hi fuel level s :
  lo <= minlevel mg <= level -> level <= hi ->
  (fuel <= N.to_nat (level - minlevel mg))%nat ->
  present lo hi s ->
  level_mgstep mg fuel level s = OutOfFuel.
Proof.
  revert level s. induction fuel as [|fuel IH]; intros level s Hlo Hhi Hf Hp; [done|]. simpl.
  destruct (runs_update lo hi assign_zero Solution level ltac:(lia) s Hp) as (s1 & E1 & Hp1).
  rewrite (seq_cmd_ok _ _ _ _ E1).
  destruct (N.eqb_spec level (minlevel mg)) as [->|Hne]; [lia|].
  destruct (descend_runs lo hi level ltac:(lia) ltac:(lia) s1 Hp1) as (s2 & E2 & Hp2).
  rewrite (seq_cmd_ok _ _ _ _ E2). unfold seq_cmd at 1.
  rewrite u_pred_pos by lia. rewrite (IH (level - 1) s2); [done | lia | lia | lia | done].
Qed.

End Progress.

(** ** The first part of [vcycle] *)

Section Resize.

Context {V : Type} `{VectorOps V}.
Variable mg : Multigrid V.
Implicit Types (s : mg_state V) (l j : N) (dv : gmap N V).

Lemma elem_of_level_range lo hi l : l ∈ level_range lo hi <-> lo <= l <= hi.
Proof.
  unfold level_range. rewrite list_elem_of_fmap. split.
  - intros (i & -> & Hi). apply elem_of_seq in Hi. lia.
  - intros Hl. exists (N.to_nat (l - lo)). split; [lia|]. apply elem_of_seq. lia.
Qed.

Lemma lookup_fresh (v : V) (ls : list N) l :
  (list_to_map ((fun l => (l, v)) <$> ls) : gmap N V) !! l =
  if decide (l ∈ ls) then Some v else None.
Proof.
  induction ls as [|a ls IH].
  - rewrite fmap_nil, list_to_map_nil, lookup_empty.
    rewrite decide_False; [done|]. apply not_elem_of_nil.
  - rewrite fmap_cons, list_to_map_cons, lookup_insert.
    destruct (decide (a = l)) as [->|Hne].
    + rewrite decide_True; [done|]. apply list_elem_of_here.
    + rewrite IH. destruct (decide (l ∈ ls)) as [Hin|Hin].
      * rewrite decide_True; [done|]. by apply list_elem_of_further.
      * rewrite decide_False; [done|]. intros [?|?]%elem_of_cons; congruence.
Qed.

Lemma lookup_resize lo hi (m : gmap N V) l :
  resize lo hi = Ok m ->
  m !! l = if decide (lo <= l <= hi) then Some vnew else None.
Proof.
  unfold resize. destruct (N.ltb_spec hi lo) as [Hlt|Hle]; [done|]. intros [= <-].
  rewrite lookup_fresh.
  destruct (decide (l ∈ level_range lo hi)) as [Hin|Hin];
    rewrite elem_of_level_range in Hin.
  - rewrite decide_True; done.
  - rewrite decide_False; done.
Qed.

Lemma adjusted_upto_all dv j : adjusted_upto mg dv (maxlevel mg + 1) j = adjusted mg dv j.
Proof.
  unfold adjusted_upto, adjusted. case_decide; [|done]. rewrite decide_True; [done | lia].
Qed.

Lemma u_succ_lt l : l < UINT_MAX -> u_succ l = l + 1.
Proof. unfold u_succ. intros Hl. destruct (N.eqb_spec l UINT_MAX); [lia | done]. Qed.

Lemma reinit_loop_spec n l s :
  minlevel mg <= l <= maxlevel mg + 1 -> maxlevel mg < UINT_MAX ->
  (N.to_nat (maxlevel mg + 1 - l) <= n)%nat ->
  (forall j, minlevel mg <= j <= maxlevel mg -> is_Some (defect s !! j)) ->
  (forall j, solution s !! j = adjusted_upto mg (defect s) l j) ->
  (forall j, t s !! j = adjusted_upto mg (defect s) l j) ->
  exists s', reinit_loop mg n l s = Ok s' /\
    defect s' = defect s /\ trace s' = trace s /\
    (forall j, solution s' !! j = adjusted mg (defect s) j) /\
    (forall j, t s' !! j = adjusted mg (defect s) j).
Proof.
  intros Hl Hmax. revert l s Hl.
  induction n as [|n IH]; intros l s Hl Hn Hd Hsol Ht; simpl;
    destruct (N.leb_spec l (maxlevel mg)) as [Hle|Hgt]; try lia.
  - exists s. replace l with (maxlevel mg + 1) in * by lia.
    repeat split; try done; intros j; rewrite <- adjusted_upto_all; auto.
  - destruct (Hd l ltac:(lia)) as [d Hdl].
    assert (Hsl : solution s !! l = Some vnew).
    { rewrite Hsol. unfold adjusted_upto.
      rewrite decide_True by lia. rewrite decide_False by lia. done. }
    assert (Htl : t s !! l = Some vnew).
    { rewrite Ht. unfold adjusted_upto.
      rewrite decide_True by lia. rewrite decide_False by lia. done. }
    set (s2 := write (Scratch, l) (reinit vnew d) (write (Solution, l) (reinit vnew d) s)).
    assert (Hbody : reinit_body l s = Ok s2).
    { unfold reinit_body.
      rewrite (seq_cmd_ok _ _ _ _ (update2_ok reinit (Solution, l) (Defect, l) s _ _ Hsl Hdl)).
      apply (update2_ok reinit (Scratch, l) (Defect, l)
               (write (Solution, l) (reinit vnew d) s) vnew d Htl Hdl). }
    rewrite (seq_cmd_ok _ _ _ _ Hbody), u_succ_lt by lia.
    assert (Hstep : forall j, adjusted_upto mg (defect s) (l + 1) j =
                              if decide (l = j) then Some (reinit vnew d)
                              else adjusted_upto mg (defect s) l j).
    { intros j. unfold adjusted_upto. destruct (decide (l = j)) as [<-|Hne].
      - rewrite decide_True by lia. rewrite decide_True by lia. rewrite Hdl. done.
      - case_decide; [|done]. destruct (decide (j < l)).
        + rewrite decide_True by lia. done.
        + rewrite decide_False by lia. done. }
    destruct (IH (l + 1) s2) as (s' & E & Hd' & Htr' & Hsol' & Ht'); try lia; try done.
    + intros j. rewrite Hstep. unfold s2, write; simpl.
      rewrite lookup_insert. case_decide; [done | apply Hsol].
    + intros j. rewrite Hstep. unfold s2, write; simpl.
      rewrite lookup_insert. case_decide; [done | apply Ht].
    + exists s'. done.
  - exists s. replace l with (maxlevel mg + 1) in * by lia.
    repeat split; try done; intros j; rewrite <- adjusted_upto_all; auto.
Qed.

Lemma vcycle_resize_spec s :
  minlevel mg <= maxlevel mg -> maxlevel mg < UINT_MAX ->
  (forall j, minlevel mg <= j <= maxlevel mg -> is_Some (defect s !! j)) ->
  exists s', vcycle_resize mg s = Ok s' /\
    defect s' = defect s /\ trace s' = trace s /\
    (forall j, solution s' !! j = adjusted mg (defect s) j) /\
    (forall j, t s' !! j = adjusted mg (defect s) j).
Proof.
  intros Hle Hmax Hd. unfold vcycle_resize, seq_cmd, resize_store.
  destruct (resize (minlevel mg) (maxlevel mg)) as [m| |] eqn:E;
    [|unfold resize in E; destruct (N.ltb_spec (maxlevel mg) (minlevel mg)); [lia | done]..].
  simpl.
  assert (Hm : forall j, m !! j = adjusted_upto mg (defect s) (minlevel mg) j).
  { intros j. rewrite (lookup_resize _ _ _ j E). unfold adjusted_upto.
    case_decide; [|done]. rewrite decide_False by lia. done. }
  apply (reinit_loop_spec _ (minlevel mg)
           {| defect := defect s; solution := m; t := m; trace := trace s |});
    simpl; try done; lia.
Qed.

Lemma adjusted_present s' dv :
  (forall j, minlevel mg <= j <= maxlevel mg -> is_Some (dv !! j)) ->
  defect s' = dv ->
  (forall j, solution s' !! j = adjusted mg dv j) ->
  (forall j, t s' !! j = adjusted mg dv j) ->
  present (minlevel mg) (maxlevel mg) s'.
Proof.
  intros Hd Hd' Hsol Ht r l Hl.
  assert (Ha : is_Some (adjusted mg dv l)).
  { unfold adjusted. rewrite decide_True by done.
    destruct (Hd l Hl) as [d ->]. simpl. eauto. }
  destruct r; simpl; [rewrite Hd'; auto | rewrite Hsol; done | rewrite Ht; done].
Qed.

End Resize.

(** ** Properties of one V-cycle *)

Section SingleLevel.

Context {V : Type} `{VectorOps V}.
Variable mg : Multigrid V.

(** C1. On a hierarchy with a single level ([minlevel = maxlevel]),
    [vcycle] returns with [solution[maxlevel]] equal to what the coarse
    solver makes of the zeroed, freshly sized solution vector and
    [defect[maxlevel]]; the only operator call of the cycle is that
    call of the coarse solver: no smoother, matrix, transfer or edge
    operator is invoked.  ([maxlevel] is below the largest
    [unsigned int], so that the loop of the driver ends.) *)
Theorem single_level_vcycle (fuel : nat) (s : mg_state V) (d : V) :
  minlevel mg = maxlevel mg ->
  maxlevel mg < UINT_MAX ->
  defect s !! maxlevel mg = Some d ->
  exists s',
    vcycle mg (S fuel) s = Ok s' /\
    solution s' !! maxlevel mg =
      Some (coarse_apply (coarse mg) (maxlevel mg) (assign_zero (reinit vnew d)) d) /\
    defect s' = defect s /\
    trace s' = trace s ++ [EvCoarse (maxlevel mg)].
Proof.
  intros Heq Hmax Hd.
  destruct (vcycle_resize_spec mg s) as (s1 & E1 & Hd1 & Htr1 & Hsol1 & _);
    [lia | done | |].
  { intros j Hj. replace j with (maxlevel mg) by lia. eauto. }
  assert (Hs : store (fst (Solution, maxlevel mg)) s1 !! snd (Solution, maxlevel mg)
               = Some (reinit vnew d)).
  { simpl. rewrite Hsol1. unfold adjusted. rewrite decide_True by lia. rewrite Hd. done. }
  unfold vcycle. rewrite (seq_cmd_ok _ _ _ _ E1). simpl level_mgstep.
  rewrite (seq_cmd_ok _ _ _ _ (update_ok assign_zero _ s1 _ Hs)).
  rewrite Heq, N.eqb_refl.
  eexists. split; [apply call_ok; simpl|].
  - apply lookup_insert_eq.
  - rewrite Hd1. exact Hd.
  - simpl. rewrite lookup_insert_eq, Hd1, Htr1. done.
Qed.

End SingleLevel.

(** The single-level theorem on the hierarchy [1 .. 1] of the example. *)
Lemma single_level_vcycle_witness :
  exists s',
    vcycle (Example.hierarchy 1 1 None None) 1 Example.start = Ok s' /\
    solution s' !! 1 = Some [1; 2]%Z /\
    defect s' = Example.defects /\
    trace s' = [EvCoarse 1].
Proof.
  apply (single_level_vcycle (Example.hierarchy 1 1 None None) 0 Example.start [1; 2]%Z);
    reflexivity.
Defined.

Section Termination.

Context {V : Type} `{VectorOps V}.
Variable mg : Multigrid V.

Lemma vcycle_resize_runs s :
  minlevel mg <= maxlevel mg -> maxlevel mg < UINT_MAX -> defect_present mg s ->
  exists s1, vcycle_resize mg s = Ok s1 /\ defect s1 = defect s /\
             trace s1 = trace s /\ present (minlevel mg) (maxlevel mg) s1.
Proof.
  intros Hle Hmax Hd.
  destruct (vcycle_resize_spec mg s Hle Hmax Hd) as (s1 & E1 & Hd1 & Htr1 & Hsol1 & Ht1).
  exists s1. repeat split; try done.
  eapply adjusted_present; eauto.
Qed.

(** C8, as the code has it.  With [minlevel <= maxlevel] the recursion
    of the V-cycle is bounded: above [minlevel] a step calls itself
    once, at the level decreased by one, and at [minlevel] it calls only
    the coarse solver.  Started at [maxlevel] on level objects that have
    the levels [minlevel .. maxlevel], it returns exactly when the
    budget for nested calls reaches [maxlevel - minlevel + 1], the depth
    of the recursion, whatever the operators compute.  [vcycle] does so
    for every pre-populated defect only when [maxlevel] is below the
    largest [unsigned int]: at [maxlevel = UINT_MAX] the loop of the
    driver does not end. *)
Theorem vcycle_terminates :
  minlevel mg <= maxlevel mg ->
  (forall fuel level s, minlevel mg < level ->
     level_mgstep mg (S fuel) level s =
     seq_cmd (update assign_zero (Solution, level))
       (seq_cmd (descend mg level)
          (seq_cmd (level_mgstep mg fuel (level - 1)) (ascend mg level))) s) /\
  (forall fuel s,
     level_mgstep mg (S fuel) (minlevel mg) s =
     seq_cmd (update assign_zero (Solution, minlevel mg))
       (call (EvCoarse (minlevel mg)) (coarse_apply (coarse mg) (minlevel mg))
          (Solution, minlevel mg) (Defect, minlevel mg)) s) /\
  (forall s, present (minlevel mg) (maxlevel mg) s ->
     (forall fuel, (depth mg <= fuel)%nat ->
        exists s', level_mgstep mg fuel (maxlevel mg) s = Ok s') /\
     (forall fuel, (fuel < depth mg)%nat ->
        level_mgstep mg fuel (maxlevel mg) s = OutOfFuel)) /\
  (forall s, maxlevel mg < UINT_MAX -> defect_present mg s ->
     (forall fuel, (depth mg <= fuel)%nat -> exists s', vcycle mg fuel s = Ok s') /\
     (forall fuel, (fuel < depth mg)%nat -> vcycle mg fuel s = OutOfFuel)).
Proof.
  intros Hle. unfold depth.
  assert (Hstep : forall s, present (minlevel mg) (maxlevel mg) s ->
     (forall fuel, (S (N.to_nat (maxlevel mg - minlevel mg)) <= fuel)%nat ->
        exists s', level_mgstep mg fuel (maxlevel mg) s = Ok s') /\
     (forall fuel, (fuel < S (N.to_nat (maxlevel mg - minlevel mg)))%nat ->
        level_mgstep mg fuel (maxlevel mg) s = OutOfFuel)).
  { intros s Hp. split; intros fuel Hf.
    - destruct (level_mgstep_runs mg (minlevel mg) (maxlevel mg) fuel (maxlevel mg))
        with (s := s) as (s' & E & _); [lia | lia | lia | done | eauto].
    - apply (level_mgstep_out_of_fuel mg (minlevel mg) (maxlevel mg)); [lia | lia | lia | done]. }
  split; [|split; [|split]].
  - intros fuel level s Hl. simpl.
    destruct (N.eqb_spec level (minlevel mg)); [lia|].
    rewrite u_pred_pos by lia. reflexivity.
  - intros fuel s. simpl. rewrite N.eqb_refl. reflexivity.
  - exact Hstep.
  - intros s Hmax Hd.
    destruct (vcycle_resize_runs s Hle Hmax Hd) as (s1 & E1 & _ & _ & Hp1).
    unfold vcycle. split; intros fuel Hf; rewrite (seq_cmd_ok _ _ _ _ E1);
      apply (Hstep s1 Hp1); done.
Qed.

(** C10. Without an edge-up matrix a whole cycle leaves the defect
    vector of the finest level as it was: the defect vectors it
    writes are those of the levels [minlevel .. maxlevel - 1]. *)
Theorem finest_defect_unchanged (fuel : nat) (s : mg_state V) :
  edge_up mg = None ->
  minlevel mg <= maxlevel mg ->
  maxlevel mg < UINT_MAX ->
  defect_present mg s ->
  (depth mg <= fuel)%nat ->
  exists s',
    vcycle mg fuel s = Ok s' /\
    defect s' !! maxlevel mg = defect s !! maxlevel mg /\
    (forall l, ~ (minlevel mg <= l < maxlevel mg) -> defect s' !! l = defect s !! l).
Proof.
  intros Hup Hle Hmax Hd Hf.
  destruct (vcycle_resize_runs s Hle Hmax Hd) as (s1 & E1 & Hd1 & _ & Hp1).
  destruct (level_mgstep_runs mg (minlevel mg) (maxlevel mg) fuel (maxlevel mg))
    with (s := s1) as (s' & E & _); [lia | lia | unfold depth in Hf; lia | done |].
  assert (Hfr : forall l, ~ (minlevel mg <= l < maxlevel mg) ->
                          defect s' !! l = defect s !! l).
  { intros l Hl. rewrite <- Hd1.
    apply (eff_frame _ _ _ _ (level_mgstep_effect mg fuel (maxlevel mg) Hle s1 s' E) Defect l).
    unfold touched; simpl. rewrite Hup. intros [Hr Hw].
    destruct (Hw eq_refl) as [?|[Hs _]]; [lia | destruct Hs as [? ?]; discriminate]. }
  exists s'. split; [|split; [|done]].
  - unfold vcycle. rewrite (seq_cmd_ok _ _ _ _ E1). done.
  - apply Hfr. lia.
Qed.

End Termination.

(** The hierarchy [0 .. 2] of the example has depth three. *)
Lemma vcycle_terminates_witness :
  (exists s', vcycle (Example.hierarchy 0 2 None None) 3 Example.start = Ok s') /\
  vcycle (Example.hierarchy 0 2 None None) 2 Example.start = OutOfFuel.
Proof.
  assert (Hd : defect_present (Example.hierarchy 0 2 None None) Example.start)
    by (intros l Hl; simpl in Hl; by_levels l).
  destruct (vcycle_terminates (Example.hierarchy 0 2 None None)) as (_ & _ & _ & Hv);
    [example_side|].
  destruct (Hv Example.start) as [Hok Hout]; [reflexivity | exact Hd |].
  split; [apply Hok | apply Hout]; example_side.
Defined.

(** C8, as stated, fails at the largest level index.  On the single
    level [UINT_MAX], with its defect vector in place, the recursion
    alone returns on sized level objects, but [vcycle] does not, whatever
    the budget: after the pass for [UINT_MAX], [++level] wraps around to
    zero, [level<=maxlevel] still holds, and the next pass indexes
    [solution[0]], outside the range. *)
Lemma vcycle_stuck_at_uint_max_example :
  minlevel ExampleTop.top <= maxlevel ExampleTop.top /\
  defect_present ExampleTop.top ExampleTop.start /\
  (exists s', level_mgstep ExampleTop.top 1 (maxlevel ExampleTop.top) ExampleTop.sized = Ok s') /\
  (forall fuel, vcycle ExampleTop.top fuel ExampleTop.start = Fatal) /\
  ~ (exists fuel s', vcycle ExampleTop.top fuel ExampleTop.start = Ok s').
Proof.
  assert (Hstuck : forall fuel, vcycle ExampleTop.top fuel ExampleTop.start = Fatal).
  { intros fuel. unfold vcycle, seq_cmd.
    assert (E : vcycle_resize ExampleTop.top ExampleTop.start = Fatal)
      by (vm_compute; reflexivity).
    rewrite E. reflexivity. }
  split; [example_side|]. split; [|split; [|split; [exact Hstuck|]]].
  - intros l Hl. simpl in Hl. replace l with UINT_MAX by lia. vm_compute. eauto.
  - eexists. vm_compute. reflexivity.
  - intros (fuel & s' & E). rewrite Hstuck in E. discriminate.
Qed.

Lemma finest_defect_unchanged_witness :
  exists s',
    vcycle (Example.hierarchy 0 2 None None) 3 Example.start = Ok s' /\
    defect s' !! 2 = Some [1; 2; 3; 4]%Z /\
    (forall l, ~ (0 <= l < 2) -> defect s' !! l = Example.defects !! l).
Proof.
  apply (finest_defect_unchanged (Example.hierarchy 0 2 None None) 3 Example.start).
  - reflexivity.
  - example_side.
  - reflexivity.
  - intros l Hl. simpl in Hl. by_levels l.
  - example_side.
Defined.

(** ** The restriction loop *)

Section Cascade.

Context {V : Type} `{VectorOps V}.
Variable mg : Multigrid V.
Implicit Types (s : mg_state V) (r : role) (l level : N) (z u dl tl : V).

Lemma frame_of_effect (c : cmd V) (W : loc -> Prop) es s s' r l :
  has_effect c W es -> c s = Ok s' -> ~ W (r, l) -> store r s' !! l = store r s !! l.
Proof. intros Hc E Hn. apply (eff_frame _ _ _ _ (Hc s s' E)). done. Qed.

Lemma update_frame f dst s s' r l :
  update f dst s = Ok s' -> dst <> (r, l) -> store r s' !! l = store r s !! l.
Proof.
  intros E Hn. apply (frame_of_effect (update f dst) (eq dst) [] s s' r l); [|done|done].
  by apply has_effect_update.
Qed.

Lemma update2_frame f dst src s s' r l :
  update2 f dst src s = Ok s' -> dst <> (r, l) -> store r s' !! l = store r s !! l.
Proof.
  intros E Hn. apply (frame_of_effect (update2 f dst src) (eq dst) [] s s' r l); [|done|done].
  by apply has_effect_update2.
Qed.

Lemma call_frame e op dst src s s' r l :
  call e op dst src s = Ok s' -> dst <> (r, l) -> store r s' !! l = store r s !! l.
Proof.
  intros E Hn. apply (frame_of_effect (call e op dst src) (eq dst) [e] s s' r l); [|done|done].
  by apply has_effect_call.
Qed.

Lemma restrict_body_values level l s s' z u dl tl :
  minlevel mg < l ->
  restrict_body mg level l s = Ok s' ->
  t s !! (l - 1) = Some z -> defect s !! (l - 1) = Some dl ->
  t s !! l = Some tl -> solution s !! level = Some u ->
  t s' !! (l - 1) = Some (cascade_value mg level l z u tl) /\
  defect s' !! (l - 1) = Some (vsub dl (cascade_value mg level l z u tl)).
Proof.
  intros Hl E Hz Hdl Htl Hu. unfold restrict_body in E.
  rewrite (u_pred_pos l) in E by lia.
  apply seq_cmd_ok_inv in E as (sa & Ea & E).
  apply seq_cmd_ok_inv in E as (sb & Eb & E).
  apply seq_cmd_ok_inv in E as (sc & Ec & Ed).
  (* t[l-1] = 0. *)
  pose proof (update_lookup _ (Scratch, l - 1) _ _ _ Ea Hz) as Hza. simpl in Hza.
  assert (Hfa : forall r j, (Scratch, l - 1) <> (r, j) -> store r sa !! j = store r s !! j).
  { intros r j Hn. apply (update_frame _ _ _ _ _ _ Ea Hn). }
  (* the edge-down matrix, for l = level *)
  assert (Hzb : t sb !! (l - 1) = Some (cascade_start mg level l z u)).
  { unfold cascade_start. destruct (N.eqb_spec l level) as [->|Hne].
    - rewrite (u_pred_pos level) in Eb by lia.
      destruct (edge_down mg) as [e|]; [|injection Eb as <-; done].
      apply (call_lookup _ _ (Scratch, level - 1) (Solution, level) _ _ _ _ Eb Hza).
      cbn [fst snd]. rewrite (Hfa Solution level); done.
    - injection Eb as <-. done. }
  assert (Hfb : forall r j, (Scratch, l - 1) <> (r, j) -> store r sb !! j = store r sa !! j).
  { intros r j Hn. destruct (N.eqb_spec l level) as [->|Hne]; [|injection Eb as <-; done].
    rewrite (u_pred_pos level) in Eb by lia.
    destruct (edge_down mg) as [e|]; [|injection Eb as <-; done].
    apply (call_frame _ _ _ _ _ _ _ _ Eb Hn). }
  (* restrict_and_add *)
  assert (Hzc : t sc !! (l - 1) = Some (cascade_value mg level l z u tl)).
  { apply (call_lookup _ _ (Scratch, l - 1) (Scratch, l) _ _ _ _ Ec Hzb).
    cbn [fst snd]. rewrite (Hfb Scratch l), (Hfa Scratch l); [done | |]; intros [= ?]; lia. }
  assert (Hfc : forall r j, (Scratch, l - 1) <> (r, j) -> store r sc !! j = store r sb !! j).
  { intros r j Hn. apply (call_frame _ _ _ _ _ _ _ _ Ec Hn). }
  (* defect[l-1] -= t[l-1] *)
  split.
  - rewrite <- Hzc. apply (update2_frame _ _ _ _ _ Scratch (l - 1) Ed). done.
  - apply (update2_lookup _ (Defect, l - 1) (Scratch, l - 1) _ _ _ _ Ed); [|done].
    cbn [fst snd]. rewrite (Hfc Defect), (Hfb Defect), (Hfa Defect); done.
Qed.

(** The loop started at [l0 <= level]: for every [l] it passes, the
    vector it leaves in [t[l-1]] comes from the initial [t[l-1]] and the
    final [t[l]], and the initial [defect[l-1]] is decreased by it. *)
Lemma restrict_loop_values hi n level l0 s s' u :
  l0 <= level -> level <= hi ->
  present (minlevel mg) hi s ->
  restrict_loop mg n level l0 s = Ok s' ->
  solution s !! level = Some u ->
  forall l, minlevel mg < l <= l0 ->
  exists z dl tl,
    t s !! (l - 1) = Some z /\ defect s !! (l - 1) = Some dl /\
    t s' !! l = Some tl /\
    t s' !! (l - 1) = Some (cascade_value mg level l z u tl) /\
    defect s' !! (l - 1) = Some (vsub dl (cascade_value mg level l z u tl)).
Proof.
  intros Hl0 Hhi. revert l0 s Hl0.
  induction n as [|n IH]; intros l0 s Hl0 Hp E Hu l Hl; simpl in E;
    destruct (N.ltb_spec (minlevel mg) l0) as [Hlt|Hge]; try lia; [done|].
  apply seq_cmd_ok_inv in E as (s1 & E1 & E2).
  rewrite u_pred_pos in E2 by lia.
  assert (Hbody : forall r j, j <> l0 - 1 \/ r = Solution ->
                              store r s1 !! j = store r s !! j).
  { intros r j Hj. apply (frame_of_effect _ _ _ _ _ r j (restrict_body_effect mg level l0 Hlt) E1).
    unfold just_below; simpl. intros [? ?]. destruct Hj; done. }
  assert (Hrest : forall r j, l0 - 1 <= j -> store r s' !! j = store r s1 !! j).
  { intros r j Hj. apply (frame_of_effect _ _ _ _ _ r j (restrict_loop_effect mg n level (l0 - 1)) E2).
    unfold below; simpl. lia. }
  destruct (decide (l = l0)) as [->|Hne].
  - destruct (Hp Scratch (l0 - 1)) as [z Hz]; [lia|].
    destruct (Hp Defect (l0 - 1)) as [dl Hdl]; [lia|].
    destruct (Hp Scratch l0) as [tl Htl]; [lia|].
    cbn [store] in Hz, Hdl, Htl.
    destruct (restrict_body_values level l0 s s1 z u dl tl Hlt E1 Hz Hdl Htl Hu) as [Hz1 Hd1].
    exists z, dl, tl. split; [done|]. split; [done|].
    pose proof (Hrest Scratch l0 ltac:(lia)) as R1.
    pose proof (Hrest Scratch (l0 - 1) ltac:(lia)) as R2.
    pose proof (Hrest Defect (l0 - 1) ltac:(lia)) as R3.
    pose proof (Hbody Scratch l0 ltac:(lia)) as B1.
    cbn [store] in R1, R2, R3, B1.
    rewrite R1, R2, R3, B1. done.
  - destruct (IH (l0 - 1) s1) with (l := l) as (z & dl & tl & Hz & Hdl & Hrest');
      [lia | | done | | lia |].
    + eapply present_effect; [apply (restrict_body_effect mg level l0 Hlt s s1 E1) | done].
    + pose proof (Hbody Solution level ltac:(tauto)) as B. cbn [store] in B. by rewrite B.
    + exists z, dl, tl.
      pose proof (Hbody Scratch (l - 1) ltac:(lia)) as B1.
      pose proof (Hbody Defect (l - 1) ltac:(lia)) as B2.
      cbn [store] in B1, B2. rewrite B1 in Hz. rewrite B2 in Hdl. done.
Qed.

End Cascade.

Section CascadeTheorems.

Context {V : Type} `{VectorOps V}.
Variable mg : Multigrid V.
Implicit Types (s : mg_state V) (l level : N).

Lemma restrict_loop_runs_frame hi level s :
  minlevel mg <= level -> level <= hi ->
  present (minlevel mg) hi s ->
  exists s',
    restrict_loop mg (N.to_nat level) level level s = Ok s' /\
    t s' !! level = t s !! level /\
    solution s' = solution s /\
    trace s' = trace s ++ loop_events mg level level.
Proof.
  intros Hl Hhi Hp.
  destruct (restrict_loop_runs mg (minlevel mg) hi (N.to_nat level) level level)
    with (s := s) as (s' & E & _); [lia | lia | lia | done |].
  pose proof (restrict_loop_effect mg (N.to_nat level) level level s s' E) as [Hf _ Ht].
  exists s'. split; [done|]. split; [|split; [|done]].
  - apply (Hf Scratch level). unfold below; simpl. lia.
  - apply map_eq. intros j. apply (Hf Solution j). unfold below; simpl. tauto.
Qed.

(** C2. The restriction loop of a step at [level > minlevel], run on
    level objects that have the levels [minlevel .. level], returns, and
    for every [l] from [level] down to [minlevel + 1]: [t[l-1]] ends as
    what [restrict_and_add (l, ., t[l])] made of its start value, which
    is the zeroed [t[l-1]], overwritten for [l = level] by
    [edge_down->vmult (level, ., solution[level])] when an edge-down
    matrix is set ([cascade_start]); and [defect[l-1]] ends as its
    initial value minus that vector.  [t[level]] and [solution] are not
    changed, and the calls are made in this order, level by level. *)
Theorem restriction_cascade (hi level : N) (s : mg_state V) (u : V) :
  minlevel mg < level -> level <= hi ->
  present (minlevel mg) hi s ->
  solution s !! level = Some u ->
  exists s',
    restrict_loop mg (N.to_nat level) level level s = Ok s' /\
    (forall l, minlevel mg < l <= level ->
       exists z dl tl,
         t s !! (l - 1) = Some z /\ defect s !! (l - 1) = Some dl /\
         t s' !! l = Some tl /\
         t s' !! (l - 1) =
           Some (restrict_and_add (transfer mg) l (cascade_start mg level l z u) tl) /\
         defect s' !! (l - 1) =
           Some (vsub dl (restrict_and_add (transfer mg) l (cascade_start mg level l z u) tl))) /\
    t s' !! level = t s !! level /\
    solution s' = solution s /\
    trace s' = trace s ++
      flat_map (fun l => edge_down_events mg level l ++ [EvRestrictAndAdd l])
        (down_from (N.to_nat (level - minlevel mg)) level).
Proof.
  intros Hl Hhi Hp Hu.
  destruct (restrict_loop_runs_frame hi level s) as (s' & E & Ht & Hs & Htr); [lia | done | done |].
  exists s'. split; [done|]. split; [|done].
  intros l Hlr.
  apply (restrict_loop_values mg hi (N.to_nat level) level level s s' u); try done; lia.
Qed.

Lemma lower_events level k l0 :
  l0 < level ->
  flat_map (body_events mg level) (down_from k l0) = EvRestrictAndAdd <$> down_from k l0.
Proof.
  revert l0. induction k as [|k IH]; intros l0 Hl; simpl; [done|].
  rewrite IH by lia. unfold body_events, edge_down_events.
  destruct (N.eqb_spec l0 level); [lia | done].
Qed.

Lemma loop_events_top level :
  minlevel mg < level ->
  loop_events mg level level =
  match edge_down mg with Some _ => [EvEdgeDownVmult level] | None => [] end ++
  (EvRestrictAndAdd <$> down_from (N.to_nat (level - minlevel mg)) level).
Proof.
  intros Hl. unfold loop_events.
  replace (N.to_nat (level - minlevel mg)) with (S (N.to_nat (level - 1 - minlevel mg))) by lia.
  simpl. rewrite lower_events by lia.
  unfold body_events, edge_down_events. rewrite N.eqb_refl, <- app_assoc. done.
Qed.

(** C6. In the restriction loop of a step at [level > minlevel] the
    edge-down matrix is applied in the pass for [l = level] only: the
    loop calls it at most once, before the first [restrict_and_add],
    and its product enters [t[level-1]]; in every pass for [l < level]
    the vector restricted into is the zeroed [t[l-1]], whether or not an
    edge-down matrix is set. *)
Theorem edge_down_only_at_top (hi level : N) (s : mg_state V) (u : V) :
  minlevel mg < level -> level <= hi ->
  present (minlevel mg) hi s ->
  solution s !! level = Some u ->
  exists s',
    restrict_loop mg (N.to_nat level) level level s = Ok s' /\
    trace s' = trace s ++
      match edge_down mg with Some _ => [EvEdgeDownVmult level] | None => [] end ++
      (EvRestrictAndAdd <$> down_from (N.to_nat (level - minlevel mg)) level) /\
    (exists z tl,
       t s !! (level - 1) = Some z /\ t s' !! level = Some tl /\
       t s' !! (level - 1) =
         Some (restrict_and_add (transfer mg) level
                 match edge_down mg with
                 | Some e => vmult e level (assign_zero z) u
                 | None => assign_zero z
                 end tl)) /\
    (forall l, minlevel mg < l < level ->
       exists z tl,
         t s !! (l - 1) = Some z /\ t s' !! l = Some tl /\
         t s' !! (l - 1) = Some (restrict_and_add (transfer mg) l (assign_zero z) tl)).
Proof.
  intros Hl Hhi Hp Hu.
  destruct (restrict_loop_runs_frame hi level s) as (s' & E & _ & _ & Htr); [lia | done | done |].
  pose proof (restrict_loop_values mg hi (N.to_nat level) level level s s' u
                ltac:(lia) Hhi Hp E Hu) as Hv.
  exists s'. split; [done|]. split; [|split].
  - rewrite Htr, loop_events_top by done. done.
  - destruct (Hv level ltac:(lia)) as (z & dl & tl & Hz & _ & Htl & Hz' & _).
    exists z, tl. unfold cascade_value, cascade_start in Hz'.
    rewrite N.eqb_refl in Hz'. done.
  - intros l Hlr.
    destruct (Hv l ltac:(lia)) as (z & dl & tl & Hz & _ & Htl & Hz' & _).
    exists z, tl. unfold cascade_value, cascade_start in Hz'.
    destruct (N.eqb_spec l level); [lia | done].
Qed.

End CascadeTheorems.

Lemma before_cascade_present : present 0 2 Example.before_cascade.
Proof. intros r l Hl. destruct r; by_levels l. Qed.

(** The cascade theorems on the step at level 2 of the example, with
    edge matrices. *)
Lemma restriction_cascade_witness :
  let mg := Example.hierarchy 0 2 (Some Example.coupling) (Some Example.coupling) in
  let s := Example.before_cascade in
  exists s',
    restrict_loop mg 2 2 2 s = Ok s' /\
    (forall l, 0 < l <= 2 ->
       exists z dl tl,
         t s !! (l - 1) = Some z /\ defect s !! (l - 1) = Some dl /\
         t s' !! l = Some tl /\
         t s' !! (l - 1) =
           Some (restrict_and_add (transfer mg) l (cascade_start mg 2 l z [1; 2; 3; 4]%Z) tl) /\
         defect s' !! (l - 1) =
           Some (vsub dl (restrict_and_add (transfer mg) l
                            (cascade_start mg 2 l z [1; 2; 3; 4]%Z) tl))) /\
    t s' !! 2 = t s !! 2 /\
    solution s' = solution s /\
    trace s' = trace s ++
      flat_map (fun l => edge_down_events mg 2 l ++ [EvRestrictAndAdd l]) (down_from 2 2).
Proof.
  apply (restriction_cascade
           (Example.hierarchy 0 2 (Some Example.coupling) (Some Example.coupling))
           2 2 Example.before_cascade [1; 2; 3; 4]%Z);
    [example_side | lia | exact before_cascade_present | reflexivity].
Defined.

Lemma edge_down_only_at_top_witness :
  let mg := Example.hierarchy 0 2 (Some Example.coupling) (Some Example.coupling) in
  let s := Example.before_cascade in
  exists s',
    restrict_loop mg 2 2 2 s = Ok s' /\
    trace s' = trace s ++ [EvEdgeDownVmult 2] ++ (EvRestrictAndAdd <$> down_from 2 2) /\
    (exists z tl,
       t s !! (2 - 1) = Some z /\ t s' !! 2 = Some tl /\
       t s' !! (2 - 1) =
         Some (restrict_and_add (transfer mg) 2
                 (vmult Example.coupling 2 (assign_zero z) [1; 2; 3; 4]%Z) tl)) /\
    (forall l, 0 < l < 2 ->
       exists z tl,
         t s !! (l - 1) = Some z /\ t s' !! l = Some tl /\
         t s' !! (l - 1) = Some (restrict_and_add (transfer mg) l (assign_zero z) tl)).
Proof.
  apply (edge_down_only_at_top
           (Example.hierarchy 0 2 (Some Example.coupling) (Some Example.coupling))
           2 2 Example.before_cascade [1; 2; 3; 4]%Z);
    [example_side | lia | exact before_cascade_present | reflexivity].
Defined.

(** ** Calls of the edge-up matrix *)

Section EdgeUp.

Context {V : Type} `{VectorOps V}.
Variable mg : Multigrid V.

Lemma edge_up_levels_app tr1 tr2 :
  edge_up_levels (tr1 ++ tr2) = edge_up_levels tr1 ++ edge_up_levels tr2.
Proof. apply omap_app. Qed.

Lemma edge_up_levels_loop level (ls : list N) :
  edge_up_levels (flat_map (body_events mg level) ls) = [].
Proof.
  induction ls as [|l ls IH]; simpl; [done|].
  rewrite edge_up_levels_app, IH, app_nil_r.
  unfold body_events, edge_down_events.
  destruct (l =? level); [destruct (edge_down mg)|]; reflexivity.
Qed.

Lemma level_range_snoc lo hi :
  lo <= hi + 1 -> level_range lo (hi + 1) = level_range lo hi ++ [hi + 1].
Proof.
  intros Hl. unfold level_range.
  replace (N.to_nat (hi + 1 + 1 - lo)) with (S (N.to_nat (hi + 1 - lo))) by lia.
  rewrite seq_S, fmap_app. simpl. do 2 f_equal. lia.
Qed.

Lemma edge_up_levels_mgstep k lo level :
  level = lo + N.of_nat k ->
  edge_up_levels (mgstep_events mg k level) =
  match edge_up mg with Some _ => level_range (lo + 1) level | None => [] end.
Proof.
  revert level. induction k as [|k IH]; intros level Hl.
  - simpl. unfold level_range. replace (N.to_nat (level + 1 - (lo + 1))) with O by lia.
    by destruct (edge_up mg).
  - cbn [mgstep_events].
    rewrite !edge_up_levels_app. unfold loop_events.
    rewrite edge_up_levels_loop, (IH (level - 1)) by lia.
    unfold edge_up_events. destruct (edge_up mg); [|done].
    replace (level_range (lo + 1) level) with (level_range (lo + 1) (level - 1 + 1))
      by (f_equal; lia).
    rewrite level_range_snoc by lia. simpl.
    do 2 f_equal. lia.
Qed.

(** C3, as the code has it.  With an edge-up matrix, one [vcycle] calls
    [edge_up->Tvmult] once in every step above [minlevel]: for the levels
    [minlevel + 1 .. maxlevel] in this order, [maxlevel - minlevel] calls
    in all; without one it never calls it. *)
Theorem edge_up_once_per_level (fuel : nat) (s : mg_state V) :
  minlevel mg <= maxlevel mg ->
  maxlevel mg < UINT_MAX ->
  defect_present mg s ->
  (depth mg <= fuel)%nat ->
  exists s',
    vcycle mg fuel s = Ok s' /\
    edge_up_levels (trace s') =
      edge_up_levels (trace s) ++
      match edge_up mg with
      | Some _ => level_range (minlevel mg + 1) (maxlevel mg)
      | None => []
      end /\
    length (level_range (minlevel mg + 1) (maxlevel mg)) =
      N.to_nat (maxlevel mg - minlevel mg).
Proof.
  intros Hle Hmax Hd Hf.
  destruct (vcycle_resize_runs mg s Hle Hmax Hd) as (s1 & E1 & _ & Htr1 & Hp1).
  destruct (level_mgstep_runs mg (minlevel mg) (maxlevel mg) fuel (maxlevel mg))
    with (s := s1) as (s' & E & _); [lia | lia | unfold depth in Hf; lia | done |].
  exists s'. split; [|split].
  - unfold vcycle. rewrite (seq_cmd_ok _ _ _ _ E1). done.
  - rewrite (eff_trace _ _ _ _ (level_mgstep_effect mg fuel (maxlevel mg) Hle s1 s' E)).
    rewrite edge_up_levels_app, Htr1. f_equal.
    apply edge_up_levels_mgstep. lia.
  - unfold level_range. rewrite length_fmap, length_seq. lia.
Qed.

End EdgeUp.

Lemma example_defect_present (mg : Multigrid (list Z)) :
  maxlevel mg <= 2 -> defect_present mg Example.start.
Proof. intros Hhi l Hl. by_levels l. Qed.

Lemma edge_up_once_per_level_witness :
  exists s',
    vcycle Example.edged 3 Example.start = Ok s' /\
    edge_up_levels (trace s') = edge_up_levels (trace Example.start) ++ level_range (0 + 1) 2 /\
    length (level_range (0 + 1) 2) = N.to_nat (2 - 0).
Proof.
  apply (edge_up_once_per_level Example.edged 3 Example.start).
  - example_side.
  - reflexivity.
  - apply example_defect_present. example_side.
  - example_side.
Defined.

(** C3, as stated, fails on three levels: the edge-up matrix is applied
    twice in one cycle, the first time at the intermediate level 1. *)
Lemma edge_up_twice_example :
  exists s',
    vcycle Example.edged 3 Example.start = Ok s' /\
    edge_up_levels (trace s') = [1; 2] /\
    ~ (length (edge_up_levels (trace s')) <= 1)%nat.
Proof.
  eexists. split; [vm_compute; reflexivity|].
  split; [vm_compute; reflexivity | vm_compute; lia].
Qed.

(** ** The scratch vector across the recursive call *)

Section ScratchAcrossRecursion.

Context {V : Type} `{VectorOps V}.
Variable mg : Multigrid V.
Implicit Types (s : mg_state V) (l level : N).

Lemma descend_values level s s1 (a x d : V) :
  descend mg level s = Ok s1 ->
  t s !! level = Some a -> solution s !! level = Some x -> defect s !! level = Some d ->
  solution s1 !! level = Some (smooth (pre_smooth mg) level x d) /\
  t s1 !! level =
    Some (vmult (matrix mg) level a (smooth (pre_smooth mg) level x d)).
Proof.
  intros E Ha Hx Hd. unfold descend in E.
  apply seq_cmd_ok_inv in E as (sa & Ea & E).
  apply seq_cmd_ok_inv in E as (sb & Eb & Ec).
  pose proof (call_lookup _ _ (Solution, level) (Defect, level) _ _ _ _ Ea Hx Hd) as Hxa.
  pose proof (call_frame _ _ _ _ _ _ Scratch level Ea ltac:(done)) as Hta.
  cbn [fst snd store] in Hxa, Hta. rewrite Ha in Hta.
  pose proof (call_lookup _ _ (Scratch, level) (Solution, level) _ _ _ _ Eb Hta Hxa) as Htb.
  pose proof (call_frame _ _ _ _ _ _ Solution level Eb ltac:(done)) as Hxb.
  cbn [fst snd store] in Htb, Hxb. rewrite Hxa in Hxb.
  pose proof (frame_of_effect _ _ _ _ _ Solution level
                (restrict_loop_effect mg (N.to_nat level) level level) Ec) as F1.
  pose proof (frame_of_effect _ _ _ _ _ Scratch level
                (restrict_loop_effect mg (N.to_nat level) level level) Ec) as F2.
  cbn [store] in F1, F2. unfold below in F1, F2. simpl in F1, F2.
  rewrite F1 by tauto. rewrite F2 by lia. done.
Qed.

(** C4, as the code has it.  In a step at [level > minlevel] the
    recursive call for [level - 1] writes no vector of a level above
    [level - 1]: when it returns [t[level]] still holds the product
    [A*solution[level]] stored by [matrix->vmult] before the recursion,
    and it is this vector that [t[level] = 0.] then sets to zero. *)
Theorem scratch_kept_by_recursion (hi level : N) (fuel : nat) (s : mg_state V) :
  minlevel mg < level -> level <= hi ->
  present (minlevel mg) hi s ->
  (N.to_nat (level - 1 - minlevel mg) < fuel)%nat ->
  exists s1 s2 s3 a u,
    t s !! level = Some a /\
    descend mg level s = Ok s1 /\
    solution s1 !! level = Some u /\
    t s1 !! level = Some (vmult (matrix mg) level a u) /\
    level_mgstep mg fuel (level - 1) s1 = Ok s2 /\
    (forall r l, level <= l -> store r s2 !! l = store r s1 !! l) /\
    t s2 !! level = Some (vmult (matrix mg) level a u) /\
    update assign_zero (Scratch, level) s2 = Ok s3 /\
    t s3 !! level = Some (assign_zero (vmult (matrix mg) level a u)).
Proof.
  intros Hl Hhi Hp Hf.
  destruct (Hp Scratch level) as [a Ha]; [lia|].
  destruct (Hp Solution level) as [x Hx]; [lia|].
  destruct (Hp Defect level) as [d Hd]; [lia|].
  cbn [store] in Ha, Hx, Hd.
  destruct (descend_runs mg (minlevel mg) hi level ltac:(lia) Hhi s Hp) as (s1 & E1 & Hp1).
  destruct (descend_values level s s1 a x d E1 Ha Hx Hd) as [Hu Ht1].
  destruct (level_mgstep_runs mg (minlevel mg) hi fuel (level - 1))
    with (s := s1) as (s2 & E2 & Hp2); [lia | lia | lia | done |].
  assert (Hfr : forall r l, level <= l -> store r s2 !! l = store r s1 !! l).
  { intros r l Hle.
    apply (frame_of_effect _ _ _ _ _ r l
             (level_mgstep_effect mg fuel (level - 1) ltac:(lia)) E2).
    unfold touched; simpl. lia. }
  assert (Ht2 : t s2 !! level = Some (vmult (matrix mg) level a (smooth (pre_smooth mg) level x d))).
  { rewrite <- Ht1. apply (Hfr Scratch level). lia. }
  exists s1, s2, (write (Scratch, level) (assign_zero (vmult (matrix mg) level a
                    (smooth (pre_smooth mg) level x d))) s2), a,
    (smooth (pre_smooth mg) level x d).
  repeat split; try done.
  - apply (update_ok assign_zero (Scratch, level) s2 _ Ht2).
  - simpl. apply lookup_insert_eq.
Qed.

End ScratchAcrossRecursion.

Lemma sized_present : present 0 2 Example.sized.
Proof. intros r l Hl. destruct r; by_levels l. Qed.

Lemma scratch_kept_by_recursion_witness :
  let mg := Example.edged in
  let s := Example.sized in
  exists s1 s2 s3 a u,
    t s !! 2 = Some a /\
    descend mg 2 s = Ok s1 /\
    solution s1 !! 2 = Some u /\
    t s1 !! 2 = Some (vmult (matrix mg) 2 a u) /\
    level_mgstep mg 2 (2 - 1) s1 = Ok s2 /\
    (forall r l, 2 <= l -> store r s2 !! l = store r s1 !! l) /\
    t s2 !! 2 = Some (vmult (matrix mg) 2 a u) /\
    update assign_zero (Scratch, 2) s2 = Ok s3 /\
    t s3 !! 2 = Some (assign_zero (vmult (matrix mg) 2 a u)).
Proof.
  apply (scratch_kept_by_recursion Example.edged 2 2 2 Example.sized);
    [example_side | lia | exact sized_present | example_side].
Defined.

(** C4, as stated, fails: in the step at level 2 of the example the
    recursive call returns with [t[2]] equal to the product
    [A*solution[2] = (2, 4, 6, 8)] stored before it. *)
Lemma recursion_keeps_scratch_example :
  exists s0 s1 s2 s3,
    update assign_zero (Solution, 2) Example.sized = Ok s0 /\
    descend Example.plain 2 s0 = Ok s1 /\
    level_mgstep Example.plain 2 1 s1 = Ok s2 /\
    ascend Example.plain 2 s2 = Ok s3 /\
    level_mgstep Example.plain 3 2 Example.sized = Ok s3 /\
    solution s1 !! 2 = Some [1; 2; 3; 4]%Z /\
    t s1 !! 2 = Some [2; 4; 6; 8]%Z /\
    t s2 !! 2 = Some [2; 4; 6; 8]%Z.
Proof.
  do 4 eexists. split; [vm_compute; reflexivity|].
  split; [vm_compute; reflexivity|].
  split; [vm_compute; reflexivity|].
  split; [vm_compute; reflexivity|].
  repeat split; vm_compute; reflexivity.
Qed.

(** ** Sizing the level vectors twice *)

Section ResizeTwice.

Context {V : Type} `{VectorLaws V}.
Variable mg : Multigrid V.
Implicit Types (s : mg_state V) (l : N).

(** C9. The first part of [vcycle], which sizes [solution] and [t]
    after the defect vectors, is idempotent: with [minlevel <= maxlevel]
    and the defect vectors in place it returns, run again on its result
    it returns the same state, and so it does, for [solution] and [t],
    on any state whose defect vectors have the same shapes.  On every
    level of the range both vectors are the zero vector of the shape of
    the defect vector. *)
Theorem vcycle_resize_idempotent (s : mg_state V) :
  minlevel mg <= maxlevel mg ->
  maxlevel mg < UINT_MAX ->
  defect_present mg s ->
  exists s1,
    vcycle_resize mg s = Ok s1 /\
    vcycle_resize mg s1 = Ok s1 /\
    (forall l, minlevel mg <= l <= maxlevel mg ->
       exists d,
         defect s !! l = Some d /\
         solution s1 !! l = Some (reinit vnew d) /\
         t s1 !! l = Some (reinit vnew d) /\
         vsize (reinit vnew d) = vsize d /\
         assign_zero (reinit vnew d) = reinit vnew d) /\
    (forall s2,
       (forall l, minlevel mg <= l <= maxlevel mg ->
          exists d d2, defect s !! l = Some d /\ defect s2 !! l = Some d2 /\
                       vsize d2 = vsize d) ->
       exists s2', vcycle_resize mg s2 = Ok s2' /\
                   solution s2' = solution s1 /\ t s2' = t s1).
Proof.
  intros Hle Hmax Hd.
  destruct (vcycle_resize_spec mg s Hle Hmax Hd) as (s1 & E1 & Hd1 & Htr1 & Hsol1 & Ht1).
  exists s1. split; [done|]. split; [|split].
  - destruct (vcycle_resize_spec mg s1 Hle Hmax) as (s1' & E2 & Hd2 & Htr2 & Hsol2 & Ht2).
    { intros l Hl. rewrite Hd1. auto. }
    rewrite E2. f_equal. apply mg_state_eq; try done.
    + apply map_eq. intros j. rewrite Hsol2, Hsol1, Hd1. done.
    + apply map_eq. intros j. rewrite Ht2, Ht1, Hd1. done.
  - intros l Hl. destruct (Hd l Hl) as [d Hdl]. exists d.
    rewrite Hsol1, Ht1. unfold adjusted. rewrite decide_True by done. rewrite Hdl. simpl.
    repeat split; try done.
    + apply vsize_reinit.
    + apply assign_zero_reinit.
  - intros s2 Hshape.
    destruct (vcycle_resize_spec mg s2 Hle Hmax) as (s2' & E2 & Hd2 & Htr2 & Hsol2 & Ht2).
    { intros l Hl. destruct (Hshape l Hl) as (d & d2 & _ & -> & _). eauto. }
    assert (Hadj : forall j, adjusted mg (defect s2) j = adjusted mg (defect s) j).
    { intros j. unfold adjusted. case_decide as Hj; [|done].
      destruct (Hshape j Hj) as (d & d2 & -> & -> & Hsz). simpl. f_equal.
      by apply reinit_shape. }
    exists s2'. split; [done|].
    split; apply map_eq; intros j.
    + rewrite Hsol2, Hsol1. apply Hadj.
    + rewrite Ht2, Ht1. apply Hadj.
Qed.

End ResizeTwice.

Lemma vcycle_resize_idempotent_witness :
  let mg := Example.plain in
  let s := Example.start in
  exists s1,
    vcycle_resize mg s = Ok s1 /\
    vcycle_resize mg s1 = Ok s1 /\
    (forall l, 0 <= l <= 2 ->
       exists d,
         defect s !! l = Some d /\
         solution s1 !! l = Some (reinit vnew d) /\
         t s1 !! l = Some (reinit vnew d) /\
         vsize (reinit vnew d) = vsize d /\
         assign_zero (reinit vnew d) = reinit vnew d) /\
    (forall s2,
       (forall l, 0 <= l <= 2 ->
          exists d d2, defect s !! l = Some d /\ defect s2 !! l = Some d2 /\
                       vsize d2 = vsize d) ->
       exists s2', vcycle_resize mg s2 = Ok s2' /\
                   solution s2' = solution s1 /\ t s2' = t s1).
Proof.
  apply (vcycle_resize_idempotent Example.plain Example.start).
  - example_side.
  - reflexivity.
  - apply example_defect_present. example_side.
Defined.

(** ** Null edge matrices and zero edge matrices *)

Section NullEdges.

Context {V : Type} `{VectorLaws V}.
Variable mg : Multigrid V.
Implicit Types (s : mg_state V) (l level : N) (P : N -> Prop).

Local Abbreviation mg0 := (with_edges mg None None).
Local Abbreviation mgz := (with_edges mg (Some zero_matrix) (Some zero_matrix)).

Lemma rel_seq R R1 R2 (a1 a2 b1 b2 : cmd V) :
  rel_cmd R R1 a1 a2 -> rel_cmd R1 R2 b1 b2 ->
  rel_cmd R R2 (seq_cmd a1 b1) (seq_cmd a2 b2).
Proof.
  intros Ha Hb s1 s2 s1' s2' HR (m1 & E1 & E1')%seq_cmd_ok_inv (m2 & E2 & E2')%seq_cmd_ok_inv.
  eauto.
Qed.

Lemma agree_mono P Q s1 s2 : (forall l, Q l -> P l) -> agree P s1 s2 -> agree Q s1 s2.
Proof. intros HQ (Hd & Hs & Ht). repeat split; auto. Qed.

Lemma agree_store P s1 s2 r l :
  agree P s1 s2 -> agreed P (r, l) -> store r s1 !! l = store r s2 !! l.
Proof.
  intros (Hd & Hs & Ht) Hx. destruct r; simpl; [by rewrite Hd | by rewrite Hs | auto].
Qed.

Lemma agree_write P s1 s2 dst v :
  agree P s1 s2 -> agree P (write dst v s1) (write dst v s2).
Proof.
  intros (Hd & Hs & Ht). destruct dst as [[] l]; unfold write, agree; simpl.
  - rewrite Hd. done.
  - rewrite Hs. done.
  - repeat split; try done. intros j Hj.
    rewrite !lookup_insert. case_decide; auto.
Qed.

Lemma agree_log_l P e s1 s2 : agree P s1 s2 -> agree P (log e s1) s2.
Proof. done. Qed.

Lemma agree_log_r P e s1 s2 : agree P s1 s2 -> agree P s1 (log e s2).
Proof. done. Qed.

Lemma rel_update P (f : V -> V) dst :
  agreed P dst -> rel_cmd (agree P) (agree P) (update f dst) (update f dst).
Proof.
  intros Hdst s1 s2 s1' s2' Ha (d1 & Hd1 & ->)%update_ok_inv (d2 & Hd2 & ->)%update_ok_inv.
  destruct dst as [r l]. cbn [fst snd] in *.
  rewrite (agree_store P s1 s2 r l Ha Hdst) in Hd1.
  replace d2 with d1 by congruence. by apply agree_write.
Qed.

Lemma rel_update2 P (f : V -> V -> V) dst src :
  agreed P dst -> agreed P src ->
  rel_cmd (agree P) (agree P) (update2 f dst src) (update2 f dst src).
Proof.
  intros Hdst Hsrc s1 s2 s1' s2' Ha
    (d1 & x1 & Hd1 & Hx1 & ->)%update2_ok_inv (d2 & x2 & Hd2 & Hx2 & ->)%update2_ok_inv.
  destruct dst as [r l], src as [r' l']. cbn [fst snd] in *.
  rewrite (agree_store P s1 s2 r l Ha Hdst) in Hd1.
  rewrite (agree_store P s1 s2 r' l' Ha Hsrc) in Hx1.
  replace d2 with d1 by congruence.
  replace x2 with x1 by congruence. by apply agree_write.
Qed.

Lemma rel_call P e (op : V -> V -> V) dst src :
  agreed P dst -> agreed P src ->
  rel_cmd (agree P) (agree P) (call e op dst src) (call e op dst src).
Proof.
  intros Hdst Hsrc s1 s2 s1' s2' Ha
    (d1 & x1 & Hd1 & Hx1 & ->)%call_ok_inv (d2 & x2 & Hd2 & Hx2 & ->)%call_ok_inv.
  destruct dst as [r l], src as [r' l']. cbn [fst snd] in *.
  rewrite (agree_store P s1 s2 r l Ha Hdst) in Hd1.
  rewrite (agree_store P s1 s2 r' l' Ha Hsrc) in Hx1.
  replace d2 with d1 by congruence.
  replace x2 with x1 by congruence.
  apply agree_log_l, agree_log_r. by apply agree_write.
Qed.

(** setting an element to the value it holds changes no vector *)
Lemma agree_rewrite P s1 s2 r l (v : V) :
  store r s2 !! l = Some v -> agree P s1 s2 -> agree P s1 (write (r, l) v s2).
Proof.
  intros Hv (Hd & Hs & Ht). unfold write; cbn [fst snd].
  rewrite (insert_id _ _ _ Hv). by destruct r.
Qed.

Lemma rel_restrict_body P level l :
  minlevel mg < l -> P (l - 1) -> P l ->
  rel_cmd (agree P) (agree P) (restrict_body mg0 level l) (restrict_body mgz level l).
Proof.
  intros Hl Hp1 Hp. unfold restrict_body. cbn [edge_down with_edges transfer].
  rewrite (u_pred_pos l) by lia.
  intros s1 s2 s1' s2' Ha (a1 & Ea1 & E1)%seq_cmd_ok_inv (a2 & Ea2 & E2)%seq_cmd_ok_inv.
  apply seq_cmd_ok_inv in E1 as (b1 & Eb1 & E1).
  apply seq_cmd_ok_inv in E2 as (b2 & Eb2 & E2).
  assert (Hab : agree P b1 b2).
  { assert (Haa : agree P a1 a2)
      by apply (rel_update P assign_zero (Scratch, l - 1) (fun _ => Hp1) s1 s2 a1 a2 Ha Ea1 Ea2).
    assert (b1 = a1) as -> by (destruct (l =? level); by injection Eb1).
    destruct (N.eqb_spec l level) as [->|Hne]; [|by injection Eb2 as <-].
    rewrite (u_pred_pos level) in Eb2 by lia.
    apply update_ok_inv in Ea2 as (z & Hz & ->).
    apply call_ok_inv in Eb2 as (d & x & Hd & _ & ->). cbn [fst snd vmult zero_matrix] in *.
    rewrite store_write, decide_True in Hd by done. injection Hd as <-.
    rewrite assign_zero_idemp. apply agree_log_r, agree_rewrite; [|done].
    rewrite store_write, decide_True by done. done. }
  revert Hab E1 E2. apply rel_seq with (R1 := agree P).
  - apply rel_call; intros _; assumption.
  - apply rel_update2; [done | intros _; assumption].
Qed.

Lemma rel_restrict_loop P n level l0 :
  (forall l, l <= l0 -> P l) ->
  rel_cmd (agree P) (agree P) (restrict_loop mg0 n level l0) (restrict_loop mgz n level l0).
Proof.
  revert l0. induction n as [|n IH]; intros l0 HP; simpl;
    destruct (N.ltb_spec (minlevel mg) l0) as [Hlt|Hge].
  - intros s1 s2 s1' s2' _ [=].
  - intros s1 s2 s1' s2' Ha [= <-] [= <-]. done.
  - apply rel_seq with (R1 := agree P).
    + apply rel_restrict_body; [done | apply HP; lia | apply HP; lia].
    + rewrite u_pred_pos by lia. apply IH. intros l Hl. apply HP. lia.
  - intros s1 s2 s1' s2' Ha [= <-] [= <-]. done.
Qed.

Lemma rel_descend P level :
  (forall l, l <= level -> P l) ->
  rel_cmd (agree P) (agree P) (descend mg0 level) (descend mgz level).
Proof.
  intros HP. unfold descend. cbn [pre_smooth matrix with_edges].
  apply rel_seq with (R1 := agree P); [|apply rel_seq with (R1 := agree P)].
  - apply rel_call; done.
  - apply rel_call; [intros _; apply HP; simpl; lia | done].
  - by apply rel_restrict_loop.
Qed.

Lemma rel_ascend P level :
  P level ->
  rel_cmd (agree P) (agree (fun l => P l /\ l <> level)) (ascend mg0 level) (ascend mgz level).
Proof.
  intros HP. unfold ascend. cbn [edge_up post_smooth transfer with_edges].
  apply rel_seq with (R1 := agree P); [apply rel_update; intros _; assumption|].
  apply rel_seq with (R1 := agree P); [apply rel_call; [intros _; assumption | done]|].
  apply rel_seq with (R1 := agree P); [apply rel_update2; [done | intros _; assumption]|].
  apply rel_seq with (R1 := agree (fun l => P l /\ l <> level)); [|by apply rel_call].
  intros s1 s2 s1' s2' Ha [= <-] (m & Em & E2)%seq_cmd_ok_inv.
  apply call_ok_inv in Em as (d & x & Hd & _ & ->).
  apply update2_ok_inv in E2 as (dd & y & Hdd & Hy & ->).
  cbn [fst snd Tvmult zero_matrix] in *.
  rewrite store_log, store_write, decide_True in Hy by done. injection Hy as <-.
  rewrite vsub_assign_zero.
  apply (agree_rewrite _ _ _ Defect level dd Hdd).
  destruct Ha as (Had & Has & Hat). repeat split; try done.
  intros l [Hl Hne]. simpl. rewrite lookup_insert_ne by done. auto.
Qed.

Lemma rel_level_mgstep fuel : forall P level,
  minlevel mg <= level -> (forall l, l <= level -> P l) ->
  rel_cmd (agree P) (agree (fun l => P l /\ ~ (minlevel mg < l <= level)))
    (level_mgstep mg0 fuel level) (level_mgstep mgz fuel level).
Proof.
  induction fuel as [|fuel IH]; intros P level Hl HP; simpl.
  - intros s1 s2 s1' s2' _ [=].
  - cbn [minlevel coarse with_edges].
    apply rel_seq with (R1 := agree P); [by apply rel_update|].
    destruct (N.eqb_spec level (minlevel mg)) as [->|Hne].
    + intros s1 s2 s1' s2' Ha E1 E2.
      eapply agree_mono; [|eapply (rel_call P); eauto; done]. tauto.
    + rewrite u_pred_pos by lia.
      apply rel_seq with (R1 := agree P); [by apply rel_descend|].
      eapply rel_seq; [apply (IH P (level - 1)); [lia | intros; apply HP; lia]|].
      intros s1 s2 s1' s2' Ha E1 E2.
      assert (Htop : P level /\ ~ minlevel mg < level <= level - 1)
        by (split; [apply HP; lia | lia]).
      eapply agree_mono;
        [|apply (rel_ascend (fun l => P l /\ ~ minlevel mg < l <= level - 1) level
                   Htop s1 s2 s1' s2' Ha E1 E2)].
      simpl. intros l [Hp Hn]. split; [split; [done | lia] | lia].
Qed.

(** C5, as the code has it.  A cycle run with both edge matrices null
    and a cycle run with both replaced by zero matrices return the same
    defect and solution vectors on every level, and the same scratch
    vectors outside the levels [minlevel + 1 .. maxlevel]. *)
Theorem null_edges_as_zero_edges (fuel : nat) (s : mg_state V) :
  minlevel mg <= maxlevel mg ->
  maxlevel mg < UINT_MAX ->
  defect_present mg s ->
  (depth mg <= fuel)%nat ->
  exists s0 sz,
    vcycle (with_edges mg None None) fuel s = Ok s0 /\
    vcycle (with_edges mg (Some zero_matrix) (Some zero_matrix)) fuel s = Ok sz /\
    defect s0 = defect sz /\
    solution s0 = solution sz /\
    (forall l, ~ (minlevel mg < l <= maxlevel mg) -> t s0 !! l = t sz !! l).
Proof.
  intros Hle Hmax Hd Hf.
  destruct (vcycle_resize_runs mg0 s Hle Hmax Hd) as (s1 & E1 & _ & _ & Hp1).
  destruct (level_mgstep_runs mg0 (minlevel mg) (maxlevel mg) fuel (maxlevel mg))
    with (s := s1) as (s0 & E0 & _); [simpl; lia | lia | unfold depth in Hf; simpl; lia | done |].
  destruct (level_mgstep_runs mgz (minlevel mg) (maxlevel mg) fuel (maxlevel mg))
    with (s := s1) as (sz & Ez & _); [simpl; lia | lia | unfold depth in Hf; simpl; lia | done |].
  exists s0, sz.
  assert (Ha : agree (fun l => True /\ ~ (minlevel mg < l <= maxlevel mg)) s0 sz).
  { apply (rel_level_mgstep fuel (fun _ => True) (maxlevel mg) Hle ltac:(done) s1 s1 s0 sz);
      done. }
  destruct Ha as (Had & Has & Hat).
  split; [|split; [|repeat split; auto]].
  - unfold vcycle. rewrite (seq_cmd_ok _ _ _ _ E1). done.
  - unfold vcycle. change (vcycle_resize mgz) with (vcycle_resize mg0).
    rewrite (seq_cmd_ok _ _ _ _ E1). done.
Qed.

End NullEdges.

Lemma null_edges_as_zero_edges_witness :
  exists s0 sz,
    vcycle (with_edges Example.edged None None) 3 Example.start = Ok s0 /\
    vcycle (with_edges Example.edged (Some zero_matrix) (Some zero_matrix)) 3
      Example.start = Ok sz /\
    defect s0 = defect sz /\
    solution s0 = solution sz /\
    (forall l, ~ (0 < l <= 2) -> t s0 !! l = t sz !! l).
Proof.
  apply (null_edges_as_zero_edges Example.edged 3 Example.start).
  - example_side.
  - reflexivity.
  - apply example_defect_present. example_side.
  - example_side.
Defined.

(** C5, as stated, fails for the scratch vectors: on the example the
    cycle with null edge matrices ends with the prolongated correction
    in [t[2]], the cycle with zero edge matrices with the zero vector. *)
Lemma zero_edges_change_scratch_example :
  exists s0 sz,
    vcycle (Example.hierarchy 0 2 None None) 3 Example.start = Ok s0 /\
    vcycle (Example.hierarchy 0 2 (Some zero_matrix) (Some zero_matrix)) 3
      Example.start = Ok sz /\
    t s0 !! 2 = Some [-15; -15; -15; -15]%Z /\
    t sz !! 2 = Some [0; 0; 0; 0]%Z /\
    t s0 <> t sz.
Proof.
  do 2 eexists. split; [vm_compute; reflexivity|].
  split; [vm_compute; reflexivity|].
  split; [vm_compute; reflexivity|].
  split; [vm_compute; reflexivity|].
  intros Heq. apply (f_equal (fun m => m !! 2)) in Heq. vm_compute in Heq. discriminate.
Qed.

(** ** Linearity of the cycle *)

Section Linearity.

Context {K V : Type} `{ScalarLaws K V}.
Implicit Types (s : mg_state V) (l level : N) (c : K).

Lemma store_scale c r s : store r (scale c s) = scal c <$> store r s.
Proof. by destruct r. Qed.

Lemma scale_write c dst v s :
  scale c (write dst v s) = write dst (scal c v) (scale c s).
Proof.
  destruct dst as [[] l]; unfold write, scale; simpl; by rewrite fmap_insert.
Qed.

Lemma commutes_skip c : commutes (V := V) c skip.
Proof. done. Qed.

Lemma commutes_seq c (c1 c2 : cmd V) :
  commutes c c1 -> commutes c c2 -> commutes c (seq_cmd c1 c2).
Proof.
  intros Hc1 Hc2 s. unfold seq_cmd. rewrite Hc1.
  destruct (c1 s) as [s1| |]; simpl; [apply Hc2 | done | done].
Qed.

Lemma commutes_update c f dst :
  (forall d, f (scal c d) = scal c (f d)) -> commutes c (update f dst).
Proof.
  intros Hf s. unfold update, level_at. rewrite store_scale, lookup_fmap.
  destruct (store (fst dst) s !! snd dst) as [d|]; simpl; [|done].
  rewrite Hf, <- store_scale. apply (f_equal Ok), eq_sym, scale_write.
Qed.

Lemma commutes_update2 c f dst src :
  (forall d x, f (scal c d) (scal c x) = scal c (f d x)) -> commutes c (update2 f dst src).
Proof.
  intros Hf s. unfold update2, level_at. rewrite !store_scale, !lookup_fmap.
  destruct (store (fst dst) s !! snd dst) as [d|]; simpl; [|done].
  destruct (store (fst src) s !! snd src) as [x|]; simpl; [|done].
  rewrite Hf, <- store_scale. apply (f_equal Ok), eq_sym, scale_write.
Qed.

Lemma commutes_call c e op dst src :
  (forall d x, op (scal c d) (scal c x) = scal c (op d x)) -> commutes c (call e op dst src).
Proof.
  intros Hop s. unfold call. rewrite (commutes_update2 c op dst src Hop).
  destruct (update2 op dst src s); done.
Qed.

Variable mg : Multigrid V.
Hypothesis Hlin : linear_operators mg.

Lemma commutes_restrict_body c level l : commutes c (restrict_body mg level l).
Proof.
  unfold restrict_body.
  apply commutes_seq; [|apply commutes_seq; [|apply commutes_seq]].
  - apply commutes_update. intros d. apply scal_assign_zero.
  - destruct (l =? level); [|apply commutes_skip].
    destruct (edge_down mg) as [e|] eqn:E; [|apply commutes_skip].
    apply commutes_call. intros d x. by apply (lin_edge_down mg Hlin e E).
  - apply commutes_call. intros d x. apply (lin_restrict mg Hlin).
  - apply commutes_update2. intros d x. apply scal_vsub.
Qed.

Lemma commutes_restrict_loop c n level l0 : commutes c (restrict_loop mg n level l0).
Proof.
  revert l0. induction n as [|n IH]; intros l0; simpl;
    destruct (minlevel mg <? l0); try apply commutes_skip.
  - done.
  - apply commutes_seq; [apply commutes_restrict_body | apply IH].
Qed.

Lemma commutes_descend c level : commutes c (descend mg level).
Proof.
  unfold descend. apply commutes_seq; [|apply commutes_seq].
  - apply commutes_call. intros d x. apply (lin_pre_smooth mg Hlin).
  - apply commutes_call. intros d x. apply (lin_matrix mg Hlin).
  - apply commutes_restrict_loop.
Qed.

Lemma commutes_ascend c level : commutes c (ascend mg level).
Proof.
  unfold ascend.
  apply commutes_seq; [|apply commutes_seq; [|apply commutes_seq; [|apply commutes_seq]]].
  - apply commutes_update. intros d. apply scal_assign_zero.
  - apply commutes_call. intros d x. apply (lin_prolongate mg Hlin).
  - apply commutes_update2. intros d x. apply scal_vadd.
  - destruct (edge_up mg) as [e|] eqn:E; [|apply commutes_skip].
    apply commutes_seq.
    + apply commutes_call. intros d x. by apply (lin_edge_up mg Hlin e E).
    + apply commutes_update2. intros d x. apply scal_vsub.
  - apply commutes_call. intros d x. apply (lin_post_smooth mg Hlin).
Qed.

Lemma commutes_level_mgstep c fuel level : commutes c (level_mgstep mg fuel level).
Proof.
  revert level. induction fuel as [|fuel IH]; intros level; simpl; [done|].
  apply commutes_seq.
  - apply commutes_update. intros d. apply scal_assign_zero.
  - destruct (level =? minlevel mg).
    + apply commutes_call. intros d x. apply (lin_coarse mg Hlin).
    + apply commutes_seq; [apply commutes_descend|].
      apply commutes_seq; [apply IH | apply commutes_ascend].
Qed.

Lemma adjusted_scale c (dv : gmap N V) j :
  adjusted mg (scal c <$> dv) j = scal c <$> adjusted mg dv j.
Proof.
  unfold adjusted. case_decide; [|done].
  rewrite lookup_fmap. destruct (dv !! j) as [d|]; simpl; [|done].
  by rewrite scal_reinit.
Qed.

(** C7. When every operator of the configuration is homogeneous, as
    every linear operator is, multiplying all defect vectors by a scalar
    [c] before [vcycle] multiplies what the cycle returns by [c]: the
    solution vector of [maxlevel], and with it every level vector. *)
Theorem vcycle_linear (c : K) (fuel : nat) (s : mg_state V) :
  minlevel mg <= maxlevel mg ->
  maxlevel mg < UINT_MAX ->
  defect_present mg s ->
  (depth mg <= fuel)%nat ->
  exists s1 s2 v,
    vcycle mg fuel s = Ok s1 /\
    vcycle mg fuel (scale_defects c s) = Ok s2 /\
    solution s1 !! maxlevel mg = Some v /\
    solution s2 !! maxlevel mg = Some (scal c v) /\
    s2 = scale c s1.
Proof.
  intros Hle Hmax Hd Hf.
  destruct (vcycle_resize_spec mg s Hle Hmax Hd) as (sa & Ea & Hda & Htra & Hsola & Hta).
  destruct (vcycle_resize_spec mg (scale_defects c s) Hle Hmax)
    as (sb & Eb & Hdb & Htrb & Hsolb & Htb).
  { intros l Hl. simpl. rewrite lookup_fmap. destruct (Hd l Hl) as [d ->]. simpl. eauto. }
  assert (Hsb : sb = scale c sa).
  { apply mg_state_eq; simpl.
    - rewrite Hdb, Hda. done.
    - apply map_eq. intros j. rewrite Hsolb, lookup_fmap, Hsola. apply adjusted_scale.
    - apply map_eq. intros j. rewrite Htb, lookup_fmap, Hta. apply adjusted_scale.
    - rewrite Htrb, Htra. done. }
  assert (Hpa : present (minlevel mg) (maxlevel mg) sa) by (eapply adjusted_present; eauto).
  destruct (level_mgstep_runs mg (minlevel mg) (maxlevel mg) fuel (maxlevel mg))
    with (s := sa) as (s1 & E1 & Hp1); [lia | lia | unfold depth in Hf; lia | done |].
  destruct (Hp1 Solution (maxlevel mg)) as [v Hv]; [lia|].
  exists s1, (scale c s1), v.
  split; [|split; [|split; [done|split; [|done]]]].
  - unfold vcycle. rewrite (seq_cmd_ok _ _ _ _ Ea). done.
  - unfold vcycle. rewrite (seq_cmd_ok _ _ _ _ Eb), Hsb.
    rewrite commutes_level_mgstep, E1. done.
  - simpl. rewrite lookup_fmap. simpl in Hv. rewrite Hv. done.
Qed.

End Linearity.

(** The operators of the example are homogeneous. *)

Lemma duplicate_scal (c : Z) (v : list Z) :
  Example.duplicate (List.map (Z.mul c) v) = List.map (Z.mul c) (Example.duplicate v).
Proof. induction v as [|x v IH]; simpl; [done | by rewrite IH]. Qed.

Lemma pair_sums_scal (c : Z) (v : list Z) :
  Example.pair_sums (List.map (Z.mul c) v) = List.map (Z.mul c) (Example.pair_sums v) /\
  forall x, Example.pair_sums (List.map (Z.mul c) (x :: v)) =
            List.map (Z.mul c) (Example.pair_sums (x :: v)).
Proof.
  induction v as [|y v [IH1 IH2]]; [done|]. split; [apply IH2|].
  intros x. simpl. rewrite IH1. f_equal. lia.
Qed.

Lemma example_linear down up :
  (down = None \/ down = Some Example.coupling) ->
  (up = None \/ up = Some Example.coupling) ->
  forall lo hi, linear_operators (K := Z) (Example.hierarchy lo hi down up).
Proof.
  intros Hdown Hup lo hi.
  assert (Hmul : forall c v, List.map (Z.mul 2) (List.map (Z.mul c) v) =
                             List.map (Z.mul c) (List.map (Z.mul 2) v)).
  { intros c v. rewrite !List.map_map. apply List.map_ext. intros; lia. }
  assert (Hrich : homogeneous (K := Z) (smooth Example.richardson)).
  { intros c l d x. simpl. rewrite Hmul.
    rewrite (ZVecLaws.zip_with_left_scal Z.sub) by (intros; lia).
    apply (ZVecLaws.zip_with_left_scal Z.add). intros; lia. }
  assert (Hcoup : forall e, Some e = Some Example.coupling ->
                            homogeneous (K := Z) (vmult e) /\ homogeneous (K := Z) (Tvmult e)).
  { intros e [= ->]. split; intros c l d x; simpl.
    - apply pair_sums_scal.
    - apply duplicate_scal. }
  split; simpl; try done.
  - intros c l d x. apply Hmul.
  - intros c l d x. apply duplicate_scal.
  - intros c l d x. simpl. rewrite (proj1 (pair_sums_scal c x)).
    apply (ZVecLaws.zip_with_left_scal Z.add). intros; lia.
  - intros e He. destruct Hdown as [->| ->]; [done | by apply Hcoup].
  - intros e He. destruct Hup as [->| ->]; [done | by apply Hcoup].
Qed.

Lemma vcycle_linear_witness :
  exists s1 s2 v,
    vcycle Example.edged 3 Example.start = Ok s1 /\
    vcycle Example.edged 3 (scale_defects 5%Z Example.start) = Ok s2 /\
    solution s1 !! 2 = Some v /\
    solution s2 !! 2 = Some (scal 5%Z v) /\
    s2 = scale 5%Z s1.
Proof.
  apply (vcycle_linear Example.edged (example_linear _ _ (or_intror eq_refl)
           (or_intror eq_refl) 0 2) 5%Z 3 Example.start).
  - example_side.
  - reflexivity.
  - apply example_defect_present. example_side.
  - example_side.
Defined.

(** ** Further properties: the calls of a cycle *)

Section CallLog.

Context {V : Type} `{VectorOps V}.
Variable mg : Multigrid V.
Implicit Types (s : mg_state V) (l level lo : N) (k : nat).

(** The log of a whole cycle. *)
Lemma vcycle_log fuel s :
  minlevel mg <= maxlevel mg -> maxlevel mg < UINT_MAX ->
  defect_present mg s -> (depth mg <= fuel)%nat ->
  exists s', vcycle mg fuel s = Ok s' /\
    trace s' = trace s ++
      mgstep_events mg (N.to_nat (maxlevel mg - minlevel mg)) (maxlevel mg).
Proof.
  intros Hle Hmax Hd Hf.
  destruct (vcycle_resize_runs mg s Hle Hmax Hd) as (s1 & E1 & _ & Htr1 & Hp1).
  destruct (level_mgstep_runs mg (minlevel mg) (maxlevel mg) fuel (maxlevel mg))
    with (s := s1) as (s' & E & _); [lia | lia | unfold depth in Hf; lia | done |].
  exists s'. split.
  - unfold vcycle. rewrite (seq_cmd_ok _ _ _ _ E1). done.
  - rewrite (eff_trace _ _ _ _ (level_mgstep_effect mg fuel (maxlevel mg) Hle s1 s' E)).
    by rewrite Htr1.
Qed.

Lemma loop_events_restricts level l0 :
  List.filter interior_call (loop_events mg level l0) =
  EvRestrictAndAdd <$> down_from (N.to_nat (l0 - minlevel mg)) l0.
Proof.
  unfold loop_events. generalize (N.to_nat (l0 - minlevel mg)) as k.
  intros k. revert l0. induction k as [|k IH]; intros l0; simpl; [done|].
  rewrite List.filter_app, IH. unfold body_events, edge_down_events.
  destruct (l0 =? level); [destruct (edge_down mg)|]; reflexivity.
Qed.

Lemma per_level_interior (es : list event) :
  List.filter per_level_call es = List.filter per_level_call (List.filter interior_call es).
Proof.
  induction es as [|e es IH]; simpl; [done|].
  destruct e; simpl; rewrite ?IH; done.
Qed.

Lemma per_level_restricts (ls : list N) :
  List.filter per_level_call (EvRestrictAndAdd <$> ls) = [].
Proof. induction ls as [|l ls IH]; simpl; done. Qed.

Lemma restrict_levels_app tr1 tr2 :
  restrict_levels (tr1 ++ tr2) = restrict_levels tr1 ++ restrict_levels tr2.
Proof. apply omap_app. Qed.

Lemma edge_down_levels_app tr1 tr2 :
  edge_down_levels (tr1 ++ tr2) = edge_down_levels tr1 ++ edge_down_levels tr2.
Proof. apply omap_app. Qed.

Lemma restrict_levels_restricts (ls : list N) :
  restrict_levels (EvRestrictAndAdd <$> ls) = ls.
Proof. induction ls as [|l ls IH]; simpl; [done|]. f_equal. exact IH. Qed.

Lemma edge_down_levels_restricts (ls : list N) :
  edge_down_levels (EvRestrictAndAdd <$> ls) = [].
Proof. induction ls as [|l ls IH]; simpl; done. Qed.

Lemma interior_mgstep k level :
  List.filter interior_call (mgstep_events mg k level) =
  interior_events (minlevel mg) k level.
Proof.
  revert level. induction k as [|k IH]; intros level; [done|].
  cbn [mgstep_events interior_events].
  rewrite !List.filter_app, loop_events_restricts, IH.
  unfold edge_up_events. destruct (edge_up mg); reflexivity.
Qed.

Lemma per_level_mgstep k lo level :
  lo = minlevel mg -> level = lo + N.of_nat k ->
  List.filter per_level_call (mgstep_events mg k level) =
  descent_calls (down_from k level) ++ [EvCoarse lo] ++
  ascent_calls (level_range (lo + 1) level).
Proof.
  intros ->. rewrite per_level_interior, interior_mgstep.
  revert level. induction k as [|k IH]; intros level Hl.
  - simpl. unfold level_range.
    replace (N.to_nat (level + 1 - (minlevel mg + 1))) with O by lia.
    simpl. f_equal. f_equal. lia.
  - cbn [interior_events down_from descent_calls flat_map].
    rewrite !List.filter_app, per_level_restricts, (IH (level - 1)) by lia.
    replace (level_range (minlevel mg + 1) level)
      with (level_range (minlevel mg + 1) (level - 1 + 1)) by (f_equal; lia).
    rewrite level_range_snoc by lia.
    unfold ascent_calls, descent_calls. rewrite flat_map_app. simpl.
    replace (level - 1 + 1) with level by lia.
    rewrite <- !app_assoc. simpl. done.
Qed.

Lemma length_down_from k l : length (down_from k l) = k.
Proof. revert l. induction k as [|k IH]; intros l; simpl; [done|]. by rewrite IH. Qed.

Lemma restrict_levels_mgstep k level :
  level = minlevel mg + N.of_nat k ->
  restrict_levels (mgstep_events mg k level) =
  flat_map (cascade_levels mg) (down_from k level).
Proof.
  revert level. induction k as [|k IH]; intros level Hl; [done|].
  cbn [mgstep_events down_from flat_map].
  rewrite !restrict_levels_app, (IH (level - 1)) by lia.
  rewrite loop_events_top by lia. rewrite restrict_levels_app, restrict_levels_restricts.
  unfold edge_up_events, cascade_levels.
  destruct (edge_down mg), (edge_up mg); simpl; rewrite ?app_nil_r; done.
Qed.

Lemma length_cascades k level :
  level = minlevel mg + N.of_nat k ->
  (2 * length (flat_map (cascade_levels mg) (down_from k level)) = k * (k + 1))%nat.
Proof.
  revert level. induction k as [|k IH]; intros level Hl; [done|].
  cbn [down_from flat_map]. rewrite length_app.
  unfold cascade_levels at 1. rewrite length_down_from.
  specialize (IH (level - 1) ltac:(lia)). nia.
Qed.

Lemma edge_down_levels_mgstep k level :
  level = minlevel mg + N.of_nat k ->
  edge_down_levels (mgstep_events mg k level) =
  match edge_down mg with Some _ => down_from k level | None => [] end.
Proof.
  revert level. induction k as [|k IH]; intros level Hl.
  - simpl. by destruct (edge_down mg).
  - cbn [mgstep_events down_from].
    rewrite !edge_down_levels_app, (IH (level - 1)) by lia.
    rewrite loop_events_top by lia.
    rewrite edge_down_levels_app, edge_down_levels_restricts.
    unfold edge_up_events.
    destruct (edge_down mg), (edge_up mg); simpl; rewrite ?app_nil_r; done.
Qed.

(** X1. The calls of one [vcycle], the restrictions and the edge
    matrices left aside, form a V: [pre_smooth->smooth] and
    [matrix->vmult] for the levels [maxlevel], ..., [minlevel + 1] in
    this order, then the one call of the coarse solver, at [minlevel],
    then [transfer->prolongate] and [post_smooth->smooth] for the levels
    [minlevel + 1], ..., [maxlevel]. *)
Theorem cycle_is_v_shaped (fuel : nat) (s : mg_state V) :
  minlevel mg <= maxlevel mg ->
  maxlevel mg < UINT_MAX ->
  defect_present mg s ->
  (depth mg <= fuel)%nat ->
  exists s' es,
    vcycle mg fuel s = Ok s' /\
    trace s' = trace s ++ es /\
    List.filter per_level_call es =
      descent_calls (down_from (N.to_nat (maxlevel mg - minlevel mg)) (maxlevel mg)) ++
      [EvCoarse (minlevel mg)] ++
      ascent_calls (level_range (minlevel mg + 1) (maxlevel mg)).
Proof.
  intros Hle Hmax Hd Hf.
  destruct (vcycle_log fuel s Hle Hmax Hd Hf) as (s' & E & Htr).
  exists s', (mgstep_events mg (N.to_nat (maxlevel mg - minlevel mg)) (maxlevel mg)).
  split; [done|]. split; [done|].
  apply per_level_mgstep; [done | lia].
Qed.

(** X2. In one [vcycle] the step at every level [L] above [minlevel]
    calls [transfer->restrict_and_add] for [l = L, L - 1, ..., minlevel + 1],
    the steps taken from [maxlevel] downwards; on [n + 1] levels that
    makes [n (n + 1) / 2] restrictions in all, not [n]. *)
Theorem restrictions_of_cycle (fuel : nat) (s : mg_state V) :
  minlevel mg <= maxlevel mg ->
  maxlevel mg < UINT_MAX ->
  defect_present mg s ->
  (depth mg <= fuel)%nat ->
  exists s' es,
    vcycle mg fuel s = Ok s' /\
    trace s' = trace s ++ es /\
    restrict_levels es =
      flat_map (cascade_levels mg)
        (down_from (N.to_nat (maxlevel mg - minlevel mg)) (maxlevel mg)) /\
    (2 * length (restrict_levels es) =
     N.to_nat (maxlevel mg - minlevel mg) * (N.to_nat (maxlevel mg - minlevel mg) + 1))%nat.
Proof.
  intros Hle Hmax Hd Hf.
  destruct (vcycle_log fuel s Hle Hmax Hd Hf) as (s' & E & Htr).
  exists s', (mgstep_events mg (N.to_nat (maxlevel mg - minlevel mg)) (maxlevel mg)).
  split; [done|]. split; [done|].
  rewrite restrict_levels_mgstep by lia. split; [done|].
  apply length_cascades. lia.
Qed.

(** X3. With an edge-down matrix, one [vcycle] calls [edge_down->vmult]
    once in the step at every level above [minlevel]: for the levels
    [maxlevel], ..., [minlevel + 1] in this order; without one it never
    calls it. *)
Theorem edge_down_once_per_step (fuel : nat) (s : mg_state V) :
  minlevel mg <= maxlevel mg ->
  maxlevel mg < UINT_MAX ->
  defect_present mg s ->
  (depth mg <= fuel)%nat ->
  exists s' es,
    vcycle mg fuel s = Ok s' /\
    trace s' = trace s ++ es /\
    edge_down_levels es =
      match edge_down mg with
      | Some _ => down_from (N.to_nat (maxlevel mg - minlevel mg)) (maxlevel mg)
      | None => []
      end.
Proof.
  intros Hle Hmax Hd Hf.
  destruct (vcycle_log fuel s Hle Hmax Hd Hf) as (s' & E & Htr).
  exists s', (mgstep_events mg (N.to_nat (maxlevel mg - minlevel mg)) (maxlevel mg)).
  split; [done|]. split; [done|].
  apply edge_down_levels_mgstep. lia.
Qed.

End CallLog.

(** ** The vectors of a step *)

Section StepValues.

Context {V : Type} `{VectorOps V}.
Variable mg : Multigrid V.
Implicit Types (s : mg_state V) (r : role) (l level : N).

Lemma level_mgstep_above fuel level s :
  minlevel mg < level ->
  level_mgstep mg (S fuel) level s =
  seq_cmd (update assign_zero (Solution, level))
    (seq_cmd (descend mg level)
       (seq_cmd (level_mgstep mg fuel (level - 1)) (ascend mg level))) s.
Proof.
  intros Hl. simpl. destruct (N.eqb_spec level (minlevel mg)); [lia|].
  rewrite u_pred_pos by lia. reflexivity.
Qed.

Lemma level_mgstep_coarsest fuel s :
  level_mgstep mg (S fuel) (minlevel mg) s =
  seq_cmd (update assign_zero (Solution, minlevel mg))
    (call (EvCoarse (minlevel mg)) (coarse_apply (coarse mg) (minlevel mg))
       (Solution, minlevel mg) (Defect, minlevel mg)) s.
Proof. simpl. rewrite N.eqb_refl. reflexivity. Qed.

(** The way up writes vectors of its own level only. *)
Lemma ascend_effect_level level :
  has_effect (ascend mg level) (fun x => snd x = level)
    ([EvProlongate level] ++ edge_up_events mg level ++ [EvPostSmooth level]).
Proof.
  unfold ascend, edge_up_events.
  replace ([EvProlongate level] ++
           match edge_up mg with Some _ => [EvEdgeUpTvmult level] | None => [] end ++
           [EvPostSmooth level])
    with ([] ++ [EvProlongate level] ++ [] ++
          match edge_up mg with Some _ => [EvEdgeUpTvmult level] ++ [] | None => [] end ++
          [EvPostSmooth level]) by (destruct (edge_up mg); reflexivity).
  apply has_effect_seq; [|apply has_effect_seq; [|apply has_effect_seq; [|apply has_effect_seq]]].
  - apply has_effect_update. done.
  - apply has_effect_call. done.
  - apply has_effect_update2. done.
  - destruct (edge_up mg) as [e|]; [|apply has_effect_skip].
    apply has_effect_seq; [apply has_effect_call | apply has_effect_update2]; done.
  - apply has_effect_call. done.
Qed.

Lemma ascend_values level s s' (a u uc d : V) :
  minlevel mg < level ->
  ascend mg level s = Ok s' ->
  t s !! level = Some a -> solution s !! level = Some u ->
  solution s !! (level - 1) = Some uc -> defect s !! level = Some d ->
  solution s' !! level =
    Some (smooth (post_smooth mg) level (vadd u (correction mg level a uc))
            (edge_up_defect mg level d (correction mg level a uc) uc)) /\
  defect s' !! level = Some (edge_up_defect mg level d (correction mg level a uc) uc).
Proof.
  intros Hl E Ha Hu Huc Hd. unfold ascend in E.
  rewrite (u_pred_pos level) in E by lia.
  apply seq_cmd_ok_inv in E as (sa & Ea & E).
  apply seq_cmd_ok_inv in E as (sb & Eb & E).
  apply seq_cmd_ok_inv in E as (sc & Ec & E).
  apply seq_cmd_ok_inv in E as (sd & Ed & Ee).
  (* t[level] = 0. *)
  pose proof (update_lookup _ (Scratch, level) _ _ _ Ea Ha) as Hta.
  assert (Fa : forall r j, (Scratch, level) <> (r, j) -> store r sa !! j = store r s !! j).
  { intros r j Hn. apply (update_frame _ _ _ _ _ _ Ea Hn). }
  (* prolongate *)
  assert (Htb : t sb !! level = Some (correction mg level a uc)).
  { apply (call_lookup _ _ (Scratch, level) (Solution, level - 1) _ _ _ _ Eb Hta).
    cbn [fst snd]. rewrite (Fa Solution (level - 1)); done. }
  assert (Fb : forall r j, (Scratch, level) <> (r, j) -> store r sb !! j = store r sa !! j).
  { intros r j Hn. apply (call_frame _ _ _ _ _ _ _ _ Eb Hn). }
  (* solution[level] += t[level] *)
  assert (Hxc : solution sc !! level = Some (vadd u (correction mg level a uc))).
  { apply (update2_lookup _ (Solution, level) (Scratch, level) _ _ _ _ Ec); [|done].
    cbn [fst snd]. rewrite (Fb Solution level), (Fa Solution level); done. }
  assert (Fc : forall r j, (Solution, level) <> (r, j) -> store r sc !! j = store r sb !! j).
  { intros r j Hn. apply (update2_frame _ _ _ _ _ _ _ Ec Hn). }
  (* the edge-up matrix *)
  assert (Hdd : defect sd !! level =
                Some (edge_up_defect mg level d (correction mg level a uc) uc) /\
                solution sd !! level = solution sc !! level).
  { unfold edge_up_defect. destruct (edge_up mg) as [e|].
    - apply seq_cmd_ok_inv in Ed as (se & Ee1 & Ee2).
      assert (Hte : t se !! level = Some (Tvmult e level (correction mg level a uc) uc)).
      { apply (call_lookup _ _ (Scratch, level) (Solution, level - 1) _ _ _ _ Ee1).
        - cbn [fst snd]. rewrite (Fc Scratch level); done.
        - cbn [fst snd]. rewrite (Fc Solution (level - 1)), (Fb Solution (level - 1)),
            (Fa Solution (level - 1)); [done | done | done |]. intros [= ?]; lia. }
      assert (Fe : forall r j, (Scratch, level) <> (r, j) -> store r se !! j = store r sc !! j).
      { intros r j Hn. apply (call_frame _ _ _ _ _ _ _ _ Ee1 Hn). }
      split.
      + apply (update2_lookup _ (Defect, level) (Scratch, level) _ _ _ _ Ee2); [|done].
        cbn [fst snd]. rewrite (Fe Defect level), (Fc Defect level), (Fb Defect level),
          (Fa Defect level); done.
      + pose proof (update2_frame _ _ _ _ _ Solution level Ee2 ltac:(done)) as F.
        cbn [store] in F. rewrite F. apply (Fe Solution level). done.
    - injection Ed as <-. split; [|done].
      change (store Defect sc !! level = Some d).
      rewrite (Fc Defect level), (Fb Defect level), (Fa Defect level); done. }
  destruct Hdd as [Hdd Hxd]. rewrite Hxc in Hxd.
  (* post_smooth *)
  split.
  - apply (call_lookup _ _ (Solution, level) (Defect, level) _ _ _ _ Ee); done.
  - rewrite <- Hdd. apply (call_frame _ _ _ _ _ _ Defect level Ee). done.
Qed.

(** The way down writes no solution vector but [solution[level]]. *)
Lemma descend_solution_frame level s s1 l :
  descend mg level s = Ok s1 -> l <> level -> solution s1 !! l = solution s !! l.
Proof.
  intros E Hl. unfold descend in E.
  apply seq_cmd_ok_inv in E as (sa & Ea & E).
  apply seq_cmd_ok_inv in E as (sb & Eb & Ec).
  pose proof (call_frame _ _ _ _ _ _ Solution l Ea ltac:(congruence)) as Fa.
  pose proof (call_frame _ _ _ _ _ _ Solution l Eb ltac:(congruence)) as Fb.
  pose proof (frame_of_effect _ _ _ _ _ Solution l
                (restrict_loop_effect mg (N.to_nat level) level level) Ec) as Fc.
  cbn [store] in Fa, Fb, Fc. unfold below in Fc. simpl in Fc.
  rewrite Fc by tauto. by rewrite Fb, Fa.
Qed.

(** The way down leaves [defect[level]], and everything above [level],
    as it was. *)
Lemma descend_defect_frame level s s1 l :
  descend mg level s = Ok s1 -> level <= l -> defect s1 !! l = defect s !! l.
Proof.
  intros E Hl. unfold descend in E.
  apply seq_cmd_ok_inv in E as (sa & Ea & E).
  apply seq_cmd_ok_inv in E as (sb & Eb & Ec).
  pose proof (call_frame _ _ _ _ _ _ Defect l Ea ltac:(congruence)) as Fa.
  pose proof (call_frame _ _ _ _ _ _ Defect l Eb ltac:(congruence)) as Fb.
  pose proof (frame_of_effect _ _ _ _ _ Defect l
                (restrict_loop_effect mg (N.to_nat level) level level) Ec) as Fc.
  cbn [store] in Fa, Fb, Fc. unfold below in Fc. simpl in Fc.
  rewrite Fc by lia. by rewrite Fb, Fa.
Qed.

(** What the way down leaves below [level]. *)
Lemma descend_cascade hi level s s1 (u : V) :
  minlevel mg <= level -> level <= hi ->
  present (minlevel mg) hi s ->
  descend mg level s = Ok s1 ->
  solution s1 !! level = Some u ->
  forall l, minlevel mg < l <= level ->
  exists z dl tl,
    t s !! (l - 1) = Some z /\ defect s !! (l - 1) = Some dl /\
    t s1 !! l = Some tl /\
    t s1 !! (l - 1) = Some (cascade_value mg level l z u tl) /\
    defect s1 !! (l - 1) = Some (vsub dl (cascade_value mg level l z u tl)).
Proof.
  intros Hlo Hhi Hp E Hu l Hl. unfold descend in E.
  apply seq_cmd_ok_inv in E as (sa & Ea & E).
  apply seq_cmd_ok_inv in E as (sb & Eb & Ec).
  assert (Hpa : present (minlevel mg) hi sa).
  { eapply present_effect; [|exact Hp].
    apply (has_effect_call (fun _ => True) _ _ _ _ I _ _ Ea). }
  assert (Hpb : present (minlevel mg) hi sb).
  { eapply present_effect; [|exact Hpa].
    apply (has_effect_call (fun _ => True) _ _ _ _ I _ _ Eb). }
  assert (Hub : solution sb !! level = Some u).
  { rewrite <- Hu. symmetry.
    apply (frame_of_effect _ _ _ _ _ Solution level
             (restrict_loop_effect mg (N.to_nat level) level level) Ec).
    unfold below. simpl. tauto. }
  destruct (restrict_loop_values mg hi (N.to_nat level) level level sb s1 u
              ltac:(lia) Hhi Hpb Ec Hub l Hl) as (z & dl & tl & Hz & Hdl & Hrest).
  exists z, dl, tl.
  pose proof (call_frame _ _ _ _ _ _ Scratch (l - 1) Ea ltac:(congruence)) as Fa1.
  pose proof (call_frame _ _ _ _ _ _ Defect (l - 1) Ea ltac:(congruence)) as Fa2.
  pose proof (call_frame _ _ _ _ _ _ Scratch (l - 1) Eb ltac:(intros [= ?]; lia)) as Fb1.
  pose proof (call_frame _ _ _ _ _ _ Defect (l - 1) Eb ltac:(congruence)) as Fb2.
  cbn [store] in Fa1, Fa2, Fb1, Fb2.
  rewrite <- Fa1, <- Fb1, <- Fa2, <- Fb2. done.
Qed.

(** X4. The coarse-grid correction.  A step at [level > minlevel]
    returns with [solution[level]] equal to what [post_smooth] makes of
    [u + p] and the defect, where [u] is what [pre_smooth] makes of the
    zeroed [solution[level]] and [defect[level]], and [p] is
    [solution[level-1]] as the recursive call left it, prolongated into
    the zeroed [t[level]]; the defect seen by [post_smooth] is
    [defect[level]] minus the product of the edge-up matrix with [p], or
    [defect[level]] itself without an edge-up matrix.  [solution[level-1]]
    keeps the value of the recursive call. *)
Theorem coarse_grid_correction (hi level : N) (fuel : nat) (s : mg_state V) :
  minlevel mg < level -> level <= hi ->
  present (minlevel mg) hi s ->
  (N.to_nat (level - 1 - minlevel mg) < fuel)%nat ->
  exists s2 s' x a d uc,
    solution s !! level = Some x /\ t s !! level = Some a /\
    defect s !! level = Some d /\
    seq_cmd (update assign_zero (Solution, level))
      (seq_cmd (descend mg level) (level_mgstep mg fuel (level - 1))) s = Ok s2 /\
    solution s2 !! (level - 1) = Some uc /\
    level_mgstep mg (S fuel) level s = Ok s' /\
    let u := smooth (pre_smooth mg) level (assign_zero x) d in
    let p := correction mg level (vmult (matrix mg) level a u) uc in
    solution s' !! level =
      Some (smooth (post_smooth mg) level (vadd u p) (edge_up_defect mg level d p uc)) /\
    defect s' !! level = Some (edge_up_defect mg level d p uc) /\
    solution s' !! (level - 1) = Some uc.
Proof.
  intros Hl Hhi Hp Hf.
  destruct (Hp Solution level ltac:(lia)) as [x Hx].
  destruct (Hp Scratch level ltac:(lia)) as [a Ha].
  destruct (Hp Defect level ltac:(lia)) as [d Hd].
  cbn [store] in Hx, Ha, Hd.
  destruct (runs_update (minlevel mg) hi assign_zero Solution level ltac:(lia) s Hp)
    as (s0 & E0 & Hp0).
  destruct (descend_runs mg (minlevel mg) hi level ltac:(lia) Hhi s0 Hp0) as (s1 & E1 & Hp1).
  destruct (level_mgstep_runs mg (minlevel mg) hi fuel (level - 1)
              ltac:(lia) ltac:(lia) Hf s1 Hp1) as (s2 & E2 & Hp2).
  destruct (ascend_runs mg (minlevel mg) hi level ltac:(lia) Hhi s2 Hp2) as (s' & E3 & _).
  destruct (Hp2 Solution (level - 1) ltac:(lia)) as [uc Huc]. cbn [store] in Huc.
  exists s2, s', x, a, d, uc.
  split; [done|]. split; [done|]. split; [done|].
  split. { rewrite (seq_cmd_ok _ _ _ _ E0), (seq_cmd_ok _ _ _ _ E1). done. }
  split; [done|].
  split. { rewrite level_mgstep_above by done.
           rewrite (seq_cmd_ok _ _ _ _ E0), (seq_cmd_ok _ _ _ _ E1), (seq_cmd_ok _ _ _ _ E2).
           done. }
  (* the state before the way down *)
  pose proof (update_lookup _ (Solution, level) _ _ _ E0 Hx) as Hx0.
  pose proof (update_frame _ _ _ _ Scratch level E0 ltac:(done)) as Ha0.
  pose proof (update_frame _ _ _ _ Defect level E0 ltac:(done)) as Hd0.
  cbn [fst snd store] in Hx0, Ha0, Hd0. rewrite Ha in Ha0. rewrite Hd in Hd0.
  (* ... after it *)
  destruct (descend_values mg level s0 s1 a (assign_zero x) d E1 Ha0 Hx0 Hd0) as [Hu1 Ha1].
  pose proof (descend_defect_frame level s0 s1 level E1 ltac:(lia)) as Hd1.
  rewrite Hd0 in Hd1.
  (* ... after the recursive call *)
  assert (F2 : forall r, store r s2 !! level = store r s1 !! level).
  { intros r. apply (frame_of_effect _ _ _ _ _ r level
                       (level_mgstep_effect mg fuel (level - 1) ltac:(lia)) E2).
    unfold touched. simpl. lia. }
  pose proof (F2 Solution) as Hu2. pose proof (F2 Scratch) as Ha2.
  pose proof (F2 Defect) as Hd2. cbn [store] in Hu2, Ha2, Hd2.
  rewrite Hu1 in Hu2. rewrite Ha1 in Ha2. rewrite Hd1 in Hd2.
  destruct (ascend_values level s2 s' _ _ uc d Hl E3 Ha2 Hu2 Huc Hd2) as [Hx' Hd'].
  cbn zeta. split; [done|]. split; [done|].
  rewrite <- Huc.
  apply (frame_of_effect _ _ _ _ _ Solution (level - 1) (ascend_effect_level level) E3).
  simpl. lia.
Qed.

(** X5. The cycle on two levels ([maxlevel = minlevel + 1]) in closed
    form: the fine defect is smoothed from zero, the residual part
    [A u] is restricted (on top of the edge-down product, if any) and
    taken off the coarse defect, the coarse solver is applied to the
    result from zero, and its solution is prolongated, added to [u] and
    smoothed against the fine defect (less the edge-up product, if
    any). *)
Theorem two_level_vcycle (fuel : nat) (s : mg_state V) (d dc : V) :
  maxlevel mg = minlevel mg + 1 ->
  maxlevel mg < UINT_MAX ->
  defect s !! maxlevel mg = Some d ->
  defect s !! minlevel mg = Some dc ->
  let u := smooth (pre_smooth mg) (maxlevel mg) (assign_zero (reinit vnew d)) d in
  let a := vmult (matrix mg) (maxlevel mg) (reinit vnew d) u in
  let dc' := vsub dc (cascade_value mg (maxlevel mg) (maxlevel mg) (reinit vnew dc) u a) in
  let uc := coarse_apply (coarse mg) (minlevel mg) (assign_zero (reinit vnew dc)) dc' in
  let p := correction mg (maxlevel mg) a uc in
  let d' := edge_up_defect mg (maxlevel mg) d p uc in
  exists s',
    vcycle mg (S (S fuel)) s = Ok s' /\
    solution s' !! maxlevel mg =
      Some (smooth (post_smooth mg) (maxlevel mg) (vadd u p) d') /\
    solution s' !! minlevel mg = Some uc /\
    defect s' !! minlevel mg = Some dc' /\
    defect s' !! maxlevel mg = Some d'.
Proof.
  intros Hhi Hmax Hd Hdc u a dc' uc p d'.
  set (lo := minlevel mg) in *. set (hi := maxlevel mg) in *.
  assert (Hdp : forall j, lo <= j <= hi -> is_Some (defect s !! j)).
  { intros j Hj. assert (Hc : j = lo \/ j = hi) by lia. destruct Hc as [-> | ->]; eauto. }
  destruct (vcycle_resize_spec mg s) as (s0 & E0 & Hd0 & _ & Hsol0 & Ht0);
    [fold lo hi; lia | done | done |].
  assert (Hp0 : present lo hi s0) by (eapply adjusted_present; eauto).
  assert (Hadj : forall j v, defect s !! j = Some v -> lo <= j <= hi ->
                             adjusted mg (defect s) j = Some (reinit vnew v)).
  { intros j v Hv Hj. unfold adjusted. fold lo hi. rewrite decide_True by done.
    rewrite Hv. done. }
  (* solution[maxlevel] = 0. *)
  destruct (runs_update lo hi assign_zero Solution hi ltac:(lia) s0 Hp0) as (s1 & E1 & Hp1).
  assert (Hx1 : solution s1 !! hi = Some (assign_zero (reinit vnew d))).
  { apply (update_lookup _ (Solution, hi) _ _ _ E1). cbn [fst snd store].
    rewrite Hsol0. apply Hadj; [done | lia]. }
  assert (F1 : forall r j, (Solution, hi) <> (r, j) -> store r s1 !! j = store r s0 !! j).
  { intros r j Hn. apply (update_frame _ _ _ _ _ _ E1 Hn). }
  (* the way down *)
  destruct (descend_runs mg lo hi hi ltac:(lia) ltac:(lia) s1 Hp1) as (s2 & E2 & Hp2).
  assert (Ha1 : t s1 !! hi = Some (reinit vnew d)).
  { pose proof (F1 Scratch hi ltac:(done)) as F. cbn [store] in F.
    rewrite F, Ht0. apply Hadj; [done | lia]. }
  assert (Hd1 : forall j, defect s1 !! j = defect s !! j).
  { intros j. pose proof (F1 Defect j ltac:(done)) as F. cbn [store] in F.
    rewrite F, Hd0. done. }
  destruct (descend_values mg hi s1 s2 _ _ d E2 Ha1 Hx1) as [Hu2 Ha2];
    [by rewrite Hd1|]. fold u in Hu2. fold u a in Ha2.
  destruct (descend_cascade hi hi s1 s2 u ltac:(lia) ltac:(lia) Hp1 E2 Hu2 hi ltac:(lia))
    as (z & dl & tl & Hz & Hdl & Htl & _ & Hdc2).
  replace (hi - 1) with lo in * by lia.
  assert (z = reinit vnew dc) as ->.
  { pose proof (F1 Scratch lo ltac:(intros [= ?]; lia)) as F. cbn [store] in F.
    rewrite F, Ht0, (Hadj lo dc) in Hz; [congruence | done | lia]. }
  assert (dl = dc) as -> by (rewrite Hd1 in Hdl; congruence).
  assert (tl = a) as -> by congruence.
  fold dc' in Hdc2.
  assert (Hx2 : solution s2 !! lo = Some (reinit vnew dc)).
  { rewrite (descend_solution_frame hi s1 s2 lo E2) by lia.
    pose proof (F1 Solution lo ltac:(intros [= ?]; lia)) as F. cbn [store] in F.
    rewrite F, Hsol0. apply Hadj; [done | lia]. }
  assert (Hd2 : defect s2 !! hi = Some d).
  { rewrite (descend_defect_frame hi s1 s2 hi E2) by lia. by rewrite Hd1. }
  (* the coarse solver *)
  destruct (level_mgstep_runs mg lo hi (S fuel) lo ltac:(lia) ltac:(lia) ltac:(lia) s2 Hp2)
    as (s3 & E3 & Hp3).
  pose proof E3 as E3'. unfold lo in E3'. rewrite level_mgstep_coarsest in E3'. fold lo in E3'.
  apply seq_cmd_ok_inv in E3' as (sz & Ez & Ec).
  pose proof (update_lookup _ (Solution, lo) _ _ _ Ez Hx2) as Hxz.
  pose proof (update_frame _ _ _ _ Defect lo Ez ltac:(done)) as Hdz.
  cbn [fst snd store] in Hxz, Hdz. rewrite Hdc2 in Hdz.
  pose proof (call_lookup _ _ (Solution, lo) (Defect, lo) _ _ _ _ Ec Hxz Hdz) as Hx3.
  cbn [fst snd store] in Hx3. fold uc in Hx3.
  assert (F3 : forall r j, (Solution, lo) <> (r, j) -> store r s3 !! j = store r s2 !! j).
  { intros r j Hn. rewrite (call_frame _ _ _ _ _ _ _ _ Ec Hn).
    apply (update_frame _ _ _ _ _ _ Ez Hn). }
  pose proof (F3 Solution hi ltac:(intros [= ?]; lia)) as Hu3.
  pose proof (F3 Scratch hi ltac:(done)) as Ha3.
  pose proof (F3 Defect hi ltac:(done)) as Hd3.
  pose proof (F3 Defect lo ltac:(done)) as Hdc3.
  cbn [store] in Hu3, Ha3, Hd3, Hdc3.
  rewrite Hu2 in Hu3. rewrite Ha2 in Ha3. rewrite Hd2 in Hd3. rewrite Hdc2 in Hdc3.
  (* the way up *)
  destruct (ascend_runs mg lo hi hi ltac:(lia) ltac:(lia) s3 Hp3) as (s' & E4 & _).
  destruct (ascend_values hi s3 s' a u uc d ltac:(lia) E4 Ha3 Hu3) as [Hx' Hd'];
    [replace (hi - 1) with lo by lia; done | done |].
  fold p in Hx', Hd'. fold d' in Hx', Hd'.
  assert (F4 : forall r, store r s' !! lo = store r s3 !! lo).
  { intros r. apply (frame_of_effect _ _ _ _ _ r lo (ascend_effect_level hi) E4).
    simpl. lia. }
  exists s'. split; [|split; [done|split; [|split; [|done]]]].
  - unfold vcycle. rewrite (seq_cmd_ok _ _ _ _ E0).
    fold hi. rewrite level_mgstep_above by (fold lo hi; lia).
    rewrite (seq_cmd_ok _ _ _ _ E1), (seq_cmd_ok _ _ _ _ E2).
    replace (hi - 1) with lo by lia.
    rewrite (seq_cmd_ok _ _ _ _ E3). done.
  - pose proof (F4 Solution) as F. cbn [store] in F. by rewrite F.
  - pose proof (F4 Defect) as F. cbn [store] in F. by rewrite F.
Qed.

End StepValues.

Section Footprint.

Context {V : Type} `{VectorOps V}.
Variable mg : Multigrid V.

(** X14. What a step at [level] leaves alone: every vector of a level
    above [level] or below [minlevel]; [defect[level]] when there is no
    edge-up matrix; at [minlevel] all of [defect] and [t]; and no level
    object gains or loses a level. *)
Theorem step_footprint (fuel : nat) (level : N) (s s' : mg_state V) :
  minlevel mg <= level ->
  level_mgstep mg fuel level s = Ok s' ->
  (forall r l, ~ (minlevel mg <= l <= level) -> store r s' !! l = store r s !! l) /\
  (edge_up mg = None -> defect s' !! level = defect s !! level) /\
  (level = minlevel mg -> defect s' = defect s /\ t s' = t s) /\
  (forall r l, is_Some (store r s' !! l) <-> is_Some (store r s !! l)).
Proof.
  intros Hl E.
  pose proof (level_mgstep_effect mg fuel level Hl s s' E) as He.
  split; [|split; [|split]].
  - intros r l Hn. apply (eff_frame _ _ _ _ He). unfold touched. simpl. tauto.
  - intros Hup. apply (eff_frame _ _ _ _ He Defect level). unfold touched. simpl.
    rewrite Hup. intros [_ Hw]. destruct (Hw eq_refl) as [?|[[? ?] _]]; [lia | done].
  - intros ->. destruct fuel as [|fuel]; [done|].
    rewrite level_mgstep_coarsest in E.
    apply seq_cmd_ok_inv in E as (sz & Ez & Ec).
    apply update_ok_inv in Ez as (x & _ & ->).
    apply call_ok_inv in Ec as (y & d & _ & _ & ->). done.
  - apply (eff_dom _ _ _ _ He).
Qed.

End Footprint.

(** ** What a cycle depends on *)

Section Independence.

Context {V : Type} `{VectorOps V}.
Variable mg : Multigrid V.
Implicit Types (s : mg_state V) (r : role) (l level : N).

Lemma same_vectors_eq s1 s2 :
  same_vectors s1 s2 <-> defect s1 = defect s2 /\ solution s1 = solution s2 /\ t s1 = t s2.
Proof.
  unfold same_vectors, agree. split; intros (Hd & Hs & Ht); repeat split; try done.
  - apply map_eq. intros l. by apply Ht.
  - intros l _. by rewrite Ht.
Qed.

Lemma same_skip : rel_cmd (V := V) same_vectors same_vectors skip skip.
Proof. intros s1 s2 s1' s2' Ha [= <-] [= <-]. done. Qed.

Lemma same_update (f : V -> V) dst :
  rel_cmd same_vectors same_vectors (update f dst) (update f dst).
Proof. apply rel_update. done. Qed.

Lemma same_update2 (f : V -> V -> V) dst src :
  rel_cmd same_vectors same_vectors (update2 f dst src) (update2 f dst src).
Proof. apply rel_update2; done. Qed.

Lemma same_call e (op : V -> V -> V) dst src :
  rel_cmd same_vectors same_vectors (call e op dst src) (call e op dst src).
Proof. apply rel_call; done. Qed.

Lemma same_seq (a b : cmd V) :
  rel_cmd same_vectors same_vectors a a -> rel_cmd same_vectors same_vectors b b ->
  rel_cmd same_vectors same_vectors (seq_cmd a b) (seq_cmd a b).
Proof. apply rel_seq. Qed.

Lemma same_restrict_body level l :
  rel_cmd same_vectors same_vectors (restrict_body mg level l) (restrict_body mg level l).
Proof.
  unfold restrict_body.
  apply same_seq; [apply same_update|].
  apply same_seq; [|apply same_seq; [apply same_call | apply same_update2]].
  destruct (l =? level); [|apply same_skip].
  destruct (edge_down mg); [apply same_call | apply same_skip].
Qed.

Lemma same_restrict_loop n level l0 :
  rel_cmd same_vectors same_vectors (restrict_loop mg n level l0) (restrict_loop mg n level l0).
Proof.
  revert l0. induction n as [|n IH]; intros l0; simpl;
    destruct (minlevel mg <? l0); try apply same_skip.
  - intros s1 s2 s1' s2' _ [=].
  - apply same_seq; [apply same_restrict_body | apply IH].
Qed.

Lemma same_descend level :
  rel_cmd same_vectors same_vectors (descend mg level) (descend mg level).
Proof.
  unfold descend.
  apply same_seq; [apply same_call|].
  apply same_seq; [apply same_call | apply same_restrict_loop].
Qed.

Lemma same_ascend level :
  rel_cmd same_vectors same_vectors (ascend mg level) (ascend mg level).
Proof.
  unfold ascend.
  apply same_seq; [apply same_update|].
  apply same_seq; [apply same_call|].
  apply same_seq; [apply same_update2|].
  apply same_seq; [|apply same_call].
  destruct (edge_up mg); [|apply same_skip].
  apply same_seq; [apply same_call | apply same_update2].
Qed.

Lemma same_level_mgstep fuel level :
  rel_cmd same_vectors same_vectors (level_mgstep mg fuel level) (level_mgstep mg fuel level).
Proof.
  revert level. induction fuel as [|fuel IH]; intros level; simpl.
  - intros s1 s2 s1' s2' _ [=].
  - apply same_seq; [apply same_update|].
    destruct (level =? minlevel mg); [apply same_call|].
    apply same_seq; [apply same_descend|].
    apply same_seq; [apply IH | apply same_ascend].
Qed.

(** X6. [vcycle] does not read what [solution] and [t] held before:
    started on two states with the same defect vectors it returns the
    same defect, solution and scratch vectors, whatever the levels and
    vectors of [solution] and [t] were.  [solution] is no initial
    guess. *)
Theorem vcycle_discards_solution (fuel : nat) (s1 s2 : mg_state V) :
  minlevel mg <= maxlevel mg ->
  maxlevel mg < UINT_MAX ->
  defect_present mg s1 ->
  defect s2 = defect s1 ->
  (depth mg <= fuel)%nat ->
  exists s1' s2',
    vcycle mg fuel s1 = Ok s1' /\ vcycle mg fuel s2 = Ok s2' /\
    defect s1' = defect s2' /\ solution s1' = solution s2' /\ t s1' = t s2'.
Proof.
  intros Hle Hmax Hd1 Hdef Hf.
  assert (Hd2 : defect_present mg s2) by (intros l Hl; rewrite Hdef; auto).
  destruct (vcycle_resize_spec mg s1 Hle Hmax Hd1) as (a1 & Ea1 & Hda1 & _ & Hsa1 & Hta1).
  destruct (vcycle_resize_spec mg s2 Hle Hmax Hd2) as (a2 & Ea2 & Hda2 & _ & Hsa2 & Hta2).
  pose proof (adjusted_present mg a1 (defect s1) Hd1 Hda1 Hsa1 Hta1) as Hp1.
  pose proof (adjusted_present mg a2 (defect s2) Hd2 Hda2 Hsa2 Hta2) as Hp2.
  assert (Ha : same_vectors a1 a2).
  { apply same_vectors_eq. split; [congruence|].
    split; apply map_eq; intros l.
    - rewrite Hsa1, Hsa2, Hdef. done.
    - rewrite Hta1, Hta2, Hdef. done. }
  destruct (level_mgstep_runs mg (minlevel mg) (maxlevel mg) fuel (maxlevel mg))
    with (s := a1) as (s1' & E1 & _); [lia | lia | unfold depth in Hf; lia | done |].
  destruct (level_mgstep_runs mg (minlevel mg) (maxlevel mg) fuel (maxlevel mg))
    with (s := a2) as (s2' & E2 & _); [lia | lia | unfold depth in Hf; lia | done |].
  exists s1', s2'.
  split. { unfold vcycle. rewrite (seq_cmd_ok _ _ _ _ Ea1). done. }
  split. { unfold vcycle. rewrite (seq_cmd_ok _ _ _ _ Ea2). done. }
  apply same_vectors_eq.
  apply (same_level_mgstep fuel (maxlevel mg) a1 a2 s1' s2' Ha E1 E2).
Qed.

(** X7. After [vcycle], [solution] and [t] have exactly the levels
    [minlevel .. maxlevel], whatever levels they had before; [defect]
    keeps its levels, and its vectors outside [minlevel .. maxlevel] are
    untouched. *)
Theorem vcycle_levels (fuel : nat) (s : mg_state V) :
  minlevel mg <= maxlevel mg ->
  maxlevel mg < UINT_MAX ->
  defect_present mg s ->
  (depth mg <= fuel)%nat ->
  exists s',
    vcycle mg fuel s = Ok s' /\
    (forall l, is_Some (solution s' !! l) <-> minlevel mg <= l <= maxlevel mg) /\
    (forall l, is_Some (t s' !! l) <-> minlevel mg <= l <= maxlevel mg) /\
    (forall l, is_Some (defect s' !! l) <-> is_Some (defect s !! l)) /\
    (forall l, ~ (minlevel mg <= l <= maxlevel mg) -> defect s' !! l = defect s !! l).
Proof.
  intros Hle Hmax Hd Hf.
  destruct (vcycle_resize_spec mg s Hle Hmax Hd) as (s1 & E1 & Hd1 & _ & Hs1 & Ht1).
  pose proof (adjusted_present mg s1 (defect s) Hd Hd1 Hs1 Ht1) as Hp1.
  destruct (level_mgstep_runs mg (minlevel mg) (maxlevel mg) fuel (maxlevel mg))
    with (s := s1) as (s' & E & _); [lia | lia | unfold depth in Hf; lia | done |].
  pose proof (level_mgstep_effect mg fuel (maxlevel mg) Hle s1 s' E) as He.
  assert (Hadj : forall l, is_Some (adjusted mg (defect s) l) <->
                           minlevel mg <= l <= maxlevel mg).
  { intros l. unfold adjusted. case_decide as Hl.
    - destruct (Hd l Hl) as [d ->]. simpl. split; eauto.
    - split; [intros [? ?]; done | done]. }
  exists s'. split; [|split; [|split; [|split]]].
  - unfold vcycle. rewrite (seq_cmd_ok _ _ _ _ E1). done.
  - intros l. rewrite (eff_dom _ _ _ _ He Solution l). cbn [store]. rewrite Hs1. apply Hadj.
  - intros l. rewrite (eff_dom _ _ _ _ He Scratch l). cbn [store]. rewrite Ht1. apply Hadj.
  - intros l. rewrite (eff_dom _ _ _ _ He Defect l). cbn [store]. by rewrite Hd1.
  - intros l Hl. rewrite <- Hd1. apply (eff_frame _ _ _ _ He Defect l).
    unfold touched. simpl. tauto.
Qed.

(** The loop [for (level=minlevel; level<=maxlevel; ++level)] with
    [maxlevel] the largest [unsigned int]. *)
Lemma reinit_loop_unbounded n l s s' :
  maxlevel mg = UINT_MAX -> l <= UINT_MAX -> reinit_loop mg n l s <> Ok s'.
Proof.
  intros Hmax. revert l s. induction n as [|n IH]; intros l s Hl; simpl;
    rewrite Hmax; destruct (N.leb_spec l UINT_MAX) as [_|?]; try lia; [done|].
  intros (s1 & _ & E)%seq_cmd_ok_inv. revert E. apply IH.
  unfold u_succ. destruct (N.eqb_spec l UINT_MAX); lia.
Qed.

(** X8. With [maxlevel] the largest [unsigned int] the condition
    [level<=maxlevel] of the loop of [vcycle] holds for every value of
    [level], [++level] wrapping around to zero: no number of passes ends
    the loop, and [vcycle] does not return, whatever the budget for the
    recursion. *)
Theorem vcycle_needs_room_above (fuel : nat) (s : mg_state V) :
  maxlevel mg = UINT_MAX ->
  (forall n l s0 s', l <= UINT_MAX -> reinit_loop mg n l s0 <> Ok s') /\
  (forall s', vcycle mg fuel s <> Ok s').
Proof.
  intros Hmax. split.
  - intros n l s0 s' Hl. by apply reinit_loop_unbounded.
  - intros s' (s1 & E1 & _)%seq_cmd_ok_inv. unfold vcycle_resize in E1.
    apply seq_cmd_ok_inv in E1 as (sa & Ea & E1).
    apply seq_cmd_ok_inv in E1 as (sb & _ & E1).
    revert E1. apply reinit_loop_unbounded; [done|].
    unfold resize_store, resize in Ea.
    destruct (N.ltb_spec (maxlevel mg) (minlevel mg)); [done | lia].
Qed.


End Independence.

Section ZeroEdgeDown.

Context {V : Type} `{VectorLaws V}.
Variable mg : Multigrid V.
Variable up : option (MGMatrixBase V).
Implicit Types (s : mg_state V) (l level : N).

Local Abbreviation mgn := (with_edges mg None up).
Local Abbreviation mgd := (with_edges mg (Some zero_matrix) up).

Lemma zero_down_level_mgstep fuel level :
  minlevel mg <= level ->
  rel_cmd same_vectors same_vectors (level_mgstep mgn fuel level) (level_mgstep mgd fuel level).
Proof.
  revert level. induction fuel as [|fuel IH]; intros level Hl; simpl.
  - intros s1 s2 s1' s2' _ [=].
  - cbn [minlevel coarse with_edges].
    apply rel_seq with (R1 := same_vectors); [apply same_update|].
    destruct (N.eqb_spec level (minlevel mg)) as [->|Hne]; [apply same_call|].
    rewrite u_pred_pos by lia.
    apply rel_seq with (R1 := same_vectors).
    { apply (rel_descend mg (fun _ => True) level). done. }
    apply rel_seq with (R1 := same_vectors); [apply IH; lia|].
    apply (same_ascend mgn level).
Qed.

(** X10. An edge-down matrix whose [vmult] returns the zero vector is
    the same as none, for every edge-up setting: the defect, the
    solution and also the scratch vectors of the two cycles are the
    same. *)
Theorem zero_edge_down_as_null (fuel : nat) (s : mg_state V) :
  minlevel mg <= maxlevel mg ->
  maxlevel mg < UINT_MAX ->
  defect_present mg s ->
  (depth mg <= fuel)%nat ->
  exists s0 sz,
    vcycle (with_edges mg None up) fuel s = Ok s0 /\
    vcycle (with_edges mg (Some zero_matrix) up) fuel s = Ok sz /\
    defect s0 = defect sz /\ solution s0 = solution sz /\ t s0 = t sz.
Proof.
  intros Hle Hmax Hd Hf.
  destruct (vcycle_resize_runs mgn s Hle Hmax Hd) as (s1 & E1 & _ & _ & Hp1).
  destruct (level_mgstep_runs mgn (minlevel mg) (maxlevel mg) fuel (maxlevel mg))
    with (s := s1) as (s0 & E0 & _); [simpl; lia | lia | unfold depth in Hf; simpl; lia | done |].
  destruct (level_mgstep_runs mgd (minlevel mg) (maxlevel mg) fuel (maxlevel mg))
    with (s := s1) as (sz & Ez & _); [simpl; lia | lia | unfold depth in Hf; simpl; lia | done |].
  exists s0, sz.
  split. { unfold vcycle. rewrite (seq_cmd_ok _ _ _ _ E1). done. }
  split. { unfold vcycle. change (vcycle_resize mgd) with (vcycle_resize mgn).
           rewrite (seq_cmd_ok _ _ _ _ E1). done. }
  apply same_vectors_eq.
  apply (zero_down_level_mgstep fuel (maxlevel mg) Hle s1 s1 s0 sz); [|done|done].
  apply same_vectors_eq. done.
Qed.

End ZeroEdgeDown.

Section MissingDefect.

Context {V : Type} `{VectorOps V}.
Variable mg : Multigrid V.
Implicit Types (s : mg_state V) (l level j : N).

(** The loop of [vcycle] stops at the first level without a defect
    vector. *)
Lemma reinit_loop_fatal n l l0 s :
  l <= l0 <= maxlevel mg -> maxlevel mg < UINT_MAX ->
  (N.to_nat (l0 - l) < n)%nat ->
  defect s !! l0 = None ->
  (forall j, l <= j <= maxlevel mg -> is_Some (solution s !! j) /\ is_Some (t s !! j)) ->
  reinit_loop mg n l s = Fatal.
Proof.
  intros Hl Hmax. revert l s Hl.
  induction n as [|n IH]; intros l s Hl Hn Hnone Hst; [lia|]. simpl.
  destruct (N.leb_spec l (maxlevel mg)) as [_|?]; [|lia].
  destruct (Hst l ltac:(lia)) as [[x Hx] [a Ha]].
  destruct (defect s !! l) as [d|] eqn:Hd.
  - assert (Hne : l <> l0) by congruence.
    set (s2 := write (Scratch, l) (reinit a d) (write (Solution, l) (reinit x d) s)).
    assert (Hbody : reinit_body l s = Ok s2).
    { unfold reinit_body.
      rewrite (seq_cmd_ok _ _ _ _ (update2_ok reinit (Solution, l) (Defect, l) s _ _ Hx Hd)).
      apply (update2_ok reinit (Scratch, l) (Defect, l)
               (write (Solution, l) (reinit x d) s) a d Ha Hd). }
    rewrite (seq_cmd_ok _ _ _ _ Hbody), u_succ_lt by lia.
    apply IH; [lia | lia | done |].
    intros j Hj. unfold s2, write; simpl.
    rewrite !lookup_insert_ne by lia. apply Hst. lia.
  - unfold seq_cmd, reinit_body, seq_cmd, update2, level_at. cbn [fst snd store].
    rewrite Hx, Hd. reflexivity.
Qed.

(** X11. The loop of [vcycle] reads [defect[level]] for every level of
    the range: a level of [minlevel .. maxlevel] without a defect vector
    stops the cycle with a contract violation, and so does an empty
    range ([maxlevel < minlevel], refused by [resize]); a cycle that
    returns had a defect vector on every level. *)
Theorem vcycle_requires_defects (fuel : nat) (s : mg_state V) :
  maxlevel mg < UINT_MAX ->
  (maxlevel mg < minlevel mg -> vcycle mg fuel s = Fatal) /\
  (forall l, minlevel mg <= l <= maxlevel mg -> defect s !! l = None ->
     vcycle mg fuel s = Fatal) /\
  (forall s', vcycle mg fuel s = Ok s' ->
     minlevel mg <= maxlevel mg /\ defect_present mg s).
Proof.
  intros Hmax.
  assert (Hempty : maxlevel mg < minlevel mg -> vcycle mg fuel s = Fatal).
  { intros Hlt. unfold vcycle, vcycle_resize, seq_cmd, resize_store, resize.
    destruct (N.ltb_spec (maxlevel mg) (minlevel mg)); [done | lia]. }
  assert (Hmiss : forall l, minlevel mg <= l <= maxlevel mg -> defect s !! l = None ->
                            vcycle mg fuel s = Fatal).
  { intros l Hl Hnone. unfold vcycle, vcycle_resize, seq_cmd at 1 2 3, resize_store.
    destruct (resize (minlevel mg) (maxlevel mg)) as [m| |] eqn:E; [|done|].
    2: { unfold resize in E. destruct (maxlevel mg <? minlevel mg); done. }
    simpl.
    rewrite (reinit_loop_fatal _ (minlevel mg) l); [done | lia | done | lia | done |].
    intros j Hj. simpl. rewrite (lookup_resize _ _ _ j E).
    rewrite decide_True by lia. eauto. }
  split; [done|]. split; [done|].
  intros s' E. split.
  - destruct (N.lt_ge_cases (maxlevel mg) (minlevel mg)) as [Hlt|Hge]; [|done].
    rewrite (Hempty Hlt) in E. done.
  - intros l Hl. destruct (defect s !! l) as [d|] eqn:Hd; [eauto|].
    rewrite (Hmiss l Hl Hd) in E. done.
Qed.

End MissingDefect.

(** ** Shapes *)

Section ShapeFacts.

Context {V : Type} `{VectorOps V}.
Implicit Types (s : mg_state V) (c : cmd V) (r : role) (l level : N).

Lemma same_shapes_write dst (d v : V) s :
  store (fst dst) s !! snd dst = Some d -> vsize v = vsize d ->
  same_shapes s (write dst v s).
Proof.
  intros Hd Hv r l. rewrite store_write. case_decide as E; [|done].
  subst dst. cbn [fst snd] in Hd. rewrite Hd. simpl. by rewrite Hv.
Qed.

Lemma keeps_shapes_skip : keeps_shapes (V := V) skip.
Proof. intros s s' [= <-] r l. done. Qed.

Lemma keeps_shapes_seq c1 c2 :
  keeps_shapes c1 -> keeps_shapes c2 -> keeps_shapes (seq_cmd c1 c2).
Proof.
  intros H1 H2 s s' (s1 & E1 & E2)%seq_cmd_ok_inv r l.
  rewrite (H2 s1 s' E2 r l). apply (H1 s s1 E1).
Qed.

Lemma keeps_shapes_update (f : V -> V) dst :
  (forall d, vsize (f d) = vsize d) -> keeps_shapes (update f dst).
Proof. intros Hf s s' (d & Hd & ->)%update_ok_inv. by apply (same_shapes_write dst d). Qed.

Lemma keeps_shapes_update2 (f : V -> V -> V) dst src :
  (forall d x, vsize (f d x) = vsize d) -> keeps_shapes (update2 f dst src).
Proof.
  intros Hf s s' (d & x & Hd & Hx & ->)%update2_ok_inv. by apply (same_shapes_write dst d).
Qed.

Lemma keeps_shapes_call e (op : V -> V -> V) dst src :
  (forall d x, vsize (op d x) = vsize d) -> keeps_shapes (call e op dst src).
Proof.
  intros Hf s s' (d & x & Hd & Hx & ->)%call_ok_inv r l. rewrite store_log.
  by apply (same_shapes_write dst d).
Qed.

Context `{!ShapeLaws V}.
Variable mg : Multigrid V.
Hypothesis Hops : shape_respecting mg.

Lemma keeps_shapes_restrict_body level l : keeps_shapes (restrict_body mg level l).
Proof.
  unfold restrict_body.
  apply keeps_shapes_seq; [apply keeps_shapes_update, vsize_assign_zero|].
  apply keeps_shapes_seq; [|apply keeps_shapes_seq].
  - destruct (l =? level); [|apply keeps_shapes_skip].
    destruct (edge_down mg) as [e|] eqn:E; [|apply keeps_shapes_skip].
    apply keeps_shapes_call. intros d x. by apply (shp_edge_down mg Hops e).
  - apply keeps_shapes_call. intros d x. apply (shp_restrict mg Hops).
  - apply keeps_shapes_update2, vsize_vsub.
Qed.

Lemma keeps_shapes_restrict_loop n level l0 : keeps_shapes (restrict_loop mg n level l0).
Proof.
  revert l0. induction n as [|n IH]; intros l0; simpl;
    destruct (minlevel mg <? l0); try apply keeps_shapes_skip.
  - intros s s' [=].
  - apply keeps_shapes_seq; [apply keeps_shapes_restrict_body | apply IH].
Qed.

Lemma keeps_shapes_descend level : keeps_shapes (descend mg level).
Proof.
  unfold descend. apply keeps_shapes_seq; [|apply keeps_shapes_seq].
  - apply keeps_shapes_call. intros d x. apply (shp_pre_smooth mg Hops).
  - apply keeps_shapes_call. intros d x. apply (shp_matrix mg Hops).
  - apply keeps_shapes_restrict_loop.
Qed.

Lemma keeps_shapes_ascend level : keeps_shapes (ascend mg level).
Proof.
  unfold ascend.
  apply keeps_shapes_seq; [apply keeps_shapes_update, vsize_assign_zero|].
  apply keeps_shapes_seq.
  { apply keeps_shapes_call. intros d x. apply (shp_prolongate mg Hops). }
  apply keeps_shapes_seq; [apply keeps_shapes_update2, vsize_vadd|].
  apply keeps_shapes_seq.
  - destruct (edge_up mg) as [e|] eqn:E; [|apply keeps_shapes_skip].
    apply keeps_shapes_seq; [|apply keeps_shapes_update2, vsize_vsub].
    apply keeps_shapes_call. intros d x. by apply (shp_edge_up mg Hops e).
  - apply keeps_shapes_call. intros d x. apply (shp_post_smooth mg Hops).
Qed.

Lemma keeps_shapes_level_mgstep fuel level : keeps_shapes (level_mgstep mg fuel level).
Proof.
  revert level. induction fuel as [|fuel IH]; intros level; simpl.
  - intros s s' [=].
  - apply keeps_shapes_seq; [apply keeps_shapes_update, vsize_assign_zero|].
    destruct (level =? minlevel mg).
    + apply keeps_shapes_call. intros d x. apply (shp_coarse mg Hops).
    + apply keeps_shapes_seq; [apply keeps_shapes_descend|].
      apply keeps_shapes_seq; [apply IH | apply keeps_shapes_ascend].
Qed.

End ShapeFacts.

Section ShapeTheorem.

Context {V : Type} `{ShapeLaws V}.
Variable mg : Multigrid V.

(** X12. With operators that write into their destination without
    resizing it, [level_mgstep] changes the shape of no vector, and after
    [vcycle] the defect vectors have the shapes they had and
    [solution[l]] and [t[l]] have the shape of [defect[l]] on every level
    of the range. *)
Theorem vcycle_keeps_shapes (fuel : nat) (s : mg_state V) :
  shape_respecting mg ->
  minlevel mg <= maxlevel mg ->
  maxlevel mg < UINT_MAX ->
  defect_present mg s ->
  (depth mg <= fuel)%nat ->
  (forall f level, keeps_shapes (level_mgstep mg f level)) /\
  exists s',
    vcycle mg fuel s = Ok s' /\
    (forall l, vsize <$> defect s' !! l = vsize <$> defect s !! l) /\
    (forall l, minlevel mg <= l <= maxlevel mg ->
       vsize <$> solution s' !! l = vsize <$> defect s !! l /\
       vsize <$> t s' !! l = vsize <$> defect s !! l).
Proof.
  intros Hops Hle Hmax Hd Hf.
  split; [intros f level; by apply keeps_shapes_level_mgstep|].
  destruct (vcycle_resize_spec mg s Hle Hmax Hd) as (s1 & E1 & Hd1 & _ & Hs1 & Ht1).
  pose proof (adjusted_present mg s1 (defect s) Hd Hd1 Hs1 Ht1) as Hp1.
  destruct (level_mgstep_runs mg (minlevel mg) (maxlevel mg) fuel (maxlevel mg))
    with (s := s1) as (s' & E & _); [lia | lia | unfold depth in Hf; lia | done |].
  pose proof (keeps_shapes_level_mgstep mg Hops fuel (maxlevel mg) s1 s' E) as Hk.
  assert (Hadj : forall l, minlevel mg <= l <= maxlevel mg ->
                   vsize <$> adjusted mg (defect s) l = vsize <$> defect s !! l).
  { intros l Hl. unfold adjusted. rewrite decide_True by done.
    destruct (defect s !! l) as [d|]; simpl; [|done]. by rewrite vsize_of_reinit. }
  exists s'. split; [|split].
  - unfold vcycle. rewrite (seq_cmd_ok _ _ _ _ E1). done.
  - intros l. pose proof (Hk Defect l) as F. cbn [store] in F. by rewrite F, Hd1.
  - intros l Hl. pose proof (Hk Solution l) as F1. pose proof (Hk Scratch l) as F2.
    cbn [store] in F1, F2. rewrite F1, F2, Hs1, Ht1. split; by apply Hadj.
Qed.

End ShapeTheorem.

Module ExampleShapeLaws.
Import ZVec Example ExampleShapes.

Lemma length_zip_with_left f (a b : list Z) : length (zip_with_left f a b) = length a.
Proof.
  revert b. induction a as [|x a IH]; intros [|y b]; simpl; [done..|]. by rewrite IH.
Qed.

#[global] Instance shape_laws : ShapeLaws (list Z).
Proof.
  split; simpl; intros.
  - apply length_map.
  - apply length_zip_with_left.
  - apply length_zip_with_left.
  - apply length_map.
Qed.

Lemma fit_shape op : shape_preserving (fit op).
Proof. intros l d x. apply length_zip_with_left. Qed.

Lemma fitted_respecting mg : shape_respecting (fitted mg).
Proof.
  split; simpl; try apply fit_shape.
  - intros e. destruct (edge_down mg); intros [= <-]. apply fit_shape.
  - intros e. destruct (edge_up mg); intros [= <-]. apply fit_shape.
Qed.

End ExampleShapeLaws.

(** The example with edge matrices, its operators writing into their
    destination. *)
Lemma vcycle_keeps_shapes_witness :
  (forall f level, keeps_shapes (level_mgstep (ExampleShapes.fitted Example.edged) f level)) /\
  exists s',
    vcycle (ExampleShapes.fitted Example.edged) 3 Example.start = Ok s' /\
    (forall l, vsize <$> defect s' !! l = vsize <$> Example.defects !! l) /\
    (forall l, 0 <= l <= 2 ->
       vsize <$> solution s' !! l = vsize <$> Example.defects !! l /\
       vsize <$> t s' !! l = vsize <$> Example.defects !! l).
Proof.
  apply (vcycle_keeps_shapes (ExampleShapes.fitted Example.edged) 3 Example.start).
  - apply ExampleShapeLaws.fitted_respecting.
  - example_side.
  - reflexivity.
  - apply example_defect_present. example_side.
  - example_side.
Defined.

(** ** Additivity *)

Section AdditiveCommands.

Context {V : Type} `{VectorOps V}.
Implicit Types (s : mg_state V) (c : cmd V) (r : role) (l level : N).

Lemma sum_rel_write dst (v1 v2 v12 : V) s1 s2 s12 :
  sum_rel s1 s2 s12 -> v12 = vadd v1 v2 -> vsize v1 = vsize v2 ->
  sum_rel (write dst v1 s1) (write dst v2 s2) (write dst v12 s12).
Proof.
  intros [Hsum Hsh] -> Hv. split.
  - intros r l. rewrite !store_write. case_decide; [done | apply Hsum].
  - intros r l a b. rewrite !store_write. case_decide; [congruence | apply Hsh].
Qed.

Lemma sum_rel_log e1 e2 e12 s1 s2 s12 :
  sum_rel s1 s2 s12 -> sum_rel (log e1 s1) (log e2 s2) (log e12 s12).
Proof.
  intros [Hsum Hsh]. split.
  - intros r l. rewrite !store_log. apply Hsum.
  - intros r l a b. rewrite !store_log. apply Hsh.
Qed.

Lemma sum_lookup s1 s2 s12 r l (d1 d2 : V) :
  sum_rel s1 s2 s12 -> store r s1 !! l = Some d1 -> store r s2 !! l = Some d2 ->
  store r s12 !! l = Some (vadd d1 d2) /\ vsize d1 = vsize d2.
Proof.
  intros [Hsum Hsh] H1 H2. split; [|by apply (Hsh r l)].
  rewrite Hsum, H1, H2. done.
Qed.

Lemma additive_skip : additive_cmd (V := V) skip.
Proof. intros s1 s2 s12 s1' s2' HR [= <-] [= <-]. exists s12. done. Qed.

Lemma additive_seq c1 c2 :
  additive_cmd c1 -> additive_cmd c2 -> additive_cmd (seq_cmd c1 c2).
Proof.
  intros H1 H2 s1 s2 s12 s1' s2' HR
    (m1 & E1 & E1')%seq_cmd_ok_inv (m2 & E2 & E2')%seq_cmd_ok_inv.
  destruct (H1 s1 s2 s12 m1 m2 HR E1 E2) as (m12 & E12 & HR').
  destruct (H2 m1 m2 m12 s1' s2' HR' E1' E2') as (s12' & E12' & HR'').
  exists s12'. split; [|done]. rewrite (seq_cmd_ok _ _ _ _ E12). done.
Qed.

Lemma additive_update (f : V -> V) dst : additive1 f -> additive_cmd (update f dst).
Proof.
  intros Hf s1 s2 s12 s1' s2' HR (d1 & Hd1 & ->)%update_ok_inv (d2 & Hd2 & ->)%update_ok_inv.
  destruct (sum_lookup _ _ _ _ _ _ _ HR Hd1 Hd2) as [H12 Hs].
  destruct (Hf d1 d2 Hs) as [Hadd Hshape].
  exists (write dst (f (vadd d1 d2)) s12). split; [by apply update_ok|].
  by apply sum_rel_write.
Qed.

Lemma additive_update2 (f : V -> V -> V) dst src :
  additive2 f -> additive_cmd (update2 f dst src).
Proof.
  intros Hf s1 s2 s12 s1' s2' HR
    (d1 & x1 & Hd1 & Hx1 & ->)%update2_ok_inv (d2 & x2 & Hd2 & Hx2 & ->)%update2_ok_inv.
  destruct (sum_lookup _ _ _ _ _ _ _ HR Hd1 Hd2) as [H12 Hs].
  destruct (sum_lookup _ _ _ _ _ _ _ HR Hx1 Hx2) as [Hx12 Hsx].
  destruct (Hf d1 d2 x1 x2 Hs Hsx) as [Hadd Hshape].
  exists (write dst (f (vadd d1 d2) (vadd x1 x2)) s12). split; [by apply update2_ok|].
  by apply sum_rel_write.
Qed.

Lemma additive_call e (op : V -> V -> V) dst src :
  additive2 op -> additive_cmd (call e op dst src).
Proof.
  intros Hf s1 s2 s12 s1' s2' HR
    (d1 & x1 & Hd1 & Hx1 & ->)%call_ok_inv (d2 & x2 & Hd2 & Hx2 & ->)%call_ok_inv.
  destruct (sum_lookup _ _ _ _ _ _ _ HR Hd1 Hd2) as [H12 Hs].
  destruct (sum_lookup _ _ _ _ _ _ _ HR Hx1 Hx2) as [Hx12 Hsx].
  destruct (Hf d1 d2 x1 x2 Hs Hsx) as [Hadd Hshape].
  exists (log e (write dst (op (vadd d1 d2) (vadd x1 x2)) s12)). split; [by apply call_ok|].
  by apply sum_rel_log, sum_rel_write.
Qed.

Context `{!AdditiveLaws V}.
Variable mg : Multigrid V.
Hypothesis Hadd : additive_operators mg.

Lemma additive_restrict_body level l : additive_cmd (restrict_body mg level l).
Proof.
  unfold restrict_body.
  apply additive_seq; [|apply additive_seq; [|apply additive_seq]].
  - apply additive_update, assign_zero_additive.
  - destruct (l =? level); [|apply additive_skip].
    destruct (edge_down mg) as [e|] eqn:E; [|apply additive_skip].
    apply additive_call. by apply (add_edge_down mg Hadd e).
  - apply additive_call. apply (add_restrict mg Hadd).
  - apply additive_update2, vsub_additive.
Qed.

Lemma additive_restrict_loop n level l0 : additive_cmd (restrict_loop mg n level l0).
Proof.
  revert l0. induction n as [|n IH]; intros l0; simpl;
    destruct (minlevel mg <? l0); try apply additive_skip.
  - intros s1 s2 s12 s1' s2' _ [=].
  - apply additive_seq; [apply additive_restrict_body | apply IH].
Qed.

Lemma additive_descend level : additive_cmd (descend mg level).
Proof.
  unfold descend. apply additive_seq; [|apply additive_seq].
  - apply additive_call. apply (add_pre_smooth mg Hadd).
  - apply additive_call. apply (add_matrix mg Hadd).
  - apply additive_restrict_loop.
Qed.

Lemma additive_ascend level : additive_cmd (ascend mg level).
Proof.
  unfold ascend.
  apply additive_seq; [|apply additive_seq; [|apply additive_seq; [|apply additive_seq]]].
  - apply additive_update, assign_zero_additive.
  - apply additive_call. apply (add_prolongate mg Hadd).
  - apply additive_update2, vadd_additive.
  - destruct (edge_up mg) as [e|] eqn:E; [|apply additive_skip].
    apply additive_seq.
    + apply additive_call. by apply (add_edge_up mg Hadd e).
    + apply additive_update2, vsub_additive.
  - apply additive_call. apply (add_post_smooth mg Hadd).
Qed.

Lemma additive_level_mgstep fuel level : additive_cmd (level_mgstep mg fuel level).
Proof.
  revert level. induction fuel as [|fuel IH]; intros level; simpl.
  - intros s1 s2 s12 s1' s2' _ [=].
  - apply additive_seq; [apply additive_update, assign_zero_additive|].
    destruct (level =? minlevel mg).
    + apply additive_call. apply (add_coarse mg Hadd).
    + apply additive_seq; [apply additive_descend|].
      apply additive_seq; [apply IH | apply additive_ascend].
Qed.

End AdditiveCommands.

Section Additivity.

Context {V : Type} `{AdditiveLaws V}.
Variable mg : Multigrid V.

(** X13. In exact arithmetic, when every operator of the configuration
    is additive on vectors of the same shape, as every linear operator
    is, the cycle is additive: run on the sums of two sets of defect
    vectors of the same shapes it returns the sums of what it returns on
    each set, in particular the sum of the two solution vectors of
    [maxlevel]. *)
Theorem vcycle_additive (fuel : nat) (s1 s2 s12 : mg_state V) :
  additive_operators mg ->
  minlevel mg <= maxlevel mg ->
  maxlevel mg < UINT_MAX ->
  (depth mg <= fuel)%nat ->
  defect_present mg s1 ->
  defect_present mg s2 ->
  (forall l d1 d2, defect s1 !! l = Some d1 -> defect s2 !! l = Some d2 ->
     vsize d1 = vsize d2) ->
  (forall l, defect s12 !! l = vadd_opt (defect s1 !! l) (defect s2 !! l)) ->
  exists s1' s2' s12' v1 v2,
    vcycle mg fuel s1 = Ok s1' /\ vcycle mg fuel s2 = Ok s2' /\
    vcycle mg fuel s12 = Ok s12' /\
    solution s1' !! maxlevel mg = Some v1 /\
    solution s2' !! maxlevel mg = Some v2 /\
    solution s12' !! maxlevel mg = Some (vadd v1 v2) /\
    is_sum s1' s2' s12'.
Proof.
  intros Hops Hle Hmax Hf Hd1 Hd2 Hshape Hsum.
  assert (Hd12 : defect_present mg s12).
  { intros l Hl. rewrite Hsum.
    destruct (Hd1 l Hl) as [d1 ->], (Hd2 l Hl) as [d2 ->]. simpl. eauto. }
  destruct (vcycle_resize_spec mg s1 Hle Hmax Hd1) as (a1 & Ea1 & Hda1 & _ & Hsa1 & Hta1).
  destruct (vcycle_resize_spec mg s2 Hle Hmax Hd2) as (a2 & Ea2 & Hda2 & _ & Hsa2 & Hta2).
  destruct (vcycle_resize_spec mg s12 Hle Hmax Hd12)
    as (a12 & Ea12 & Hda12 & _ & Hsa12 & Hta12).
  pose proof (adjusted_present mg a1 (defect s1) Hd1 Hda1 Hsa1 Hta1) as Hp1.
  pose proof (adjusted_present mg a2 (defect s2) Hd2 Hda2 Hsa2 Hta2) as Hp2.
  assert (Hadj : forall l,
            adjusted mg (defect s12) l =
            vadd_opt (adjusted mg (defect s1) l) (adjusted mg (defect s2) l)).
  { intros l. unfold adjusted. case_decide as Hl; [|done]. rewrite Hsum.
    destruct (defect s1 !! l) as [d1|] eqn:E1, (defect s2 !! l) as [d2|] eqn:E2; simpl; try done.
    f_equal. apply (reinit_additive vnew d1 d2). by apply (Hshape l). }
  assert (Hadjs : forall l a b,
            adjusted mg (defect s1) l = Some a -> adjusted mg (defect s2) l = Some b ->
            vsize a = vsize b).
  { intros l a b. unfold adjusted. case_decide as Hl; [|done].
    destruct (defect s1 !! l) as [d1|] eqn:E1, (defect s2 !! l) as [d2|] eqn:E2; simpl; try done.
    intros [= <-] [= <-]. apply (reinit_additive vnew d1 d2). by apply (Hshape l). }
  assert (HR : sum_rel a1 a2 a12).
  { split.
    - intros [] l; simpl.
      + rewrite Hda12, Hda1, Hda2. apply Hsum.
      + rewrite Hsa12, Hsa1, Hsa2. apply Hadj.
      + rewrite Hta12, Hta1, Hta2. apply Hadj.
    - intros [] l a b; simpl.
      + rewrite Hda1, Hda2. apply Hshape.
      + rewrite Hsa1, Hsa2. apply Hadjs.
      + rewrite Hta1, Hta2. apply Hadjs. }
  destruct (level_mgstep_runs mg (minlevel mg) (maxlevel mg) fuel (maxlevel mg))
    with (s := a1) as (s1' & E1 & Hp1'); [lia | lia | unfold depth in Hf; lia | done |].
  destruct (level_mgstep_runs mg (minlevel mg) (maxlevel mg) fuel (maxlevel mg))
    with (s := a2) as (s2' & E2 & Hp2'); [lia | lia | unfold depth in Hf; lia | done |].
  destruct (additive_level_mgstep mg Hops fuel (maxlevel mg) a1 a2 a12 s1' s2' HR E1 E2)
    as (s12' & E12 & [Hsum' _]).
  destruct (Hp1' Solution (maxlevel mg)) as [v1 Hv1]; [lia|].
  destruct (Hp2' Solution (maxlevel mg)) as [v2 Hv2]; [lia|].
  cbn [store] in Hv1, Hv2.
  exists s1', s2', s12', v1, v2.
  split. { unfold vcycle. rewrite (seq_cmd_ok _ _ _ _ Ea1). done. }
  split. { unfold vcycle. rewrite (seq_cmd_ok _ _ _ _ Ea2). done. }
  split. { unfold vcycle. rewrite (seq_cmd_ok _ _ _ _ Ea12). done. }
  split; [done|]. split; [done|]. split; [|done].
  pose proof (Hsum' Solution (maxlevel mg)) as Hs. cbn [store] in Hs.
  rewrite Hs, Hv1, Hv2. done.
Qed.

End Additivity.

Module ExampleAdditive.
Import ZVec Example.

Lemma zip_with_left_interchange (f : Z -> Z -> Z) :
  (forall p q r s, f (p + q) (r + s) = (f p r + f q s))%Z ->
  forall a b x y : list Z, length a = length b -> length x = length y ->
  zip_with_left f (zip_with_left Z.add a b) (zip_with_left Z.add x y) =
  zip_with_left Z.add (zip_with_left f a x) (zip_with_left f b y).
Proof.
  intros Hf a. induction a as [|p a IH]; intros [|q b] x y Hab Hxy; simpl in *; try done.
  destruct x as [|r x], y as [|s y]; simpl in *; try done.
  rewrite Hf, IH by lia. done.
Qed.

Lemma zeros_add (a b : list Z) :
  length a = length b ->
  List.map (fun _ => 0%Z) (zip_with_left Z.add a b) =
  zip_with_left Z.add (List.map (fun _ => 0%Z) a) (List.map (fun _ => 0%Z) b).
Proof.
  revert b. induction a as [|p a IH]; intros [|q b] Hab; simpl in *; try done.
  rewrite IH by lia. done.
Qed.

#[global] Instance additive_laws : AdditiveLaws (list Z).
Proof.
  split.
  - intros a b Hab. simpl in *. split; [by apply zeros_add | by rewrite !length_map].
  - intros d a b Hab. simpl in *. split; [by apply zeros_add | by rewrite !length_map].
  - intros a b x y Hab Hxy. simpl in *. split.
    + apply zip_with_left_interchange; [intros; lia | done | done].
    + by rewrite !ExampleShapeLaws.length_zip_with_left.
  - intros a b x y Hab Hxy. simpl in *. split.
    + apply zip_with_left_interchange; [intros; lia | done | done].
    + by rewrite !ExampleShapeLaws.length_zip_with_left.
Qed.

Lemma map_mul_add (c : Z) (a b : list Z) :
  length a = length b ->
  List.map (Z.mul c) (zip_with_left Z.add a b) =
  zip_with_left Z.add (List.map (Z.mul c) a) (List.map (Z.mul c) b).
Proof.
  revert b. induction a as [|p a IH]; intros [|q b] Hab; simpl in *; try done.
  rewrite IH by lia. f_equal. lia.
Qed.

Lemma duplicate_add (a b : list Z) :
  length a = length b ->
  duplicate (zip_with_left Z.add a b) =
  zip_with_left Z.add (duplicate a) (duplicate b).
Proof.
  revert b. induction a as [|p a IH]; intros [|q b] Hab; simpl in *; try done.
  rewrite IH by lia. done.
Qed.

Lemma length_duplicate (a : list Z) : length (duplicate a) = (2 * length a)%nat.
Proof. induction a as [|p a IH]; simpl; [done|]. rewrite IH. lia. Qed.

Lemma pair_sums_add (a : list Z) : forall b : list Z,
  length a = length b ->
  (pair_sums (zip_with_left Z.add a b) =
   zip_with_left Z.add (pair_sums a) (pair_sums b) /\
   length (pair_sums a) = length (pair_sums b)) /\
  forall p q, pair_sums (zip_with_left Z.add (p :: a) (q :: b)) =
              zip_with_left Z.add (pair_sums (p :: a)) (pair_sums (q :: b)) /\
              length (pair_sums (p :: a)) = length (pair_sums (q :: b)).
Proof.
  induction a as [|x a IH]; intros [|y b] Hab; simpl in *; try done.
  destruct (IH b ltac:(lia)) as [[IH1 IH1'] IH2]. split; [apply IH2|].
  intros p q. rewrite IH1, IH1'. split; [f_equal; lia | done].
Qed.

Lemma example_additive down up :
  (down = None \/ down = Some coupling) ->
  (up = None \/ up = Some coupling) ->
  forall lo hi, additive_operators (hierarchy lo hi down up).
Proof.
  intros Hdown Hup lo hi.
  assert (Hmul : additive2 (fun _ src : list Z => List.map (Z.mul 2) src)).
  { intros d1 d2 x1 x2 _ Hx. simpl in *.
    split; [by apply map_mul_add | by rewrite !length_map]. }
  assert (Hrich : additive (smooth richardson)).
  { intros l d1 d2 x1 x2 Hd Hx. simpl in *. split; [|by rewrite !ExampleShapeLaws.length_zip_with_left].
    rewrite map_mul_add by done.
    rewrite (zip_with_left_interchange Z.sub);
      [|intros; lia | done | by rewrite !length_map].
    apply zip_with_left_interchange; [intros; lia | done |].
    by rewrite !ExampleShapeLaws.length_zip_with_left. }
  assert (Hcoup : forall e, Some e = Some coupling -> additive (vmult e) /\ additive (Tvmult e)).
  { intros e [= ->]. split; intros l d1 d2 x1 x2 Hd Hx; simpl in *.
    - apply pair_sums_add. done.
    - split; [by apply duplicate_add | by rewrite !length_duplicate, Hx]. }
  split; simpl; [| | | |exact Hrich|exact Hrich| |].
  - intros l. apply Hmul.
  - intros l d1 d2 x1 x2 Hd Hx. simpl in *. split; [reflexivity | exact Hx].
  - intros l d1 d2 x1 x2 Hd Hx. simpl in *.
    split; [by apply duplicate_add | by rewrite !length_duplicate, Hx].
  - intros l d1 d2 x1 x2 Hd Hx. simpl in *.
    destruct (pair_sums_add x1 x2 Hx) as [[-> Hlen] _].
    split; [|by rewrite !ExampleShapeLaws.length_zip_with_left].
    apply zip_with_left_interchange; [intros; lia | done | done].
  - intros e He. destruct Hdown as [->| ->]; [done | by apply Hcoup].
  - intros e He. destruct Hup as [->| ->]; [done | by apply Hcoup].
Qed.

End ExampleAdditive.

(** ** The further properties on the example *)

(** The calls of one cycle on the hierarchy [0 .. 2] of the example,
    without the restrictions and the edge matrices. *)
Lemma cycle_is_v_shaped_witness :
  exists s' es,
    vcycle Example.edged 3 Example.start = Ok s' /\
    trace s' = trace Example.start ++ es /\
    List.filter per_level_call es =
      [EvPreSmooth 2; EvMatrixVmult 2; EvPreSmooth 1; EvMatrixVmult 1;
       EvCoarse 0;
       EvProlongate 1; EvPostSmooth 1; EvProlongate 2; EvPostSmooth 2].
Proof.
  apply (cycle_is_v_shaped Example.edged 3 Example.start).
  - example_side.
  - reflexivity.
  - apply example_defect_present. example_side.
  - example_side.
Defined.

(** Three restrictions in a cycle on three levels. *)
Lemma restrictions_of_cycle_witness :
  exists s' es,
    vcycle Example.edged 3 Example.start = Ok s' /\
    trace s' = trace Example.start ++ es /\
    restrict_levels es = [2; 1; 1] /\
    (2 * length (restrict_levels es) = 2 * (2 + 1))%nat.
Proof.
  apply (restrictions_of_cycle Example.edged 3 Example.start).
  - example_side.
  - reflexivity.
  - apply example_defect_present. example_side.
  - example_side.
Defined.

(** The edge-down matrix of the example is called at the levels 2 and 1. *)
Lemma edge_down_once_per_step_witness :
  exists s' es,
    vcycle Example.edged 3 Example.start = Ok s' /\
    trace s' = trace Example.start ++ es /\
    edge_down_levels es = [2; 1].
Proof.
  apply (edge_down_once_per_step Example.edged 3 Example.start).
  - example_side.
  - reflexivity.
  - apply example_defect_present. example_side.
  - example_side.
Defined.


(** The step at level 2 of the example with edge matrices, on sized
    vectors. *)
Lemma coarse_grid_correction_witness :
  exists s2 s' x a d uc,
    solution Example.sized !! 2 = Some x /\ t Example.sized !! 2 = Some a /\
    defect Example.sized !! 2 = Some d /\
    seq_cmd (update assign_zero (Solution, 2))
      (seq_cmd (descend Example.edged 2) (level_mgstep Example.edged 2 (2 - 1)))
      Example.sized = Ok s2 /\
    solution s2 !! (2 - 1) = Some uc /\
    level_mgstep Example.edged 3 2 Example.sized = Ok s' /\
    let u := smooth (pre_smooth Example.edged) 2 (assign_zero x) d in
    let p := correction Example.edged 2 (vmult (matrix Example.edged) 2 a u) uc in
    solution s' !! 2 =
      Some (smooth (post_smooth Example.edged) 2 (vadd u p)
              (edge_up_defect Example.edged 2 d p uc)) /\
    defect s' !! 2 = Some (edge_up_defect Example.edged 2 d p uc) /\
    solution s' !! (2 - 1) = Some uc.
Proof.
  apply (coarse_grid_correction Example.edged 2 2 2 Example.sized).
  - example_side.
  - example_side.
  - apply sized_present.
  - example_side.
Defined.

(** One cycle on the levels [1 .. 2] of the example, with edge
    matrices. *)
Lemma two_level_vcycle_witness :
  exists s',
    vcycle (Example.hierarchy 1 2 (Some Example.coupling) (Some Example.coupling)) 2
      Example.start = Ok s' /\
    solution s' !! 2 = Some [16; 16; 38; 38]%Z /\
    solution s' !! 1 = Some [-8; -19]%Z /\
    defect s' !! 1 = Some [-8; -19]%Z /\
    defect s' !! 2 = Some [9; 10; 22; 23]%Z.
Proof.
  exact (two_level_vcycle
           (Example.hierarchy 1 2 (Some Example.coupling) (Some Example.coupling))
           0 Example.start [1; 2; 3; 4]%Z [1; 2]%Z eq_refl eq_refl eq_refl eq_refl).
Defined.

(** The cycle of the example started on empty and on sized level
    objects. *)
Lemma vcycle_discards_solution_witness :
  exists s1' s2',
    vcycle Example.edged 3 Example.start = Ok s1' /\
    vcycle Example.edged 3 Example.sized = Ok s2' /\
    defect s1' = defect s2' /\ solution s1' = solution s2' /\ t s1' = t s2'.
Proof.
  apply (vcycle_discards_solution Example.edged 3 Example.start Example.sized).
  - example_side.
  - reflexivity.
  - apply example_defect_present. example_side.
  - reflexivity.
  - example_side.
Defined.

(** The levels [1 .. 2] of the example; the defect vector of level 0 stays. *)
Lemma vcycle_levels_witness :
  exists s',
    vcycle (Example.hierarchy 1 2 None None) 2 Example.start = Ok s' /\
    (forall l, is_Some (solution s' !! l) <-> 1 <= l <= 2) /\
    (forall l, is_Some (t s' !! l) <-> 1 <= l <= 2) /\
    (forall l, is_Some (defect s' !! l) <-> is_Some (Example.defects !! l)) /\
    (forall l, ~ (1 <= l <= 2) -> defect s' !! l = Example.defects !! l).
Proof.
  apply (vcycle_levels (Example.hierarchy 1 2 None None) 2 Example.start).
  - example_side.
  - reflexivity.
  - apply example_defect_present. example_side.
  - example_side.
Defined.

(** A hierarchy whose only level is the largest [unsigned int], with
    its defect vector in place. *)
Lemma vcycle_needs_room_above_witness :
  (forall n l s0 s', l <= UINT_MAX -> reinit_loop ExampleTop.top n l s0 <> Ok s') /\
  (forall s', vcycle ExampleTop.top 1 ExampleTop.start <> Ok s').
Proof.
  apply (vcycle_needs_room_above ExampleTop.top 1 ExampleTop.start).
  reflexivity.
Defined.

(** The example with the coupling as edge-up matrix. *)
Lemma zero_edge_down_as_null_witness :
  exists s0 sz,
    vcycle (with_edges Example.plain None (Some Example.coupling)) 3 Example.start = Ok s0 /\
    vcycle (with_edges Example.plain (Some zero_matrix) (Some Example.coupling)) 3
      Example.start = Ok sz /\
    defect s0 = defect sz /\ solution s0 = solution sz /\ t s0 = t sz.
Proof.
  apply (zero_edge_down_as_null Example.plain (Some Example.coupling) 3 Example.start).
  - example_side.
  - reflexivity.
  - apply example_defect_present. example_side.
  - example_side.
Defined.

(** The example has no defect vector for level 3, and [2 .. 1] is an
    empty range. *)
Lemma vcycle_requires_defects_witness :
  vcycle (Example.hierarchy 0 3 None None) 4 Example.start = Fatal /\
  vcycle (Example.hierarchy 2 1 None None) 1 Example.start = Fatal.
Proof.
  split.
  - apply (proj1 (proj2 (vcycle_requires_defects (Example.hierarchy 0 3 None None) 4
                           Example.start ltac:(reflexivity))) 3).
    + split; example_side.
    + reflexivity.
  - apply (proj1 (vcycle_requires_defects (Example.hierarchy 2 1 None None) 1
                    Example.start ltac:(reflexivity))).
    reflexivity.
Defined.

(** The step at level 2 of the example without edge matrices. *)
Lemma step_footprint_witness :
  exists s',
    level_mgstep Example.plain 3 2 Example.sized = Ok s' /\
    (forall r l, ~ (0 <= l <= 2) -> store r s' !! l = store r Example.sized !! l) /\
    defect s' !! 2 = defect Example.sized !! 2 /\
    (forall r l, is_Some (store r s' !! l) <-> is_Some (store r Example.sized !! l)).
Proof.
  destruct (level_mgstep_runs Example.plain 0 2 3 2) with (s := Example.sized)
    as (s' & E & _);
    [split; example_side | example_side | example_side | apply sized_present |].
  destruct (step_footprint Example.plain 3 2 Example.sized s') as (H1 & H2 & _ & H4);
    [example_side | exact E |].
  exists s'. split; [exact E|]. split; [exact H1|]. split; [apply H2; reflexivity | exact H4].
Defined.

Lemma example_sum l :
  ExampleSum.defects12 !! l = vadd_opt (Example.defects !! l) (ExampleSum.defects2 !! l).
Proof.
  unfold ExampleSum.defects12, Example.defects, ExampleSum.defects2.
  destruct (decide (l = 0)) as [->|H0]; [reflexivity|].
  destruct (decide (l = 1)) as [->|H1]; [reflexivity|].
  destruct (decide (l = 2)) as [->|H2]; [reflexivity|].
  rewrite !lookup_insert_ne, !lookup_empty by done. done.
Qed.

Lemma example_sum_shapes l (d1 d2 : list Z) :
  Example.defects !! l = Some d1 -> ExampleSum.defects2 !! l = Some d2 ->
  vsize d1 = vsize d2.
Proof.
  unfold Example.defects, ExampleSum.defects2.
  destruct (decide (l = 0)) as [->|H0]; [by intros [= <-] [= <-]|].
  destruct (decide (l = 1)) as [->|H1]; [by intros [= <-] [= <-]|].
  destruct (decide (l = 2)) as [->|H2]; [by intros [= <-] [= <-]|].
  rewrite !lookup_insert_ne, !lookup_empty by done. done.
Qed.

(** The cycle of the example on two sets of defect vectors and on
    their sums. *)
Lemma vcycle_additive_witness :
  exists s1' s2' s12' v1 v2,
    vcycle Example.edged 3 Example.start = Ok s1' /\
    vcycle Example.edged 3 ExampleSum.start2 = Ok s2' /\
    vcycle Example.edged 3 ExampleSum.start12 = Ok s12' /\
    solution s1' !! 2 = Some v1 /\
    solution s2' !! 2 = Some v2 /\
    solution s12' !! 2 = Some (vadd v1 v2) /\
    is_sum s1' s2' s12'.
Proof.
  apply (vcycle_additive Example.edged 3 Example.start ExampleSum.start2 ExampleSum.start12).
  - apply (ExampleAdditive.example_additive _ _ (or_intror eq_refl) (or_intror eq_refl) 0 2).
  - example_side.
  - reflexivity.
  - example_side.
  - apply example_defect_present. example_side.
  - intros l Hl. simpl in Hl. by_levels l.
  - apply example_sum_shapes.
  - apply example_sum.
Defined.
